(** * Throughput tester of the X-Chain (package avmtester)

    A shallow embedding of [utxo_set.go] and [tester.go]: the swap-remove
    UTXO set, the wallet bookkeeping (addUTXO / removeUTXO / createTx /
    generateTxs), the queue of generated transactions (nextTxs), and the
    issuance loop of [Run] together with the Issue / Accept / Reject
    callbacks that share the engine's lock with it. *)

From stdpp Require Import gmap list.

Local Open Scope Z_scope.

(** ** Machine integers *)

(** Go's [uint64], [uint32] and [int] are kept as [Z]; every operation the
    source performs on them is written with its wrap-around. *)
Definition MaxUint64 : Z := 2 ^ 64 - 1.
Definition wrap64 (z : Z) : Z := z mod 2 ^ 64.
Definition add64 (a b : Z) : Z := wrap64 (a + b).
Definition sub64 (a b : Z) : Z := wrap64 (a - b).
Definition is_u64 (z : Z) : Prop := 0 ≤ z ≤ MaxUint64.
Arguments MaxUint64 : simpl never.
Arguments wrap64 : simpl never.

(** Go's [int] on a 64-bit platform. *)
Definition MinInt : Z := - 2 ^ 63.
Definition MaxInt : Z := 2 ^ 63 - 1.
Definition wrapInt (z : Z) : Z := (z + 2 ^ 63) mod 2 ^ 64 - 2 ^ 63.
Definition is_int (z : Z) : Prop := MinInt ≤ z ≤ MaxInt.
Arguments wrapInt : simpl never.

(** ** Results of Go calls *)

Inductive error : Type :=
  | errAmtZero            (* "amount must not positive" *)
  | errOverflow           (* math.Add64 *)
  | errInsufficient       (* "amount spent (%d) < amount (%d)" *)
  | errSign               (* tx.SignSECP256K1Fx *)
  | errNoKeys             (* "keychain has no keys" *)
  | errNoRemaining        (* "no remaining transactions" *)
  | errParse.             (* Engine.VM.ParseTx *)

(** A call returns normally, returns a non-nil [error], or panics (index
    out of range, failed type assertion). *)
Inductive result (A : Type) : Type :=
  | Ok (a : A)
  | Err (e : error)
  | Panic.
Arguments Ok {A} a.
Arguments Err {A} e.
Arguments Panic {A}.

Section Avmtester.

(** [ids.ID] is a 32-byte digest and [ids.ShortID] a 20-byte one.  The code
    only compares them and uses [ID] keys in maps, so both stay abstract. *)
Context {ID : Type} `{Countable ID}.
Context {ShortID : Type}.

(** ** Components (package avax, secp256k1fx) *)

Record UTXOID : Type := mkUTXOID {
  TxID : ID;
  OutputIndex : Z;   (* uint32 *)
}.

Record OutputOwners : Type := mkOwners {
  Locktime : Z;      (* uint64 *)
  Threshold : Z;     (* uint32 *)
  Addrs : list ShortID;
}.

(** The dynamic type stored in the interface field [UTXO.Out].  Of the
    output types the codec registers, only [secp256k1fx.TransferOutput]
    implements [avax.TransferableOut]. *)
Inductive Output : Type :=
  | NilOutput
  | TransferOutput (Amt : Z) (owners : OutputOwners)
  | MintOutput (owners : OutputOwners).

Record UTXO : Type := mkUTXO {
  utxoID : UTXOID;
  Asset : ID;
  Out : Output;
}.

(** ** Transactions (packages avax, avm, secp256k1fx) *)

Context {PrivateKey Credential Keychain : Type}.

(** The dynamic type of what [Keychain.Spend] returns: only
    [secp256k1fx.TransferInput] implements [avax.TransferableIn]. *)
Inductive Input : Type :=
  | TransferInput (Amt : Z) (SigIndices : list Z)
  | MintInput (SigIndices : list Z).

Record TransferableInput : Type := mkIn {
  inUTXOID : UTXOID;
  inAsset : ID;
  In : Input;
}.

Record TransferableOutput : Type := mkOut {
  outAsset : ID;
  outOut : Output;
}.

Record BaseTx : Type := mkBaseTx {
  txNetworkID : Z;
  BlockchainID : ID;
  Outs : list TransferableOutput;
  Ins : list TransferableInput;
}.

Record Tx : Type := mkTx {
  UnsignedTx : BaseTx;
  Creds : list Credential;
}.

(** What the wallet calls in other packages.  [InputID] hashes the pair
    (TxID, OutputIndex) of a UTXO; [NewKeychain] is the empty keychain;
    [kcSpend] answers whether the keychain
    can spend an output at a given time, and with which input and signers;
    the two sorts put inputs (with their signers) and outputs in canonical
    order; signing may fail; [txID] is the digest of the signed
    transaction. *)
Class External : Type := {
  InputID : UTXOID → ID;
  NewKeychain : Keychain;
  kcSpend : Keychain → Output → Z → option (Input * list PrivateKey);
  kcAddresses : Keychain → list ShortID;
  kcAdd : Keychain → PrivateKey → Keychain;
  keyAddress : PrivateKey → ShortID;
  SortTransferableInputsWithSigners :
    list TransferableInput → list (list PrivateKey) →
    list TransferableInput * list (list PrivateKey);
  SortTransferableOutputs :
    list TransferableOutput → list TransferableOutput;
  SignSECP256K1Fx :
    BaseTx → list (list PrivateKey) → option (list Credential);
  txID : Tx → ID;
}.

Context {external : External}.

(** [utxo.InputID().Key()] *)
Definition inputKey (u : UTXO) : ID := InputID (utxoID u).

(** ** utxo_set.go *)

Record UTXOSet : Type := mkUTXOSet {
  utxoMap : gmap ID nat;   (* nil and empty maps read alike *)
  UTXOs : list UTXO;
}.

Definition emptyUTXOSet : UTXOSet := mkUTXOSet ∅ [].

Definition Put (us : UTXOSet) (utxo : UTXO) : UTXOSet :=
  let utxoKey := inputKey utxo in
  match utxoMap us !! utxoKey with
  | Some _ => us
  | None =>
      mkUTXOSet (<[utxoKey := length (UTXOs us)]> (utxoMap us))
                (UTXOs us ++ [utxo])
  end.

Definition Get (us : UTXOSet) (id : ID) : result (option UTXO) :=
  match utxoMap us !! id with
  | Some i =>
      match UTXOs us !! i with
      | Some utxo => Ok (Some utxo)
      | None => Panic
      end
  | None => Ok None
  end.

Definition Remove (us : UTXOSet) (id : ID) : result (UTXOSet * option UTXO) :=
  match utxoMap us !! id with
  | None => Ok (us, None)
  | Some i =>
      match UTXOs us !! i with
      | None => Panic
      | Some utxoI =>
          let j := (length (UTXOs us) - 1)%nat in
          match UTXOs us !! j with
          | None => Panic
          | Some utxoJ =>
              let l := take j (<[i := utxoJ]> (UTXOs us)) in
              let m := <[inputKey utxoJ := i]> (utxoMap us) in
              let m := delete (inputKey utxoI) m in
              Ok (mkUTXOSet m l, Some utxoI)
          end
      end
  end.

(** Sequences of operations on a set, and the finite map they denote:
    [Put] keeps the UTXO already stored under an id, [Remove] forgets it. *)
Inductive setOp : Type :=
  | OpPut (utxo : UTXO)
  | OpRemove (id : ID).

Definition applyOp (r : result UTXOSet) (o : setOp) : result UTXOSet :=
  match r with
  | Ok us =>
      match o with
      | OpPut utxo => Ok (Put us utxo)
      | OpRemove id =>
          match Remove us id with
          | Ok (us', _) => Ok us'
          | Err e => Err e
          | Panic => Panic
          end
      end
  | _ => r
  end.

Definition runOps (ops : list setOp) : result UTXOSet :=
  foldl applyOp (Ok emptyUTXOSet) ops.

Definition heldStep (m : gmap ID UTXO) (o : setOp) : gmap ID UTXO :=
  match o with
  | OpPut utxo =>
      match m !! inputKey utxo with
      | Some _ => m
      | None => <[inputKey utxo := utxo]> m
      end
  | OpRemove id => delete id m
  end.

(** The UTXOs that were put and not yet removed, by id. *)
Definition held (ops : list setOp) : gmap ID UTXO := foldl heldStep ∅ ops.

(** The same, read off the sequence of operations itself.  An id is
    present when some [Put] of it is followed by no [Remove] of it; a UTXO
    is put and kept when it was put while its id was not present and its id
    was not removed since. *)
Definition present (ops : list setOp) (id : ID) : Prop :=
  ∃ before utxo after,
    ops = before ++ OpPut utxo :: after
    ∧ inputKey utxo = id
    ∧ OpRemove id ∉ after.

Definition putAndKept (ops : list setOp) (u : UTXO) : Prop :=
  ∃ before after,
    ops = before ++ OpPut u :: after
    ∧ (OpRemove (inputKey u) ∉ after)
    ∧ ¬ present before (inputKey u).

(** Index and list agree: an index entry [k ↦ i] exists exactly when
    position [i] of the list holds a UTXO whose id is [k]. *)
Definition inSync (us : UTXOSet) : Prop :=
  ∀ k i, utxoMap us !! k = Some i ↔
         ∃ u, UTXOs us !! i = Some u ∧ inputKey u = k.

(** The list holds exactly the UTXOs of the map [m]. *)
Definition holds (us : UTXOSet) (m : gmap ID UTXO) : Prop :=
  ∀ k u, m !! k = Some u ↔
         ∃ i, utxoMap us !! k = Some i ∧ UTXOs us !! i = Some u.

(** Modelled from the spec: [math.Add64] is not in this package; the spec
    asks that overflow on accumulation be checked and reported, not wrapped. *)
Definition Add64 (a b : Z) : result Z :=
  if decide (a + b ≤ MaxUint64) then Ok (a + b) else Err errOverflow.

(** Modelled from the spec: [avm.Tx.InputUTXOs] is not in this package; each
    input references the UTXO it consumes. *)
Definition InputUTXOs (tx : Tx) : list UTXOID :=
  inUTXOID <$> Ins (UnsignedTx tx).

(** Modelled from the spec: [avm.Tx.UTXOs] is not in this package; output
    number [i] of a transaction becomes the UTXO identified by the
    transaction's id and [i]. *)
Definition TxUTXOs (tx : Tx) : list UTXO :=
  imap (λ i out, mkUTXO (mkUTXOID (txID tx) (Z.of_nat i)) (outAsset out) (outOut out))
       (Outs (UnsignedTx tx)).

(** ** tester.go: the wallet *)

Record Config : Type := mkConfig {
  NetworkID : Z;
  ChainID : ID;
  Clock : Z;               (* what [Clock.Unix()] reads *)
  TxFee : Z;               (* uint64 *)
  AvaxAssetID : ID;
  MaxProcessingVtxs : Z;   (* int *)
}.

Record tester : Type := mkTester {
  config : Config;
  keychain : Keychain;
  utxoSet : UTXOSet;
  balance : gmap ID Z;
  txs : list (option Tx);  (* []*avm.Tx; [None] is a nil pointer *)
  processingVtxs : Z;      (* int *)
}.

Definition NewTester (c : Config) : tester :=
  mkTester c NewKeychain emptyUTXOSet ∅ [] 0.

Definition set_utxoSet (us : UTXOSet) (t : tester) : tester :=
  mkTester (config t) (keychain t) us (balance t) (txs t) (processingVtxs t).
Definition set_balance (b : gmap ID Z) (t : tester) : tester :=
  mkTester (config t) (keychain t) (utxoSet t) b (txs t) (processingVtxs t).
Definition set_txs (l : list (option Tx)) (t : tester) : tester :=
  mkTester (config t) (keychain t) (utxoSet t) (balance t) l (processingVtxs t).
Definition set_keychain (kc : Keychain) (t : tester) : tester :=
  mkTester (config t) kc (utxoSet t) (balance t) (txs t) (processingVtxs t).
Definition set_processingVtxs (n : Z) (t : tester) : tester :=
  mkTester (config t) (keychain t) (utxoSet t) (balance t) (txs t) n.

(** Methods of [*tester] read and write the receiver and may fail: a state
    monad over [tester] whose results are [result]s. *)
Definition M (A : Type) : Type := tester → result A * tester.

#[local] Instance M_ret : MRet M := λ A a t, (Ok a, t).
#[local] Instance M_bind : MBind M := λ A B f m t,
  match m t with
  | (Ok a, t') => f a t'
  | (Err e, t') => (Err e, t')
  | (Panic, t') => (Panic, t')
  end.

Definition gets {A} (f : tester → A) : M A := λ t, (Ok (f t), t).
Definition modify (f : tester → tester) : M unit := λ t, (Ok tt, f t).
Definition throw {A} (e : error) : M A := λ t, (Err e, t).
Definition panic {A} : M A := λ t, (Panic, t).
Definition lift {A} (r : result A) : M A := λ t, (r, t).

(** [for _, x := range l { body x }] *)
Fixpoint forEach {A} (body : A → M unit) (l : list A) : M unit :=
  match l with
  | [] => mret tt
  | x :: l => body x ;; forEach body l
  end.

(** A missing key of a Go map reads as zero. *)
Definition balanceOf (b : gmap ID Z) (asset : ID) : Z := default 0 (b !! asset).

Definition importKey (sk : PrivateKey) : M unit :=
  modify (λ t, set_keychain (kcAdd (keychain t) sk) t).

Definition addUTXO (utxo : UTXO) : M unit :=
  match Out utxo return M unit with
  | TransferOutput amt _ =>
      kc ← gets keychain;
      match kcSpend kc (Out utxo) MaxUint64 return M unit with
      | Some _ =>
          modify (λ t, set_utxoSet (Put (utxoSet t) utxo) t) ;;
          modify (λ t, set_balance
            (<[Asset utxo := add64 (balanceOf (balance t) (Asset utxo)) amt]> (balance t)) t)
      | None => mret tt
      end
  | _ => mret tt
  end.

(** Calls on [t.utxoSet] made through the receiver. *)
Definition utxoSetGet (id : ID) : M (option UTXO) :=
  λ t, (Get (utxoSet t) id, t).

Definition utxoSetRemove (id : ID) : M unit :=
  λ t, match Remove (utxoSet t) id with
       | Ok (us, _) => (Ok tt, set_utxoSet us t)
       | Err e => (Err e, t)
       | Panic => (Panic, t)
       end.

Definition removeUTXO (utxoID : ID) : M unit :=
  got ← utxoSetGet utxoID;
  match got return M unit with
  | None => mret tt
  | Some utxo =>
      let assetKey := Asset utxo in
      match Out utxo return M unit with
      | TransferOutput amt _ =>
          bal ← gets balance;
          let newBalance := sub64 (balanceOf bal assetKey) amt in
          (if decide (newBalance = 0)
           then modify (set_balance (delete assetKey bal))
           else modify (set_balance (<[assetKey := newBalance]> bal))) ;;
          utxoSetRemove utxoID
      | _ => panic
      end
  end.

(** The selection loop of [createTx] over [t.utxoSet.UTXOs]: skip other
    assets, unspendable outputs and inputs that are not transferable; add
    the amounts with [math.Add64]; stop at the first total that reaches
    [amount+t.TxFee], a sum the source computes in [uint64]. *)
Fixpoint selectInputs (kc : Keychain) (assetID : ID) (amount fee time : Z)
    (utxos : list UTXO) (amountSpent : Z)
    (ins : list TransferableInput) (keys : list (list PrivateKey))
    : result (Z * list TransferableInput * list (list PrivateKey)) :=
  match utxos with
  | [] => Ok (amountSpent, ins, keys)
  | utxo :: rest =>
      if decide (Asset utxo = assetID) then
        match kcSpend kc (Out utxo) time with
        | Some (TransferInput inAmt sigs, signers) =>
            match Add64 amountSpent inAmt with
            | Ok spent =>
                let ins := ins ++ [mkIn (utxoID utxo) assetID (TransferInput inAmt sigs)] in
                let keys := keys ++ [signers] in
                if decide (add64 amount fee ≤ spent)
                then Ok (spent, ins, keys)
                else selectInputs kc assetID amount fee time rest spent ins keys
            | Err e => Err e
            | Panic => Panic
            end
        | _ => selectInputs kc assetID amount fee time rest amountSpent ins keys
        end
      else selectInputs kc assetID amount fee time rest amountSpent ins keys
  end.

Definition paymentOutput (assetID : ID) (amt : Z) (addr : ShortID) : TransferableOutput :=
  mkOut assetID (TransferOutput amt (mkOwners 0 1 [addr])).

Definition createTx (assetID : ID) (amount : Z) (destAddr changeAddr : ShortID)
    (time : Z) : M Tx :=
  if decide (amount = 0) then throw errAmtZero else
  utxos ← gets (λ t, UTXOs (utxoSet t));
  kc ← gets keychain;
  c ← gets config;
  sel ← lift (selectInputs kc assetID amount (TxFee c) time utxos 0 [] []);
  let '(amountSpent, ins, keys) := sel in
  if decide (amountSpent < add64 amount (TxFee c)) then throw errInsufficient else
  let '(ins, keys) := SortTransferableInputsWithSigners ins keys in
  let outs := [paymentOutput assetID amount destAddr] in
  let outs :=
    if decide (add64 amount (TxFee c) < amountSpent)
    then outs ++ [paymentOutput assetID
                    (sub64 (sub64 amountSpent amount) (TxFee c)) changeAddr]
    else outs in
  let outs := SortTransferableOutputs outs in
  let utx := mkBaseTx (NetworkID c) (ChainID c) outs ins in
  match SignSECP256K1Fx utx keys return M Tx with
  | Some creds => mret (mkTx utx creds)
  | None => throw errSign
  end.

(** The loop of [generateTxs]: [n] iterations are left and [i] is the Go
    loop variable.  Progress logging does not touch the wallet and is left
    out. *)
Fixpoint generateLoop (assetID : ID) (addr : ShortID) (now : Z)
    (n i : nat) : M unit :=
  match n with
  | O => mret tt
  | S n =>
      tx ← createTx assetID 1 addr addr now;
      forEach (λ utxoID, removeUTXO (InputID utxoID)) (InputUTXOs tx) ;;
      forEach addUTXO (TxUTXOs tx) ;;
      modify (λ t, set_txs (<[i := Some tx]> (txs t)) t) ;;
      generateLoop assetID addr now n (S i)
  end.

Definition generateTxs (numTxs : Z) (assetID : ID) : M unit :=
  now ← gets (λ t, Clock (config t));
  kc ← gets keychain;
  match take 1 (kcAddresses kc) return M unit with
  | [] => throw errNoKeys
  | addr :: _ =>
      if decide (numTxs < 0) then panic   (* make([]*avm.Tx, numTxs) *)
      else
        modify (set_txs (replicate (Z.to_nat numTxs) None)) ;;
        generateLoop assetID addr now (Z.to_nat numTxs) 0
  end.

Definition nextTxs (n : Z) : M (list (option Tx)) :=
  l ← gets txs;
  if decide (length l = 0%nat) then throw errNoRemaining
  else if decide (Z.of_nat (length l) < n) then mret l
  else if decide (n < 0) then panic     (* t.txs[:n] *)
  else modify (set_txs (drop (Z.to_nat n) l)) ;; mret (take (Z.to_nat n) l).

(** ** tester.go: the callbacks of the consensus engine *)

Definition Issue : M unit :=
  modify (λ t, set_processingVtxs (wrapInt (processingVtxs t + 1)) t).

(** [Accept] and [Reject] share one body; the result tells whether
    [processingVtxsCond.Signal()] was called. *)
Definition Accept : M bool :=
  modify (λ t, set_processingVtxs (wrapInt (processingVtxs t - 1)) t) ;;
  gets (λ t, bool_decide (processingVtxs t < MaxProcessingVtxs (config t))).

Definition Reject : M bool :=
  modify (λ t, set_processingVtxs (wrapInt (processingVtxs t - 1)) t) ;;
  gets (λ t, bool_decide (processingVtxs t < MaxProcessingVtxs (config t))).

(** ** tester.go: Run *)

Record TestConfig : Type := mkTestConfig {
  NumTxs : Z;          (* int *)
  cfgUTXOID : UTXOID;
  UTXOAmount : Z;      (* uint64 *)
  Key : PrivateKey;
  LogFreq : Z;         (* int *)
  BatchSize : Z;       (* int *)
}.

(** The part of [Run] before the issuance loop. *)
Definition RunSetup (cfg : TestConfig) : M unit :=
  importKey (Key cfg) ;;
  asset ← gets (λ t, AvaxAssetID (config t));
  addUTXO (mkUTXO (cfgUTXOID cfg) asset
             (TransferOutput (UTXOAmount cfg)
                (mkOwners 0 1 [keyAddress (Key cfg)]))) ;;
  generateTxs (NumTxs cfg) asset.

(** *** The issuance loop and the engine's threads

    The loop of [Run] and the callbacks run in different goroutines and
    meet only under one lock, [processingVtxsCond.L] (the engine's lock), so
    an execution is a sequence of steps, each taken with the lock held or
    releasing it.  The engine decides what a step cannot: whether a parse or
    [Engine.Issue] fails, which callbacks it makes while [Engine.Issue]
    runs, and when it makes a callback from its own threads. *)

Inductive outcome : Type :=
  | Completed             (* [return nil, nil] after the loop *)
  | RanOut (i : Z)        (* "ran out of transactions after issuing %d", [return nil, nil] *)
  | ParseFailed           (* "failed to parse tx: %s" *)
  | IssueFailed           (* "failed to issue tx: %s" *)
  | Panicked.

Inductive pc : Type :=
  | AtLoopTest            (* [i < config.NumTxs], lock not held *)
  | AtWaitTest            (* [t.processingVtxs > t.MaxProcessingVtxs], lock held *)
  | Waiting               (* parked in [Wait()], lock released *)
  | Woken                 (* signalled; [Wait()] re-takes the lock before returning *)
  | PastWait              (* the wait loop is left, lock held *)
  | Returned (o : outcome).

Inductive callback : Type := CbIssue | CbAccept | CbReject.

Inductive label : Type :=
  | LLock                 (* loop test passes, [L.Lock()] *)
  | LFinish               (* loop test fails *)
  | LBlock                (* wait test holds: [Wait()] *)
  | LPass                 (* wait test fails *)
  | LReacquire            (* [Wait()] returns *)
  | LBatch (parseFails : option nat) (issueFails : bool) (during : list callback)
                          (* nextTxs, ParseTx, Engine.Issue, Unlock, logging, i++ *)
  | LCallback (cb : callback).   (* a callback from an engine thread *)

Record state : Type := mkState {
  me : tester;
  loopVar : Z;                       (* [i] *)
  at_pc : pc;
  lockHeld : bool;                   (* by the goroutine of [Run] *)
  submitted : list (list Tx);        (* batches [Engine.Issue] accepted *)
}.

Definition initState (t : tester) : state := mkState t 0 AtLoopTest false [].

(** A callback runs on the tester; a [Signal()] wakes the loop when it is
    parked. *)
Definition runCallback (cb : callback) (t : tester) : bool * tester :=
  match cb with
  | CbIssue => (false, (Issue t).2)
  | CbAccept => (match (Accept t).1 with Ok b => b | _ => false end, (Accept t).2)
  | CbReject => (match (Reject t).1 with Ok b => b | _ => false end, (Reject t).2)
  end.

Definition afterSignal (signalled : bool) (p : pc) : pc :=
  match p with
  | Waiting => if signalled then Woken else Waiting
  | _ => p
  end.

(** [for i, tx := range txs { ParseTx(tx.Bytes()) }]: a nil transaction
    panics, the parse chosen by the engine fails; [k] is the Go index. *)
Fixpoint parseAll (parseFails : option nat) (k : nat) (batch : list (option Tx))
    : result (list Tx) :=
  match batch with
  | [] => Ok []
  | None :: _ => Panic
  | Some tx :: rest =>
      if decide (parseFails = Some k) then Err errParse
      else match parseAll parseFails (S k) rest with
           | Ok l => Ok (tx :: l)
           | r => r
           end
  end.

(** The condition of the progress log; [i%config.LogFreq] panics on a zero
    [LogFreq] unless the first disjunct already decided. *)
Definition logTest (cfg : TestConfig) (i : Z) : result bool :=
  if decide (i = NumTxs cfg - 1) then Ok true
  else if decide (LogFreq cfg = 0) then Panic
  else Ok (bool_decide (Z.rem i (LogFreq cfg) = 0 ∧ i ≠ 0)).

Definition step (cfg : TestConfig) (l : label) (s : state) : option state :=
  match l, at_pc s with
  | LLock, AtLoopTest =>
      if decide (loopVar s < NumTxs cfg)
      then Some (mkState (me s) (loopVar s) AtWaitTest true (submitted s))
      else None
  | LFinish, AtLoopTest =>
      if decide (loopVar s < NumTxs cfg) then None
      else Some (mkState (me s) (loopVar s) (Returned Completed) (lockHeld s) (submitted s))
  | LBlock, AtWaitTest =>
      if decide (MaxProcessingVtxs (config (me s)) < processingVtxs (me s))
      then Some (mkState (me s) (loopVar s) Waiting false (submitted s))
      else None
  | LPass, AtWaitTest =>
      if decide (MaxProcessingVtxs (config (me s)) < processingVtxs (me s))
      then None
      else Some (mkState (me s) (loopVar s) PastWait true (submitted s))
  | LReacquire, Woken =>
      Some (mkState (me s) (loopVar s) AtWaitTest true (submitted s))
  | LBatch parseFails issueFails during, PastWait =>
      match nextTxs (BatchSize cfg) (me s) with
      | (Err _, t) =>
          (* returns with the lock still held *)
          Some (mkState t (loopVar s) (Returned (RanOut (loopVar s))) true (submitted s))
      | (Panic, t) =>
          Some (mkState t (loopVar s) (Returned Panicked) true (submitted s))
      | (Ok batch, t) =>
          match parseAll parseFails 0 batch with
          | Panic => Some (mkState t (loopVar s) (Returned Panicked) true (submitted s))
          | Err _ => Some (mkState t (loopVar s) (Returned ParseFailed) false (submitted s))
          | Ok parsed =>
              let t := foldl (λ t cb, (runCallback cb t).2) t during in
              if issueFails
              then Some (mkState t (loopVar s) (Returned IssueFailed) false (submitted s))
              else
                let sub := submitted s ++ [parsed] in
                match logTest cfg (loopVar s) with
                | Ok _ => Some (mkState t (loopVar s + 1) AtLoopTest false sub)
                | _ => Some (mkState t (loopVar s) (Returned Panicked) false sub)
                end
          end
      end
  | LCallback cb, p =>
      if lockHeld s then None
      else
        let '(signalled, t) := runCallback cb (me s) in
        Some (mkState t (loopVar s) (afterSignal signalled p) false (submitted s))
  | _, _ => None
  end.

(** Executions: the states reached from the start of the loop. *)
Fixpoint exec (cfg : TestConfig) (ls : list label) (s : state) : option state :=
  match ls with
  | [] => Some s
  | l :: ls =>
      match step cfg l s with
      | Some s' => exec cfg ls s'
      | None => None
      end
  end.

(** [in.In.Amount()], and the exact sum of what a transaction consumes. *)
Definition inAmount (i : TransferableInput) : Z :=
  match In i with
  | TransferInput amt _ => amt
  | MintInput _ => 0
  end.

Definition sumIns (ins : list TransferableInput) : Z :=
  foldr (λ i acc, inAmount i + acc) 0 ins.

Definition sumInputs (tx : Tx) : Z := sumIns (Ins (UnsignedTx tx)).

(** ** Bookkeeping of the wallet *)

(** [utxo.Out.(avax.TransferableOut)] succeeds. *)
Definition isTransferableOut (o : Output) : bool :=
  match o with
  | TransferOutput _ _ => true
  | _ => false
  end.

(** [out.Amount()], zero for what has no amount. *)
Definition amountOf (o : Output) : Z :=
  match o with
  | TransferOutput amt _ => amt
  | _ => 0
  end.

(** The exact sum of the amounts of the UTXOs of one asset. *)
Definition assetAmount (asset : ID) (u : UTXO) : Z :=
  if decide (Asset u = asset) then amountOf (Out u) else 0.

Definition sumAsset (asset : ID) (l : list UTXO) : Z :=
  foldr (λ u acc, assetAmount asset u + acc) 0 l.

(** The wallets reached from a new tester by imports, [addUTXO] of UTXOs
    whose id the set does not hold yet, and [removeUTXO]. *)
Inductive bookkept : tester → Prop :=
  | bookkept_new c : bookkept (NewTester c)
  | bookkept_import t sk : bookkept t → bookkept (importKey sk t).2
  | bookkept_add t utxo :
      bookkept t →
      utxoMap (utxoSet t) !! inputKey utxo = None →
      bookkept (addUTXO utxo t).2
  | bookkept_remove t id : bookkept t → bookkept (removeUTXO id t).2.



(** ** Invariants *)

(** What a wallet reached by bookkeeping satisfies. *)
Record balanced (t : tester) : Prop := mkBalanced {
  balanced_sync : inSync (utxoSet t);
  balanced_transferable :
    ∀ u, u ∈ UTXOs (utxoSet t) → isTransferableOut (Out u) = true;
  balanced_sum :
    ∀ asset, balanceOf (balance t) asset =
             wrap64 (sumAsset asset (UTXOs (utxoSet t)));
}.

(** Wallets on which the bookkeeping cannot panic and whose table holds
    64-bit values. *)
Record walletOk (t : tester) : Prop := mkWalletOk {
  ok_sync : inSync (utxoSet t);
  ok_transferable :
    ∀ u, u ∈ UTXOs (utxoSet t) → isTransferableOut (Out u) = true;
  ok_range : ∀ asset, is_u64 (balanceOf (balance t) asset);
}.

(** What a call leaves alone besides the UTXO set and the balance table. *)
Definition sameRest (t t' : tester) : Prop :=
  config t' = config t ∧ keychain t' = keychain t
  ∧ txs t' = txs t ∧ processingVtxs t' = processingVtxs t.

(** The exact sum of the amounts of the outputs of one asset. *)
Definition sumOuts (asset : ID) (outs : list TransferableOutput) : Z :=
  foldr (λ o acc, (if decide (outAsset o = asset) then amountOf (outOut o) else 0) + acc)
        0 outs.






(** [Run] returned through one of its failure paths. *)
Definition failed (p : pc) : bool :=
  match p with
  | Returned ParseFailed | Returned IssueFailed | Returned Panicked => true
  | _ => false
  end.

Definition inIteration (p : pc) : bool :=
  match p with
  | AtWaitTest | Waiting | Woken | PastWait => true
  | _ => false
  end.

Record loopInv (cfg : TestConfig) (t : tester) (s : state) : Prop := mkLoopInv {
  loop_range : 0 ≤ loopVar s ≤ Z.max 0 (NumTxs cfg);
  loop_count : at_pc s ≠ Returned Panicked →
               Z.of_nat (length (submitted s)) = loopVar s;
  loop_inside : inIteration (at_pc s) = true → loopVar s < NumTxs cfg;
  loop_done : at_pc s = Returned Completed → NumTxs cfg ≤ loopVar s;
  loop_ranout : ∀ i, at_pc s = Returned (RanOut i) →
                i = loopVar s ∧ txs (me s) = [] ∧ i < NumTxs cfg;
  loop_sizes : Forall (λ b : list Tx, Z.of_nat (length b) ≤ BatchSize cfg) (submitted s);
  loop_order : BatchSize cfg = 1 → failed (at_pc s) = false →
               (Some <$> concat (submitted s)) ++ txs (me s) = txs t
               ∧ Forall (λ b : list Tx, length b = 1%nat) (submitted s);
}.

(** ** Sequences of calls *)

(** The calls that change the wallet, as a user of the package sequences
    them. *)
Inductive walletOp : Type :=
  | WImport (sk : PrivateKey)
  | WAdd (utxo : UTXO)
  | WRemove (id : ID).

Definition runWalletOp (o : walletOp) : M unit :=
  match o with
  | WImport sk => importKey sk
  | WAdd utxo => addUTXO utxo
  | WRemove id => removeUTXO id
  end.

(** What a callback adds to [processingVtxs]. *)
Definition cbDelta (cb : callback) : Z :=
  match cb with
  | CbIssue => 1
  | CbAccept | CbReject => -1
  end.

Definition netCount (cbs : list callback) : Z :=
  foldr (λ cb acc, cbDelta cb + acc) 0 cbs.

(** An iteration of the loop of [Run] that finds capacity at once and
    during which the engine neither fails nor calls back, and [k] of them in
    a row. *)
Definition quietBatch : list label := [LLock; LPass; LBatch None false []].

Definition quietRun (k : nat) : list label := concat (replicate k quietBatch).

(** The first [k] batches of [b] elements of a list. *)
Fixpoint chunks {A} (b k : nat) (l : list A) : list (list A) :=
  match k with
  | O => []
  | S k => take b l :: chunks b k (drop b l)
  end.

(** The period of the progress log of [generateTxs]: [numTxs / 50] (Go's
    division truncates), at most 1000, and 1 in place of 0.  It is the
    divisor of [numGenerated%frequency]. *)
Definition frequency (numTxs : Z) : Z :=
  let frequency := Z.quot numTxs 50 in
  let frequency := if decide (1000 < frequency) then 1000 else frequency in
  if decide (frequency = 0) then 1 else frequency.

(** ** api/xput/service.go: from the arguments of the API call to a run *)

Definition defaultBatchSize : Z := 10.
Definition defaultMaxProcessingVtxs : Z := 50.

(** The numeric fields of [RunArgs]; the key is handled apart, since
    parsing it is the work of other packages. *)
Record RunArgs : Type := mkRunArgs {
  argNumTxs : Z;              (* json.Uint64 *)
  argTxID : ID;
  argOutputIndex : Z;         (* json.Uint32 *)
  argAmount : Z;              (* json.Uint64 *)
  argBatchSize : Z;           (* json.Uint64 *)
  argMaxProcessingVtxs : Z;   (* json.Uint64 *)
}.

Record service : Type := mkService {
  svcNetworkID : Z;
  svcChainID : ID;            (* [s.engine.Context().ChainID] *)
  svcTxFee : Z;
  svcClock : Z;
  svcAvaxAssetID : ID;
}.

(** The [avmtester.Config] that [service.Run] builds: a zero
    [MaxProcessingVtxs] is replaced by the default before the conversion
    [int(args.MaxProcessingVtxs)]. *)
Definition testerConfig (s : service) (args : RunArgs) : Config :=
  let maxVtxs :=
    if decide (argMaxProcessingVtxs args = 0)
    then defaultMaxProcessingVtxs else argMaxProcessingVtxs args in
  mkConfig (svcNetworkID s) (svcChainID s) (svcClock s) (svcTxFee s)
           (svcAvaxAssetID s) (wrapInt maxVtxs).

(** [logFreq := int(args.NumTxs) / 50], capped at 1000, 1 in place of 0. *)
Definition logFreq (args : RunArgs) : Z :=
  let logFreq := Z.quot (wrapInt (argNumTxs args)) 50 in
  let logFreq := if decide (1000 < logFreq) then 1000 else logFreq in
  if decide (logFreq = 0) then 1 else logFreq.

(** The [avmtester.TestConfig] that [service.Run] passes to [Run], for the
    parsed key. *)
Definition runConfig (args : RunArgs) (key : PrivateKey) : TestConfig :=
  let batchSize :=
    if decide (argBatchSize args = 0)
    then defaultBatchSize else argBatchSize args in
  mkTestConfig (wrapInt (argNumTxs args))
               (mkUTXOID (argTxID args) (argOutputIndex args))
               (argAmount args) key (logFreq args) (wrapInt batchSize).

End Avmtester.

(** * A concrete wallet

    One instance of the outside world, used to run the definitions:
    digests are the serialisations themselves (so distinct data have
    distinct ids), an address is the number of its key, and the keychain is
    the list of the keys it holds. *)
Module Scenario.

Definition ID : Type := list Z.
Definition ShortID : Type := nat.
Definition PrivateKey : Type := nat.
Definition Credential : Type := list nat.
Definition Keychain : Type := list nat.

(** Modelled from the spec: [avax.UTXOID.InputID] is not in this package; a
    UTXO is identified by its source transaction and output index. *)
Definition idOfUTXO (u : @UTXOID ID) : ID := OutputIndex u :: TxID u.

(** Modelled from the spec: the derivation of an address from a key is not
    in this package; every key has its own address. *)
Definition addressOf (sk : PrivateKey) : ShortID := sk.

(** Modelled from the spec: the keychain's [Add] is not in this package;
    importing a key registers it and its address once, in insertion
    order. *)
Definition addKey (kc : Keychain) (sk : PrivateKey) : Keychain :=
  if bool_decide (sk ∈ kc) then kc else kc ++ [sk].

(** Modelled from the spec: the keychain's [Addresses] is not in this
    package; the known addresses in insertion order. *)
Definition addresses (kc : Keychain) : list ShortID := addressOf <$> kc.

(** Modelled from the spec: the keychain's [Match] is not in this package;
    walk the owners' addresses, collect the keys held until the threshold is
    reached, and succeed when the threshold is met and the lock time has
    passed. *)
Fixpoint matchOwners (kc : Keychain) (threshold : Z) (i : Z) (addrs : list ShortID)
    (sigs : list Z) (keys : list PrivateKey) : list Z * list PrivateKey :=
  match addrs with
  | [] => (sigs, keys)
  | a :: addrs =>
      if bool_decide (Z.of_nat (length keys) < threshold) then
        if bool_decide (a ∈ kc)
        then matchOwners kc threshold (i + 1) addrs (sigs ++ [i]) (keys ++ [a])
        else matchOwners kc threshold (i + 1) addrs sigs keys
      else (sigs, keys)
  end.

Definition kcMatch (kc : Keychain) (owners : @OutputOwners ShortID) (time : Z)
    : option (list Z * list PrivateKey) :=
  if bool_decide (time < Locktime owners) then None
  else
    let '(sigs, keys) := matchOwners kc (Threshold owners) 0 (Addrs owners) [] [] in
    if bool_decide (Z.of_nat (length keys) = Threshold owners)
    then Some (sigs, keys) else None.

(** Modelled from the spec: the keychain's [Spend] is not in this package;
    a transfer output yields a transfer input of the same amount. *)
Definition spend (kc : Keychain) (out : @Output ShortID) (time : Z)
    : option (Input * list PrivateKey) :=
  match out with
  | NilOutput => None
  | TransferOutput amt owners =>
      match kcMatch kc owners time with
      | Some (sigs, keys) => Some (TransferInput amt sigs, keys)
      | None => None
      end
  | MintOutput owners =>
      match kcMatch kc owners time with
      | Some (sigs, keys) => Some (MintInput sigs, keys)
      | None => None
      end
  end.

(** Lexicographic order and insertion sort, for the canonical orders. *)
Fixpoint lexLe (a b : list Z) : bool :=
  match a, b with
  | [], _ => true
  | _ :: _, [] => false
  | x :: a, y :: b => bool_decide (x < y) || (bool_decide (x = y) && lexLe a b)
  end.

Fixpoint insertBy {A} (le : A → A → bool) (x : A) (l : list A) : list A :=
  match l with
  | [] => [x]
  | y :: l' => if le x y then x :: l else y :: insertBy le x l'
  end.

Definition sortBy {A} (le : A → A → bool) (l : list A) : list A :=
  foldr (insertBy le) [] l.

(** Modelled from the spec: [avax.SortTransferableInputsWithSigners] is not
    in this package; inputs, each with its signers, are put in the order of
    (txid, index). *)
Definition sortInputs
    (ins : list (@TransferableInput ID)) (keys : list (list PrivateKey))
    : list (@TransferableInput ID) * list (list PrivateKey) :=
  let sorted :=
    sortBy (λ a b, lexLe (TxID (inUTXOID a.1) ++ [OutputIndex (inUTXOID a.1)])
                         (TxID (inUTXOID b.1) ++ [OutputIndex (inUTXOID b.1)]))
           (zip ins keys) in
  (sorted.*1, sorted.*2).

Definition outAmount (o : @TransferableOutput ID ShortID) : Z :=
  match outOut o with
  | TransferOutput amt _ => amt
  | _ => 0
  end.

Definition outOwners (o : @TransferableOutput ID ShortID) : list Z :=
  match outOut o with
  | TransferOutput _ owners | MintOutput owners => Z.of_nat <$> Addrs owners
  | NilOutput => []
  end.

(** Modelled from the spec: [avax.SortTransferableOutputs] is not in this
    package; outputs are put in the order of (assetID, amount, owners). *)
Definition sortOutputs (outs : list (@TransferableOutput ID ShortID))
    : list (@TransferableOutput ID ShortID) :=
  sortBy (λ a b, lexLe (outAsset a ++ outAmount a :: outOwners a)
                       (outAsset b ++ outAmount b :: outOwners b)) outs.

(** Modelled from the spec: [avm.Tx.SignSECP256K1Fx] is not in this package;
    each input is signed with its signer set. *)
Definition sign (utx : @BaseTx ID ShortID) (keys : list (list PrivateKey))
    : option (list Credential) :=
  Some keys.

(** Modelled from the spec: [avm.Tx.ID] is not in this package; the
    identity of a transaction is a deterministic function of its canonical
    encoding, here the encoding of its inputs and outputs itself. *)
Definition withLength (l : list Z) : list Z := Z.of_nat (length l) :: l.

Definition digest (tx : @Tx ID ShortID Credential) : ID :=
  Z.of_nat (length (Ins (UnsignedTx tx))) ::
  concat ((λ i, withLength (idOfUTXO (inUTXOID i))) <$> Ins (UnsignedTx tx))
  ++ Z.of_nat (length (Outs (UnsignedTx tx))) ::
  concat ((λ o, withLength (outAsset o ++ outAmount o :: outOwners o))
            <$> Outs (UnsignedTx tx)).

#[local] Instance world : @External ID ShortID PrivateKey Credential Keychain := {|
  InputID := idOfUTXO;
  NewKeychain := [];
  kcSpend := spend;
  kcAddresses := addresses;
  kcAdd := addKey;
  keyAddress := addressOf;
  SortTransferableInputsWithSigners := sortInputs;
  SortTransferableOutputs := sortOutputs;
  SignSECP256K1Fx := sign;
  txID := digest;
|}.

Definition Tester : Type := @tester ID _ _ ShortID Credential Keychain.
Definition State : Type := @state ID _ _ ShortID Credential Keychain.

(** The deposit of 1000 units, the key 7 that owns it, no fee. *)
Definition avax : ID := [42].
Definition genesis : @UTXOID ID := mkUTXOID [0] 0.
Definition testConfig (numTxs amount batchSize : Z) : TestConfig :=
  mkTestConfig numTxs genesis amount 7%nat 1 batchSize.
Definition fresh (fee maxVtxs : Z) : Tester :=
  NewTester (mkConfig 12345 [1] 0 fee avax maxVtxs).

(** The wallet after the setup of [Run]. *)
Definition funded (fee maxVtxs : Z) (cfg : TestConfig) : Tester :=
  (RunSetup cfg (fresh fee maxVtxs)).2.

Definition ownedBy7 (amt : Z) (index : Z) : @UTXO ID ShortID :=
  mkUTXO (mkUTXOID [0] index) avax (TransferOutput amt (mkOwners 0 1 [7%nat])).

(** Amounts held, in the order of the list, and the output amounts of the
    last transaction of the queue. *)
Definition heldAmounts (t : Tester) : list Z :=
  map (λ u, amountOf (Out u)) (UTXOs (utxoSet t)).

Definition lastTxOutputs (t : Tester) : option (list Z) :=
  match last (txs t) with
  | Some (Some tx) => Some (map outAmount (Outs (UnsignedTx tx)))
  | _ => None
  end.

(** One iteration of the loop that passes the wait at once and whose batch the
    engine takes, announcing one vertex. *)
Definition iteration : list label := [LLock; LPass; LBatch None false [CbIssue]].


Definition fiveIterations : list label :=
  iteration ++ iteration ++ iteration
    ++ iteration ++ iteration ++ [LFinish].


(** The transactions waiting in the queue. *)
Definition queued (t : Tester) : list (@Tx ID ShortID Credential) :=
  omap id (txs t).

(** The set before anything is put, and the wallet that holds key 7 and
    nothing else. *)
Definition noUTXOs : @UTXOSet ID _ _ ShortID := emptyUTXOSet.

Definition keyed : Tester := (importKey 7%nat (fresh 0 50)).2.

(** The wallet holding the deposit of 1000 units, added by hand. *)
Definition deposited : Tester := (addUTXO (ownedBy7 1000 0) keyed).2.

(** A payment of 10 units built on it, if the build succeeds. *)
Definition payment : result (@Tx ID ShortID Credential) :=
  (createTx avax 10 7%nat 7%nat 0 deposited).1.

Definition paid : @Tx ID ShortID Credential :=
  match payment with
  | Ok tx => tx
  | _ => mkTx (mkBaseTx 0 [] [] []) []
  end.

(** The wallet after two transactions were generated on it. *)
Definition generated : Tester := (generateTxs 2 avax deposited).2.

(** A run configuration whose log period was left at zero. *)
Definition unchecked : TestConfig := mkTestConfig 2 genesis 1000 7%nat 0 1.

(** The state an execution ends in. *)
Definition endOf (cfg : @TestConfig ID PrivateKey) (ls : list label) (t : Tester)
    : State :=
  default (initState t) (exec cfg ls (initState t)).

(** A request as the API receives it, batch size and maximum left to the
    defaults, and the service that receives it. *)
Definition request (numTxs : Z) : @RunArgs ID := mkRunArgs numTxs [0] 0 1000 0 0.

Definition node : @service ID := mkService 12345 [1] 0 0 avax.

(** The tester after the setup of the run that the request starts. *)
Definition served (numTxs : Z) : Tester :=
  (RunSetup (runConfig (request numTxs) 7%nat)
     (NewTester (testerConfig node (request numTxs)))).2.

End Scenario.

(** * Proofs *)

Section AvmtesterProofs.

Context {ID : Type} `{Countable ID}.
Context {ShortID PrivateKey Credential Keychain : Type}.
Context {external : @External ID ShortID PrivateKey Credential Keychain}.

#[local] Abbreviation UTXO := (@UTXO ID ShortID).
#[local] Abbreviation UTXOSet := (@UTXOSet ID _ _ ShortID).
#[local] Abbreviation setOp := (@setOp ID ShortID).
#[local] Abbreviation Tx := (@Tx ID ShortID Credential).
#[local] Abbreviation tester := (@tester ID _ _ ShortID Credential Keychain).
#[local] Abbreviation state := (@state ID _ _ ShortID Credential Keychain).
#[local] Abbreviation TestConfig := (@TestConfig ID PrivateKey).
#[local] Abbreviation TransferableInput := (@TransferableInput ID).
#[local] Abbreviation TransferableOutput := (@TransferableOutput ID ShortID).
#[local] Abbreviation RunArgs := (@RunArgs ID).
#[local] Abbreviation service := (@service ID).

#[local] Arguments sumAsset : simpl never.

(** ** The UTXO set stays in sync *)

Lemma lookup_swap_remove (l : list UTXO) (i p : nat) (utxoJ : UTXO) :
  l !! (length l - 1)%nat = Some utxoJ →
  (i < length l)%nat →
  take (length l - 1) (<[i := utxoJ]> l) !! p =
    if decide (p < length l - 1)%nat
    then (if decide (p = i) then Some utxoJ else l !! p)
    else None.
Proof.
  intros HJ Hi. case_decide as Hp.
  - rewrite lookup_take_lt by lia. case_decide as Hpi.
    + subst p. apply list_lookup_insert_eq. lia.
    + apply list_lookup_insert_ne. congruence.
  - apply lookup_take_ge. lia.
Qed.

Lemma inSync_empty : inSync emptyUTXOSet.
Proof.
  intros k i. cbn. rewrite lookup_empty. split; [done|].
  intros (u & Hu & _). by rewrite lookup_nil in Hu.
Qed.

Lemma inSync_lt us k i :
  inSync us → utxoMap us !! k = Some i → (i < length (UTXOs us))%nat.
Proof.
  intros Hs Hk. apply Hs in Hk as (u & Hu & _). by eapply lookup_lt_Some.
Qed.

Lemma inSync_Put us utxo : inSync us → inSync (Put us utxo).
Proof.
  intros Hs. unfold Put.
  destruct (utxoMap us !! inputKey utxo) as [i0|] eqn:Hk; [done|].
  intros k i. cbn. split.
  - destruct (decide (inputKey utxo = k)) as [<-|Hne].
    + rewrite lookup_insert_eq. intros [= <-]. exists utxo. split; [|done].
      rewrite lookup_app_r by lia. by rewrite Nat.sub_diag.
    + rewrite lookup_insert_ne by done. intros Hi.
      apply Hs in Hi as (u & Hu & Hku). exists u. split; [|done].
      by apply lookup_app_l_Some.
  - intros (u & Hu & <-).
    apply lookup_app_Some in Hu as [Hu | [Hlen Hu]].
    + assert (utxoMap us !! inputKey u = Some i) as Hi by (apply Hs; eauto).
      rewrite lookup_insert_ne; [done|]. intros Heq. congruence.
    + apply list_lookup_singleton_Some in Hu as [Hi ->].
      replace i with (length (UTXOs us)) by lia. apply lookup_insert_eq.
Qed.

(** What [Remove] does to a set whose index is in sync, for an id that is
    present at position [i]. *)
Lemma Remove_present us id i :
  inSync us → utxoMap us !! id = Some i →
  ∃ utxoI utxoJ,
    UTXOs us !! i = Some utxoI ∧ inputKey utxoI = id ∧
    UTXOs us !! (length (UTXOs us) - 1)%nat = Some utxoJ ∧
    Remove us id =
      Ok (mkUTXOSet (delete id (<[inputKey utxoJ := i]> (utxoMap us)))
                    (take (length (UTXOs us) - 1) (<[i := utxoJ]> (UTXOs us))),
          Some utxoI).
Proof.
  intros Hs Hk. pose proof (inSync_lt _ _ _ Hs Hk) as Hlt.
  apply Hs in Hk as Hk'. destruct Hk' as (utxoI & HI & HkI).
  destruct (UTXOs us !! (length (UTXOs us) - 1)%nat) as [utxoJ|] eqn:HJ.
  2:{ apply lookup_ge_None in HJ. lia. }
  exists utxoI, utxoJ. repeat split; try done.
  unfold Remove. rewrite Hk, HI, HJ. by rewrite HkI.
Qed.

Lemma inSync_Remove us id us' r :
  inSync us → Remove us id = Ok (us', r) → inSync us'.
Proof.
  intros Hs HR. destruct (utxoMap us !! id) as [i|] eqn:Hk.
  2:{ unfold Remove in HR. rewrite Hk in HR. by simplify_eq. }
  pose proof (inSync_lt _ _ _ Hs Hk) as Hlt.
  destruct (Remove_present _ _ _ Hs Hk) as (utxoI & utxoJ & HI & HkI & HJ & HR').
  rewrite HR' in HR. simplify_eq. intros k p. cbn.
  rewrite lookup_swap_remove by done.
  assert (utxoMap us !! inputKey utxoJ = Some (length (UTXOs us) - 1)%nat) as HmJ
    by (apply Hs; eauto).
  split.
  - destruct (decide (inputKey utxoI = k)) as [<-|Hne].
    { by rewrite lookup_delete_eq. }
    rewrite lookup_delete_ne by done.
    destruct (decide (inputKey utxoJ = k)) as [<-|HneJ].
    + rewrite lookup_insert_eq. intros [= <-].
      assert (i ≠ (length (UTXOs us) - 1)%nat) by (intros ->; congruence).
      rewrite decide_True by lia. rewrite decide_True by done. eauto.
    + rewrite lookup_insert_ne by done. intros Hp.
      apply Hs in Hp as Hp'. destruct Hp' as (u & Hu & Hku).
      assert (p ≠ (length (UTXOs us) - 1)%nat) by (intros ->; congruence).
      assert (p ≠ i) by (intros ->; congruence).
      apply lookup_lt_Some in Hu as Hplt.
      rewrite decide_True by lia. rewrite decide_False by done. eauto.
  - intros (u & Hu & <-). case_decide as Hp; [|done].
    case_decide as Hpi.
    + simplify_eq.
      assert (inputKey utxoI ≠ inputKey u) by (intros Heq; rewrite <- Heq in HmJ; simplify_eq; lia).
      rewrite lookup_delete_ne by done. apply lookup_insert_eq.
    + assert (utxoMap us !! inputKey u = Some p) as Hmp by (apply Hs; eauto).
      assert (inputKey utxoI ≠ inputKey u) by (intros Heq; rewrite <- Heq in Hmp; simplify_eq).
      assert (inputKey utxoJ ≠ inputKey u) by (intros Heq; rewrite <- Heq in Hmp; simplify_eq; lia).
      rewrite lookup_delete_ne by done. by rewrite lookup_insert_ne.
Qed.

Lemma holds_empty : holds (emptyUTXOSet : UTXOSet) ∅.
Proof.
  intros k u. cbn. rewrite lookup_empty. split; [done|].
  intros (i & Hi & _). by rewrite lookup_empty in Hi.
Qed.

Lemma holds_Get us m id :
  inSync us → holds us m → Get us id = Ok (m !! id).
Proof.
  intros Hs Hh. unfold Get.
  destruct (utxoMap us !! id) as [i|] eqn:Hk.
  - apply Hs in Hk as Hk'. destruct Hk' as (u & Hu & _). rewrite Hu.
    assert (m !! id = Some u) as -> by (apply Hh; eauto). done.
  - destruct (m !! id) as [u|] eqn:Hm; [|done].
    apply Hh in Hm as (i & Hi & _). congruence.
Qed.

Lemma holds_elem_of us m u :
  inSync us → holds us m → u ∈ UTXOs us ↔ m !! inputKey u = Some u.
Proof.
  intros Hs Hh. rewrite list_elem_of_lookup. split.
  - intros (i & Hi). apply Hh. exists i. split; [|done]. apply Hs. eauto.
  - intros Hm. apply Hh in Hm as (i & _ & Hi). eauto.
Qed.

Lemma holds_Put us m utxo :
  inSync us → holds us m → holds (Put us utxo) (heldStep m (OpPut utxo)).
Proof.
  intros Hs Hh. pose proof (holds_Get us m (inputKey utxo) Hs Hh) as HG.
  unfold Put, Get in *. cbn.
  destruct (utxoMap us !! inputKey utxo) as [i0|] eqn:Hk.
  { destruct (UTXOs us !! i0); [|done].
    destruct (m !! inputKey utxo); by simplify_eq. }
  destruct (m !! inputKey utxo) eqn:Hm; [by simplify_eq|].
  intros k u. cbn.
  destruct (decide (inputKey utxo = k)) as [<-|Hne].
  - rewrite !lookup_insert_eq. split.
    + intros [= <-]. eexists; split; [done|].
      rewrite lookup_app_r by lia. by rewrite Nat.sub_diag.
    + intros (i & [= <-] & Hu). rewrite lookup_app_r in Hu by lia.
      rewrite Nat.sub_diag in Hu. by simplify_eq.
  - rewrite !lookup_insert_ne by done. rewrite (Hh k u).
    split; intros (i & Hi & Hu); exists i; (split; [done|]).
    + by apply lookup_app_l_Some.
    + rewrite lookup_app_l in Hu; [done|]. by eapply inSync_lt.
Qed.

Lemma holds_Remove us m id us' r :
  inSync us → holds us m → Remove us id = Ok (us', r) →
  holds us' (delete id m) ∧ r = m !! id.
Proof.
  intros Hs Hh HR. pose proof (holds_Get us m id Hs Hh) as HG.
  pose proof (inSync_Remove _ _ _ _ Hs HR) as Hs'.
  destruct (utxoMap us !! id) as [i|] eqn:Hk.
  2:{ unfold Remove, Get in *. rewrite Hk in HR, HG.
      destruct (m !! id) eqn:Hm; simplify_eq.
      by rewrite delete_id. }
  pose proof (inSync_lt _ _ _ Hs Hk) as Hlt.
  destruct (Remove_present _ _ _ Hs Hk) as (utxoI & utxoJ & HI & HkI & HJ & HR').
  rewrite HR' in HR. unfold Get in HG. rewrite Hk, HI in HG. simplify_eq.
  split; [|done]. intros k u. split.
  - intros Hm. apply lookup_delete_Some in Hm as [Hne Hm].
    apply Hh in Hm as (p & Hp & Hu). cbn.
    rewrite lookup_delete_ne by done.
    assert (p ≠ i) by (intros ->; apply Hs in Hp as (? & ? & ?); congruence).
    pose proof (inSync_lt _ _ _ Hs Hp) as Hplt.
    destruct (decide (p = (length (UTXOs us) - 1)%nat)) as [->|Hpj].
    + assert (u = utxoJ) as -> by congruence.
      assert (inputKey utxoJ = k) as <-.
      { apply Hs in Hp as (u' & Hu' & <-). congruence. }
      exists i. rewrite lookup_insert_eq. split; [done|].
      rewrite lookup_swap_remove by done.
      rewrite decide_True by lia. by rewrite decide_True.
    + assert (inputKey utxoJ ≠ k).
      { intros <-. assert (utxoMap us !! inputKey utxoJ = Some (length (UTXOs us) - 1)%nat)
          by (apply Hs; eauto). congruence. }
      exists p. rewrite lookup_insert_ne by done. split; [done|].
      rewrite lookup_swap_remove by done.
      rewrite decide_True by lia. by rewrite decide_False.
  - intros (p & Hp & Hu). apply Hs' in Hp as Hp'.
    destruct Hp' as (u' & Hu' & Hku'). simplify_eq.
    cbn in Hp, Hu. rewrite lookup_swap_remove in Hu by done.
    case_decide as Hplt; [|done].
    apply lookup_delete_Some in Hp as [Hne Hp].
    rewrite lookup_delete_ne by done. apply Hh.
    case_decide as Hpi; simplify_eq.
    + exists (length (UTXOs us) - 1)%nat. split; [|done]. apply Hs. eauto.
    + exists p. split; [|done]. apply Hs. eauto.
Qed.

Lemma inSync_NoDup us : inSync us → NoDup (inputKey <$> UTXOs us).
Proof.
  intros Hs. apply NoDup_alt. intros i j k Hi Hj.
  rewrite list_lookup_fmap in Hi, Hj.
  destruct (UTXOs us !! i) as [ui|] eqn:Hui; [|done].
  destruct (UTXOs us !! j) as [uj|] eqn:Huj; [|done].
  cbn in Hi, Hj. simplify_eq.
  assert (utxoMap us !! inputKey ui = Some i) as Hmi by (apply Hs; eauto).
  assert (utxoMap us !! inputKey ui = Some j) as Hmj by (apply Hs; eauto).
  congruence.
Qed.

Lemma runOps_snoc (ops : list setOp) o : runOps (ops ++ [o]) = applyOp (runOps ops) o.
Proof. unfold runOps. by rewrite foldl_app. Qed.

Lemma held_snoc (ops : list setOp) o : held (ops ++ [o]) = heldStep (held ops) o.
Proof. unfold held. by rewrite foldl_app. Qed.

(** Every run of operations from the empty set ends in a set that is in
    sync and holds the UTXOs put and not yet removed. *)
Lemma runOps_inSync_holds (ops : list setOp) :
  ∃ us, runOps ops = Ok us ∧ inSync us ∧ holds us (held ops).
Proof.
  induction ops as [|o ops IH] using rev_ind.
  - exists emptyUTXOSet. split; [done|]. split; [apply inSync_empty|apply holds_empty].
  - destruct IH as (us & Hrun & Hs & Hh).
    rewrite runOps_snoc, held_snoc, Hrun. destruct o as [utxo|id]; cbn.
    + exists (Put us utxo). split; [done|].
      split; [by apply inSync_Put|by apply holds_Put].
    + destruct (utxoMap us !! id) as [i|] eqn:Hk.
      * destruct (Remove_present _ _ _ Hs Hk) as (uI & uJ & _ & _ & _ & HR).
        pose proof (inSync_Remove _ _ _ _ Hs HR).
        pose proof (holds_Remove _ _ _ _ _ Hs Hh HR) as [? _].
        rewrite HR. eauto.
      * assert (Remove us id = Ok (us, None)) as HR
          by (unfold Remove; by rewrite Hk).
        pose proof (holds_Remove _ _ _ _ _ Hs Hh HR) as [? _].
        rewrite HR. eauto.
Qed.

(** The map [held] and the reading of the sequence agree. *)
Lemma snoc_eq_app_cons {A} (l : list A) o before x after :
  l ++ [o] = before ++ x :: after →
  (after = [] ∧ l = before ∧ o = x)
  ∨ ∃ after', after = after' ++ [o] ∧ l = before ++ x :: after'.
Proof.
  destruct after as [|y after' _] using rev_ind; intros Heq.
  - left. apply app_inj_tail in Heq as [-> ->]. done.
  - right. exists after'.
    rewrite app_comm_cons, app_assoc in Heq.
    apply app_inj_tail in Heq as [-> ->]. done.
Qed.

Lemma present_nil (id : ID) : ¬ present ([] : list setOp) id.
Proof. intros (before & utxo & after & Heq & _). by destruct before. Qed.

Lemma present_snoc_put (ops : list setOp) utxo id :
  present (ops ++ [OpPut utxo]) id ↔ present ops id ∨ inputKey utxo = id.
Proof.
  split.
  - intros (before & u & after & Heq & Hk & Hno).
    apply snoc_eq_app_cons in Heq as [(-> & -> & [= ->])|(after' & -> & ->)].
    + by right.
    + left. exists before, u, after'. split; [done|]. split; [done|].
      intros Hin. apply Hno. apply elem_of_app. by left.
  - intros [(before & u & after & -> & Hk & Hno)|Hk].
    + exists before, u, (after ++ [OpPut utxo]).
      rewrite <- app_assoc. split; [done|]. split; [done|].
      intros [Hin|Hin]%elem_of_app; [done|].
      by apply list_elem_of_singleton in Hin.
    + exists ops, utxo, []. split; [done|]. split; [done|]. apply not_elem_of_nil.
Qed.

Lemma present_snoc_remove (ops : list setOp) id' id :
  present (ops ++ [OpRemove id']) id ↔ id' ≠ id ∧ present ops id.
Proof.
  split.
  - intros (before & u & after & Heq & Hk & Hno).
    apply snoc_eq_app_cons in Heq as [(_ & _ & [=])|(after' & -> & ->)].
    split.
    + intros ->. apply Hno. apply elem_of_app. right. by apply list_elem_of_singleton.
    + exists before, u, after'. split; [done|]. split; [done|].
      intros Hin. apply Hno. apply elem_of_app. by left.
  - intros [Hne (before & u & after & -> & Hk & Hno)].
    exists before, u, (after ++ [OpRemove id']).
    rewrite <- app_assoc. split; [done|]. split; [done|].
    intros [Hin|Hin]%elem_of_app; [done|].
    apply list_elem_of_singleton in Hin. congruence.
Qed.

Lemma held_present (ops : list setOp) id :
  is_Some (held ops !! id) ↔ present ops id.
Proof.
  induction ops as [|o ops IH] using rev_ind.
  - unfold held. cbn. rewrite lookup_empty. split; [by intros [? ?]|].
    intros Hp. by apply present_nil in Hp.
  - rewrite held_snoc. destruct o as [utxo|id']; cbn.
    + rewrite present_snoc_put, <- IH.
      destruct (held ops !! inputKey utxo) as [u0|] eqn:Hm.
      * split; [by left|]. intros [?| <-]; [done|by rewrite Hm].
      * destruct (decide (inputKey utxo = id)) as [<-|Hne].
        { rewrite lookup_insert_eq. split; [by right|done]. }
        rewrite lookup_insert_ne by done. split; [by left|]. by intros [?|?].
    + rewrite present_snoc_remove, <- IH.
      destruct (decide (id' = id)) as [<-|Hne].
      * rewrite lookup_delete_eq. split; [by intros [? ?]|by intros [? _]].
      * rewrite lookup_delete_ne by done. split; [done|by intros [_ ?]].
Qed.

Lemma putAndKept_snoc_put (ops : list setOp) utxo u :
  putAndKept (ops ++ [OpPut utxo]) u ↔
  putAndKept ops u ∨ (u = utxo ∧ ¬ present ops (inputKey utxo)).
Proof.
  split.
  - intros (before & after & Heq & Hno & Hnp).
    apply snoc_eq_app_cons in Heq as [(-> & -> & [= ->])|(after' & -> & ->)].
    + by right.
    + left. exists before, after'. split; [done|]. split; [|done].
      intros Hin. apply Hno. apply elem_of_app. by left.
  - intros [(before & after & -> & Hno & Hnp)|[-> Hnp]].
    + exists before, (after ++ [OpPut utxo]).
      rewrite <- app_assoc. split; [done|]. split; [|done].
      intros [Hin|Hin]%elem_of_app; [done|].
      by apply list_elem_of_singleton in Hin.
    + exists ops, []. split; [done|]. split; [apply not_elem_of_nil|done].
Qed.

Lemma putAndKept_snoc_remove (ops : list setOp) id' u :
  putAndKept (ops ++ [OpRemove id']) u ↔ id' ≠ inputKey u ∧ putAndKept ops u.
Proof.
  split.
  - intros (before & after & Heq & Hno & Hnp).
    apply snoc_eq_app_cons in Heq as [(_ & _ & [=])|(after' & -> & ->)].
    split.
    + intros ->. apply Hno. apply elem_of_app. right. by apply list_elem_of_singleton.
    + exists before, after'. split; [done|]. split; [|done].
      intros Hin. apply Hno. apply elem_of_app. by left.
  - intros [Hne (before & after & -> & Hno & Hnp)].
    exists before, (after ++ [OpRemove id']).
    rewrite <- app_assoc. split; [done|]. split; [|done].
    intros [Hin|Hin]%elem_of_app; [done|].
    apply list_elem_of_singleton in Hin. congruence.
Qed.

Lemma held_putAndKept (ops : list setOp) id u :
  held ops !! id = Some u ↔ inputKey u = id ∧ putAndKept ops u.
Proof.
  induction ops as [|o ops IH] using rev_ind.
  - unfold held. cbn. rewrite lookup_empty. split; [done|].
    intros [_ (before & after & Heq & _)]. by destruct before.
  - rewrite held_snoc. destruct o as [utxo|id']; cbn.
    + rewrite putAndKept_snoc_put, <- held_present.
      destruct (held ops !! inputKey utxo) as [u0|] eqn:Hm.
      * rewrite IH. split; [intros [? ?]; by auto|].
        intros [Hk [?|[-> Hnp]]]; [done|]. exfalso. apply Hnp. by eexists.
      * destruct (decide (inputKey utxo = id)) as [<-|Hne].
        { rewrite lookup_insert_eq. split.
          - intros [= <-]. split; [done|]. right. split; [done|]. by intros [? ?].
          - intros [Hk [Hpk|[-> _]]]; [|done].
            assert (held ops !! inputKey utxo = Some u) as Hu
              by (apply IH; by rewrite Hk).
            congruence. }
        rewrite lookup_insert_ne by done. rewrite IH.
        split; [intros [? ?]; by auto|].
        intros [Hk [?|[-> _]]]; [done|congruence].
    + rewrite putAndKept_snoc_remove.
      destruct (decide (id' = id)) as [<-|Hne].
      * rewrite lookup_delete_eq. split; [done|]. intros [Hk [Hne _]]. congruence.
      * rewrite lookup_delete_ne by done. rewrite IH.
        split; [intros [<- ?]; by auto|]. by intros [? [_ ?]].
Qed.

(** C5. For any sequence of Put and Remove operations started on the empty
    set, no operation panics and the index map and the backing list are in
    sync: an index entry exists for an id exactly when its list position
    holds the UTXO of that id (so no entry dangles and no id occurs twice);
    Get and iteration over the list return exactly the UTXOs put (while
    their id was absent) and not removed since; and a further Remove of any
    id returns what was held under it,
    moves the last element into the freed position while re-pointing that
    element's index entry, leaves the id absent from Get, and keeps every
    other UTXO in the list. *)
Theorem utxoset_index_and_list_in_sync (ops : list setOp) :
  ∃ us, runOps ops = Ok us
    ∧ inSync us
    ∧ NoDup (inputKey <$> UTXOs us)
    ∧ (∀ id, Get us id = Ok (held ops !! id))
    ∧ (∀ id u, Get us id = Ok (Some u) ↔ inputKey u = id ∧ putAndKept ops u)
    ∧ (∀ u, u ∈ UTXOs us ↔ putAndKept ops u)
    ∧ (∀ id, ∃ us', Remove us id = Ok (us', held ops !! id)
        ∧ inSync us'
        ∧ Get us' id = Ok None
        ∧ (∀ u, u ∈ UTXOs us' ↔ u ∈ UTXOs us ∧ inputKey u ≠ id)
        ∧ (∀ i, utxoMap us !! id = Some i →
             ∃ utxoJ, last (UTXOs us) = Some utxoJ
               ∧ UTXOs us' = take (length (UTXOs us) - 1) (<[i := utxoJ]> (UTXOs us))
               ∧ ((i < length (UTXOs us) - 1)%nat →
                    UTXOs us' !! i = Some utxoJ
                    ∧ utxoMap us' !! inputKey utxoJ = Some i))).
Proof.
  destruct (runOps_inSync_holds ops) as (us & Hrun & Hs & Hh).
  exists us. split; [done|]. split; [done|].
  split; [by apply inSync_NoDup|].
  split; [intros id; by apply holds_Get|].
  split.
  { intros id u. rewrite (holds_Get _ _ _ Hs Hh), <- held_putAndKept.
    split; [by intros [= ->]|by intros ->]. }
  split.
  { intros u. rewrite (holds_elem_of _ _ _ Hs Hh), held_putAndKept.
    split; [by intros [_ ?]|by intros ?]. }
  intros id.
  assert (∃ us' r, Remove us id = Ok (us', r)) as (us' & r & HR).
  { destruct (utxoMap us !! id) as [i|] eqn:Hk.
    - destruct (Remove_present _ _ _ Hs Hk) as (? & ? & _ & _ & _ & ->). eauto.
    - unfold Remove. rewrite Hk. eauto. }
  pose proof (inSync_Remove _ _ _ _ Hs HR) as Hs'.
  destruct (holds_Remove _ _ _ _ _ Hs Hh HR) as [Hh' ->].
  exists us'. split; [done|]. split; [done|].
  split. { rewrite (holds_Get _ _ _ Hs' Hh'). by rewrite lookup_delete_eq. }
  split.
  { intros u. rewrite (holds_elem_of _ _ _ Hs' Hh'), (holds_elem_of _ _ _ Hs Hh).
    rewrite lookup_delete_Some. split; intros [? ?]; split; done. }
  intros i Hk.
  destruct (Remove_present _ _ _ Hs Hk) as (utxoI & utxoJ & HI & HkI & HJ & HR').
  rewrite HR' in HR. simplify_eq. exists utxoJ.
  pose proof (inSync_lt _ _ _ Hs Hk) as Hlt.
  split. { rewrite last_lookup. rewrite <- HJ. f_equal. lia. }
  split; [done|]. intros Hij. cbn. split.
  - rewrite lookup_swap_remove by done.
    rewrite decide_True by done. by rewrite decide_True.
  - assert (inputKey utxoI ≠ inputKey utxoJ).
    { intros Heq.
      assert (utxoMap us !! inputKey utxoJ = Some (length (UTXOs us) - 1)%nat) as HmJ
        by (apply Hs; eauto).
      rewrite <- Heq, Hk in HmJ. injection HmJ as ->. lia. }
    rewrite lookup_delete_ne by done. apply lookup_insert_eq.
Qed.

(** ** The wallet's balance table *)

Ltac run_M :=
  unfold utxoSetGet, utxoSetRemove, gets, modify, throw, panic, lift,
    mbind, M_bind, mret, M_ret in *; cbn in *.

Lemma wrap64_add_l a b : wrap64 (wrap64 a + b) = wrap64 (a + b).
Proof. unfold wrap64. apply Zplus_mod_idemp_l. Qed.

Lemma wrap64_sub_l a b : wrap64 (wrap64 a - b) = wrap64 (a - b).
Proof. unfold wrap64. apply Zminus_mod_idemp_l. Qed.

Lemma wrap64_small z : is_u64 z → wrap64 z = z.
Proof. unfold is_u64, MaxUint64, wrap64. intros ?. apply Z.mod_small. lia. Qed.

Lemma sumAsset_cons (asset : ID) (u : UTXO) l :
  sumAsset asset (u :: l) = assetAmount asset u + sumAsset asset l.
Proof. done. Qed.

Lemma sumAsset_app (asset : ID) (l1 l2 : list UTXO) :
  sumAsset asset (l1 ++ l2) = sumAsset asset l1 + sumAsset asset l2.
Proof.
  induction l1 as [|u l1 IH]; [done|].
  rewrite <- app_comm_cons, !sumAsset_cons, IH. lia.
Qed.

Lemma sumAsset_insert (asset : ID) (l : list UTXO) i x y :
  l !! i = Some x →
  sumAsset asset (<[i := y]> l) =
    sumAsset asset l - assetAmount asset x + assetAmount asset y.
Proof.
  revert i. induction l as [|u l IH]; intros [|i] Hi; try done.
  - injection Hi as ->.
    change (<[0%nat := y]> (x :: l)) with (y :: l).
    rewrite !sumAsset_cons. lia.
  - change (<[S i := y]> (u :: l)) with (u :: <[i := y]> l).
    rewrite !sumAsset_cons, (IH i Hi). lia.
Qed.

Lemma sumAsset_drop_last (asset : ID) (l : list UTXO) y :
  l !! (length l - 1)%nat = Some y →
  sumAsset asset (take (length l - 1) l) = sumAsset asset l - assetAmount asset y.
Proof.
  intros Hy. apply lookup_lt_Some in Hy as Hlt.
  assert (take (length l - 1) l ++ [y] = l) as Hl.
  { rewrite <- (take_drop (length l - 1) l) at 3. f_equal.
    rewrite (drop_S l y (length l - 1)) by done.
    by rewrite drop_ge by lia. }
  transitivity (sumAsset asset (take (length l - 1) l ++ [y]) - assetAmount asset y).
  - rewrite sumAsset_app, sumAsset_cons.
    change (sumAsset asset []) with 0. lia.
  - by rewrite Hl.
Qed.

(** Swap-removal takes exactly the removed UTXO's amount out of the sum. *)
Lemma sumAsset_swap_remove (asset : ID) (l : list UTXO) i utxoI utxoJ :
  l !! i = Some utxoI →
  l !! (length l - 1)%nat = Some utxoJ →
  sumAsset asset (take (length l - 1) (<[i := utxoJ]> l)) =
    sumAsset asset l - assetAmount asset utxoI.
Proof.
  intros HI HJ. apply lookup_lt_Some in HI as Hlt.
  rewrite <- (length_insert l i utxoJ) at 1.
  rewrite (sumAsset_drop_last asset _ utxoJ).
  - rewrite (sumAsset_insert asset l i utxoI utxoJ HI). lia.
  - rewrite length_insert.
    destruct (decide (i = (length l - 1)%nat)) as [->|Hne].
    + by apply list_lookup_insert_eq.
    + by rewrite list_lookup_insert_ne.
Qed.

Lemma balanced_new c : balanced (NewTester c).
Proof.
  split; cbn.
  - apply inSync_empty.
  - intros u Hu. by apply elem_of_nil in Hu.
  - intros asset. unfold balanceOf. by rewrite lookup_empty.
Qed.

Lemma balanceOf_insert (b : gmap ID Z) k v asset :
  balanceOf (<[k := v]> b) asset = if decide (k = asset) then v else balanceOf b asset.
Proof.
  unfold balanceOf. case_decide as Hk.
  - subst. by rewrite lookup_insert_eq.
  - by rewrite lookup_insert_ne.
Qed.

Lemma balanceOf_delete (b : gmap ID Z) k asset :
  balanceOf (delete k b) asset = if decide (k = asset) then 0 else balanceOf b asset.
Proof.
  unfold balanceOf. case_decide as Hk.
  - subst. by rewrite lookup_delete_eq.
  - by rewrite lookup_delete_ne.
Qed.

Lemma balanced_addUTXO t utxo :
  balanced t → utxoMap (utxoSet t) !! inputKey utxo = None →
  (addUTXO utxo t).1 = Ok tt ∧ balanced (addUTXO utxo t).2.
Proof.
  intros [Hs Htr Hsum] Hfresh. unfold addUTXO.
  destruct (Out utxo) as [|amt owners|owners] eqn:Hout; [done| |done].
  run_M. destruct (kcSpend (keychain t) (TransferOutput amt owners) MaxUint64); [|done].
  cbn. split; [done|]. split; cbn.
  - by apply inSync_Put.
  - unfold Put. rewrite Hfresh. cbn. intros u Hu.
    apply elem_of_app in Hu as [Hu|Hu]; [by apply Htr|].
    apply list_elem_of_singleton in Hu as ->. by rewrite Hout.
  - intros asset. unfold Put. rewrite Hfresh. cbn.
    rewrite balanceOf_insert, sumAsset_app, sumAsset_cons.
    change (sumAsset asset []) with 0.
    unfold assetAmount. rewrite Hout. cbn. case_decide as Ha.
    + subst asset. unfold add64. rewrite Hsum, wrap64_add_l. f_equal. lia.
    + rewrite Hsum. f_equal. lia.
Qed.

Lemma balanced_removeUTXO t id :
  balanced t → (removeUTXO id t).1 = Ok tt ∧ balanced (removeUTXO id t).2.
Proof.
  intros [Hs Htr Hsum]. unfold removeUTXO. run_M. unfold Get.
  destruct (utxoMap (utxoSet t) !! id) as [i|] eqn:Hk; [|done].
  destruct (Remove_present _ _ _ Hs Hk) as (utxoI & utxoJ & HI & HkI & HJ & HR).
  rewrite HI.
  assert (utxoI ∈ UTXOs (utxoSet t)) as HIin by (apply list_elem_of_lookup; eauto).
  pose proof (Htr _ HIin) as HtrI.
  destruct (Out utxoI) as [|amt owners|owners] eqn:Hout; [done| |done].
  set (newBalance := sub64 (balanceOf (balance t) (Asset utxoI)) amt).
  assert (∀ t', utxoSet t' = utxoSet t →
            (∀ asset, balanceOf (balance t') asset =
               if decide (Asset utxoI = asset) then newBalance
               else balanceOf (balance t) asset) →
            (utxoSetRemove id t').1 = Ok tt ∧ balanced (utxoSetRemove id t').2) as Hfin.
  { intros t' Hus Hbal. unfold utxoSetRemove. rewrite Hus, HR. cbn.
    split; [done|]. split; cbn.
    - eapply inSync_Remove; [exact Hs|exact HR].
    - intros u Hu. apply list_elem_of_lookup in Hu as [p Hp].
      rewrite lookup_swap_remove in Hp by (done || by eapply lookup_lt_Some).
      repeat case_decide; simplify_eq.
      + apply Htr. apply list_elem_of_lookup. eauto.
      + apply Htr. apply list_elem_of_lookup. eauto.
    - intros asset. rewrite Hbal.
      rewrite (sumAsset_swap_remove asset _ i utxoI utxoJ HI HJ).
      unfold assetAmount at 1. rewrite Hout. cbn. case_decide as Ha.
      + subst asset. unfold newBalance, sub64. by rewrite Hsum, wrap64_sub_l.
      + rewrite Hsum. f_equal. lia. }
  fold newBalance. case_decide as Hz; cbn.
  - apply (Hfin (set_balance (delete (Asset utxoI) (balance t)) t)); [done|].
    intros asset. cbn. rewrite balanceOf_delete. by case_decide.
  - apply (Hfin (set_balance (<[Asset utxoI := newBalance]> (balance t)) t)); [done|].
    intros asset. cbn. by rewrite balanceOf_insert.
Qed.

Lemma bookkept_balanced t : bookkept t → balanced t.
Proof.
  induction 1 as [c|t sk _ IH|t utxo _ IH Hfresh|t id _ IH].
  - apply balanced_new.
  - destruct IH. by split.
  - by apply balanced_addUTXO.
  - by apply balanced_removeUTXO.
Qed.

(** C6 (amended). After every addUTXO of a UTXO whose id the set does not
    hold yet and after every removeUTXO, neither of which panics, the
    balance-table entry of every asset (zero when absent) equals the sum of
    the amounts of the in-set UTXOs of that asset reduced modulo 2^64, hence
    the exact sum whenever that sum fits in 64 bits: the table and the set
    are updated together. *)
Theorem balance_table_matches_utxo_set (t : tester) :
  bookkept t →
  (∀ asset, balanceOf (balance t) asset =
            wrap64 (sumAsset asset (UTXOs (utxoSet t))))
  ∧ (∀ asset, is_u64 (sumAsset asset (UTXOs (utxoSet t))) →
              balanceOf (balance t) asset = sumAsset asset (UTXOs (utxoSet t)))
  ∧ inSync (utxoSet t)
  ∧ (∀ utxo, (addUTXO utxo t).1 = Ok tt)
  ∧ (∀ id, (removeUTXO id t).1 = Ok tt).
Proof.
  intros Hb. pose proof (bookkept_balanced t Hb) as HB.
  destruct HB as [Hs Htr Hsum].
  split; [done|].
  split. { intros asset Hfit. rewrite Hsum. by apply wrap64_small. }
  split; [done|].
  split.
  - intros utxo. unfold addUTXO. destruct (Out utxo); try done.
    run_M. by destruct (kcSpend _ _ _).
  - intros id. by apply balanced_removeUTXO.
Qed.

(** ** addUTXO of what the wallet cannot hold, and createTx, change nothing *)

(** C10. For every UTXO whose output is not a transferable output, or which
    the keychain cannot spend even at the largest reference time, addUTXO
    returns without changing the tester: the UTXO set and the balance table
    are the same, and the balance of the UTXO's asset keeps its prior
    value. *)
Theorem addUTXO_invalid_is_noop (utxo : UTXO) (t : tester) :
  isTransferableOut (Out utxo) = false
    ∨ kcSpend (keychain t) (Out utxo) MaxUint64 = None →
  addUTXO utxo t = (Ok tt, t)
  ∧ utxoSet (addUTXO utxo t).2 = utxoSet t
  ∧ balance (addUTXO utxo t).2 = balance t
  ∧ balanceOf (balance (addUTXO utxo t).2) (Asset utxo)
      = balanceOf (balance t) (Asset utxo).
Proof.
  intros Hinv.
  assert (addUTXO utxo t = (Ok tt, t)) as ->; [|done].
  unfold addUTXO. destruct (Out utxo) as [|amt owners|owners] eqn:Hout; try done.
  destruct Hinv as [Hnt|Hsp]; [done|]. run_M. by rewrite Hsp.
Qed.

(** C9. Every call of createTx, successful or not, returns the tester it
    was given: UTXO set, balance table and all other fields are unchanged,
    so a failed build leaves the wallet as it was; consuming the inputs and
    adding the outputs is left to the caller ([generateLoop]). *)
Theorem createTx_leaves_wallet_unchanged
    (assetID : ID) (amount : Z) (destAddr changeAddr : ShortID) (time : Z)
    (t : tester) :
  (createTx assetID amount destAddr changeAddr time t).2 = t
  ∧ utxoSet (createTx assetID amount destAddr changeAddr time t).2 = utxoSet t
  ∧ balance (createTx assetID amount destAddr changeAddr time t).2 = balance t.
Proof.
  assert ((createTx assetID amount destAddr changeAddr time t).2 = t) as ->; [|done].
  unfold createTx. case_decide; [done|]. run_M.
  destruct (selectInputs _ _ _ _ _ _ _ _ _) as [[[spent ins] keys]|e|]; cbn; try done.
  case_decide; [done|].
  destruct (SortTransferableInputsWithSigners ins keys) as [ins' keys'].
  by destruct (SignSECP256K1Fx _ _).
Qed.

(** What a successful build does guarantee: the amounts of the selected
    inputs are added without wrapping, an overflow of that sum is the only
    error of the selection, and the sum reaches the target as the source
    computes it, [amount+t.TxFee] in [uint64]. *)
Lemma selectInputs_exact kc (assetID : ID) amount fee time utxos :
  ∀ spent0 ins0 keys0 spent ins keys,
    selectInputs kc assetID amount fee time utxos spent0 ins0 keys0
      = Ok (spent, ins, keys) →
    ∃ new, ins = ins0 ++ new
           ∧ spent = spent0 + sumIns new
           ∧ (new ≠ [] → spent ≤ MaxUint64).
Proof.
  induction utxos as [|utxo rest IH]; intros spent0 ins0 keys0 spent ins keys Hsel;
    cbn in Hsel.
  - simplify_eq. exists []. rewrite app_nil_r. unfold sumIns. cbn.
    split; [done|]. split; [lia|done].
  - case_decide as Ha; [|by eapply IH].
    destruct (kcSpend kc (Out utxo) time) as [[[inAmt sigs|sigs] signers]|];
      try (by eapply IH).
    unfold Add64 in Hsel. case_decide as Hfit; [|done].
    case_decide as Hreach.
    + simplify_eq. eexists [_]. split; [done|]. unfold sumIns. cbn.
      split; [lia|done].
    + destruct (IH _ _ _ _ _ _ Hsel) as (new & -> & -> & Hle).
      eexists (_ :: new). rewrite <- app_assoc. split; [done|].
      unfold sumIns in *. cbn.
      split; [lia|]. intros _. destruct new as [|i new]; [cbn; lia|by apply Hle].
Qed.

Lemma selectInputs_error kc (assetID : ID) amount fee time utxos :
  ∀ spent0 ins0 keys0 e,
    selectInputs kc assetID amount fee time utxos spent0 ins0 keys0 = Err e →
    e = errOverflow.
Proof.
  induction utxos as [|utxo rest IH]; intros spent0 ins0 keys0 e Hsel; cbn in Hsel.
  - done.
  - case_decide as Ha; [|by eapply IH].
    destruct (kcSpend kc (Out utxo) time) as [[[inAmt sigs|sigs] signers]|];
      try (by eapply IH).
    unfold Add64 in Hsel. case_decide as Hfit; [|by simplify_eq].
    case_decide as Hreach; [done|by eapply IH].
Qed.

Lemma sumIns_Permutation (l1 l2 : list TransferableInput) :
  l1 ≡ₚ l2 → sumIns l1 = sumIns l2.
Proof. unfold sumIns. induction 1; cbn in *; lia. Qed.

Lemma createTx_covers_the_wrapped_target
    (assetID : ID) amount destAddr changeAddr time (t t' : tester) tx :
  (∀ ins keys, (SortTransferableInputsWithSigners ins keys).1 ≡ₚ ins) →
  createTx assetID amount destAddr changeAddr time t = (Ok tx, t') →
  add64 amount (TxFee (config t)) ≤ sumInputs tx ∧ amount ≠ 0.
Proof.
  intros Hsort. unfold createTx. case_decide as Hz; [done|]. run_M.
  destruct (selectInputs _ _ _ _ _ _ _ _ _) as [[[spent ins] keys]|e|] eqn:Hsel;
    cbn; try done.
  apply selectInputs_exact in Hsel as (new & Hins & Hspent & _). cbn in Hins.
  case_decide as Hshort; [done|].
  pose proof (Hsort ins keys) as Hperm.
  destruct (SortTransferableInputsWithSigners ins keys) as [ins' keys'].
  destruct (SignSECP256K1Fx _ _); [|done]. intros [= <- <-].
  split; [|done]. unfold sumInputs. cbn in *.
  fold (sumIns ins'). rewrite (sumIns_Permutation _ _ Hperm). subst. lia.
Qed.

(** ** Generation keeps the balance table *)

Lemma wrap64_range z : is_u64 (wrap64 z).
Proof.
  unfold is_u64, wrap64, MaxUint64.
  pose proof (Z.mod_pos_bound z (2 ^ 64)). lia.
Qed.

(** A set in sync holds the map from ids to its elements. *)
Lemma inSync_holds (us : UTXOSet) :
  inSync us → ∃ m : gmap ID UTXO, holds us m.
Proof.
  intros Hs.
  exists (list_to_map ((λ u, (inputKey u, u)) <$> UTXOs us)).
  intros k u. rewrite <- elem_of_list_to_map.
  2:{ rewrite <- list_fmap_compose. by apply inSync_NoDup. }
  rewrite list_elem_of_fmap. split.
  - intros (u' & [= -> ->] & Hin). apply list_elem_of_lookup in Hin as [i Hi].
    exists i. split; [|done]. apply Hs. eauto.
  - intros (i & Hk & Hi). exists u. split.
    + apply Hs in Hk as (u' & Hu' & <-). congruence.
    + apply list_elem_of_lookup. eauto.
Qed.

Lemma removeUTXO_absent (t : tester) m id :
  walletOk t → holds (utxoSet t) m → m !! id = None →
  removeUTXO id t = (Ok tt, t).
Proof.
  intros [Hs _ _] Hh Hm. unfold removeUTXO. run_M.
  by rewrite (holds_Get _ _ _ Hs Hh), Hm.
Qed.

Lemma removeUTXO_present (t : tester) m id u :
  walletOk t → holds (utxoSet t) m → m !! id = Some u →
  ∃ t', removeUTXO id t = (Ok tt, t')
    ∧ walletOk t'
    ∧ holds (utxoSet t') (delete id m)
    ∧ sameRest t t'
    ∧ ∀ asset, balanceOf (balance t') asset =
               wrap64 (balanceOf (balance t) asset - assetAmount asset u).
Proof.
  intros [Hs Htr Hrg] Hh Hm. unfold removeUTXO. run_M.
  rewrite (holds_Get _ _ _ Hs Hh), Hm.
  assert (u ∈ UTXOs (utxoSet t)) as Hin.
  { apply (holds_elem_of _ m); [done..|].
    apply Hh in Hm as Hm'. destruct Hm' as (i & Hk & Hi).
    apply Hs in Hk as (u' & Hu' & <-). congruence. }
  pose proof (Htr _ Hin) as Htu.
  destruct (Out u) as [|amt owners|owners] eqn:Hout; [done| |done].
  set (newBalance := sub64 (balanceOf (balance t) (Asset u)) amt).
  assert (∀ t1 : tester,
            utxoSet t1 = utxoSet t → sameRest t t1 →
            (∀ asset, balanceOf (balance t1) asset =
               if decide (Asset u = asset) then newBalance
               else balanceOf (balance t) asset) →
            ∃ t', utxoSetRemove id t1 = (Ok tt, t')
              ∧ walletOk t'
              ∧ holds (utxoSet t') (delete id m)
              ∧ sameRest t t'
              ∧ ∀ asset, balanceOf (balance t') asset =
                  wrap64 (balanceOf (balance t) asset - assetAmount asset u)) as Hfin.
  { intros t1 Hus Hrest Hbal. unfold utxoSetRemove. rewrite Hus.
    destruct (Remove (utxoSet t) id) as [[us' r]| |] eqn:HR.
    2,3: exfalso; destruct (utxoMap (utxoSet t) !! id) as [i|] eqn:Hk;
         [ destruct (Remove_present _ _ _ Hs Hk) as (? & ? & _ & _ & _ & HR');
           congruence
         | unfold Remove in HR; by rewrite Hk in HR ].
    pose proof (inSync_Remove _ _ _ _ Hs HR) as Hs'.
    destruct (holds_Remove _ _ _ _ _ Hs Hh HR) as [Hh' _].
    eexists. split; [done|]. cbn.
    assert (∀ asset, balanceOf (balance t1) asset =
              wrap64 (balanceOf (balance t) asset - assetAmount asset u)) as Hb.
    { intros asset. rewrite Hbal. unfold assetAmount. rewrite Hout. cbn.
      case_decide as Ha; [by subst asset|].
      rewrite Z.sub_0_r. symmetry. by apply wrap64_small. }
    split.
    { split; cbn; [done| |].
      - intros u' Hu'. apply (holds_elem_of _ _ _ Hs' Hh') in Hu'.
        apply lookup_delete_Some in Hu' as [_ Hu'].
        apply Htr. by apply (holds_elem_of _ m).
      - intros asset. rewrite Hb. apply wrap64_range. }
    split; [done|]. split; [|done].
    destruct Hrest as (? & ? & ? & ?). by repeat split. }
  fold newBalance. case_decide as Hz; cbn.
  - apply (Hfin (set_balance (delete (Asset u) (balance t)) t)); [done|by repeat split|].
    intros asset. cbn. rewrite balanceOf_delete. by case_decide.
  - apply (Hfin (set_balance (<[Asset u := newBalance]> (balance t)) t));
      [done|by repeat split|].
    intros asset. cbn. by rewrite balanceOf_insert.
Qed.

Lemma sameRest_refl (t : tester) : sameRest t t.
Proof. by repeat split. Qed.

Lemma sameRest_trans (t1 t2 t3 : tester) :
  sameRest t1 t2 → sameRest t2 t3 → sameRest t1 t3.
Proof.
  intros (? & ? & ? & ?) (? & ? & ? & ?). repeat split; congruence.
Qed.

Lemma removeUTXO_all (sel : list UTXO) :
  ∀ (t : tester) m,
    walletOk t → holds (utxoSet t) m →
    NoDup (inputKey <$> sel) →
    (∀ u, u ∈ sel → m !! inputKey u = Some u) →
    ∃ t', forEach (λ utxoID, removeUTXO (InputID utxoID)) (utxoID <$> sel) t
            = (Ok tt, t')
      ∧ walletOk t'
      ∧ sameRest t t'
      ∧ ∀ asset, balanceOf (balance t') asset =
                 wrap64 (balanceOf (balance t) asset - sumAsset asset sel).
Proof.
  induction sel as [|u sel IH]; intros t m Hok Hh Hnd Hall.
  - exists t. split; [done|]. split; [done|]. split; [apply sameRest_refl|].
    intros asset. change (sumAsset asset []) with 0. rewrite Z.sub_0_r.
    symmetry. apply wrap64_small, Hok.
  - rewrite fmap_cons in Hnd. apply NoDup_cons in Hnd as [Hnotin Hnd].
    destruct (removeUTXO_present t m (inputKey u) u Hok Hh)
      as (t1 & Hrm & Hok1 & Hh1 & Hrest1 & Hbal1).
    { apply Hall. by left. }
    destruct (IH t1 (delete (inputKey u) m) Hok1 Hh1 Hnd)
      as (t2 & Hall2 & Hok2 & Hrest2 & Hbal2).
    { intros u' Hu'. rewrite lookup_delete_ne.
      - apply Hall. by right.
      - intros Heq. apply Hnotin. rewrite Heq. by apply list_elem_of_fmap_2. }
    exists t2. split.
    { cbn. run_M. unfold inputKey in Hrm. by rewrite Hrm. }
    split; [done|]. split; [by eapply sameRest_trans|].
    intros asset. rewrite Hbal2, Hbal1, wrap64_sub_l, sumAsset_cons. f_equal. lia.
Qed.

Lemma elem_of_Put (us : UTXOSet) utxo u :
  u ∈ UTXOs (Put us utxo) → u ∈ UTXOs us ∨ u = utxo.
Proof.
  unfold Put. destruct (utxoMap us !! inputKey utxo); [by left|]. cbn.
  intros [?|Hu]%elem_of_app; [by left|].
  right. by apply list_elem_of_singleton in Hu.
Qed.

Lemma addUTXO_spendable (t : tester) (u : UTXO) :
  walletOk t →
  isTransferableOut (Out u) = true →
  is_Some (kcSpend (keychain t) (Out u) MaxUint64) →
  ∃ t', addUTXO u t = (Ok tt, t')
    ∧ walletOk t'
    ∧ sameRest t t'
    ∧ ∀ asset, balanceOf (balance t') asset =
               wrap64 (balanceOf (balance t) asset + assetAmount asset u).
Proof.
  intros [Hs Htr Hrg] Htu [sp Hsp]. unfold addUTXO.
  destruct (Out u) as [|amt owners|owners] eqn:Hout; [done| |done].
  run_M. rewrite Hsp. cbn. eexists. split; [done|].
  assert (∀ asset,
            balanceOf (<[Asset u := add64 (balanceOf (balance t) (Asset u)) amt]>
                         (balance t)) asset
            = wrap64 (balanceOf (balance t) asset + assetAmount asset u)) as Hb.
  { intros asset. rewrite balanceOf_insert. unfold assetAmount. rewrite Hout. cbn.
    case_decide as Ha; [by subst asset|].
    rewrite Z.add_0_r. symmetry. by apply wrap64_small. }
  split.
  { split; cbn.
    - by apply inSync_Put.
    - intros u' [Hu'| ->]%elem_of_Put; [by apply Htr|by rewrite Hout].
    - intros asset. rewrite Hb. apply wrap64_range. }
  split; [by repeat split|done].
Qed.

Lemma addUTXO_all (l : list UTXO) :
  ∀ t : tester,
    walletOk t →
    (∀ u, u ∈ l → isTransferableOut (Out u) = true
                  ∧ is_Some (kcSpend (keychain t) (Out u) MaxUint64)) →
    ∃ t', forEach addUTXO l t = (Ok tt, t')
      ∧ walletOk t'
      ∧ sameRest t t'
      ∧ ∀ asset, balanceOf (balance t') asset =
                 wrap64 (balanceOf (balance t) asset + sumAsset asset l).
Proof.
  induction l as [|u l IH]; intros t Hok Hall.
  - exists t. split; [done|]. split; [done|]. split; [apply sameRest_refl|].
    intros asset. change (sumAsset asset []) with 0. rewrite Z.add_0_r.
    symmetry. apply wrap64_small, Hok.
  - destruct (Hall u) as [Htu Hsp]; [by left|].
    destruct (addUTXO_spendable t u Hok Htu Hsp) as (t1 & Hadd & Hok1 & Hrest1 & Hbal1).
    destruct (IH t1 Hok1) as (t2 & Hall2 & Hok2 & Hrest2 & Hbal2).
    { intros u' Hu'. destruct Hrest1 as (_ & -> & _). apply Hall. by right. }
    exists t2. split.
    { cbn. run_M. by rewrite Hadd. }
    split; [done|]. split; [by eapply sameRest_trans|].
    intros asset. rewrite Hbal2, Hbal1, wrap64_add_l, sumAsset_cons. f_equal. lia.
Qed.

Lemma sumAsset_Permutation (asset : ID) (l1 l2 : list UTXO) :
  l1 ≡ₚ l2 → sumAsset asset l1 = sumAsset asset l2.
Proof. induction 1; rewrite ?sumAsset_cons; lia. Qed.

Lemma sumOuts_Permutation (asset : ID) (l1 l2 : list TransferableOutput) :
  l1 ≡ₚ l2 → sumOuts asset l1 = sumOuts asset l2.
Proof. unfold sumOuts. induction 1; cbn in *; lia. Qed.

Lemma Permutation_fmap_inv {A B} (f : A → B) (l1 : list B) (l2 : list A) :
  l1 ≡ₚ f <$> l2 → ∃ l3, l1 = f <$> l3 ∧ l2 ≡ₚ l3.
Proof.
  change (f <$> l2) with (map f l2). intros Hp.
  destruct (Permutation_map_inv f l2 Hp) as (l3 & -> & Hp3). by exists l3.
Qed.

(** The UTXOs a transaction creates carry the assets and amounts of its
    outputs. *)
Lemma sumAsset_imap (asset : ID) (outs : list TransferableOutput)
    (g : nat → TransferableOutput → UTXO) :
  (∀ i o, Asset (g i o) = outAsset o ∧ Out (g i o) = outOut o) →
  sumAsset asset (imap g outs) = sumOuts asset outs.
Proof.
  revert g. induction outs as [|o outs IH]; intros g Hg; [done|].
  cbn. rewrite sumAsset_cons, (IH (g ∘ S)) by (intros i o'; apply Hg).
  unfold assetAmount. destruct (Hg 0%nat o) as [-> ->]. done.
Qed.

Lemma elem_of_imap_out (outs : list TransferableOutput)
    (g : nat → TransferableOutput → UTXO) u :
  (∀ i o, Out (g i o) = outOut o) →
  u ∈ imap g outs → ∃ o, o ∈ outs ∧ Out u = outOut o.
Proof.
  revert g. induction outs as [|o outs IH]; intros g Hg Hu; cbn in Hu.
  - by apply elem_of_nil in Hu.
  - apply elem_of_cons in Hu as [->|Hu].
    + exists o. split; [by left|apply Hg].
    + destruct (IH (g ∘ S)) as (o' & Ho' & Hout); [intros i o'; apply Hg|done|].
      exists o'. split; [by right|done].
Qed.

Lemma sumAsset_other (asset a : ID) (l : list UTXO) :
  (∀ u, u ∈ l → Asset u = a) → asset ≠ a → sumAsset asset l = 0.
Proof.
  intros Hall Hne. induction l as [|u l IH]; [done|].
  rewrite sumAsset_cons, IH by (intros u' Hu'; apply Hall; by right).
  unfold assetAmount. rewrite decide_False; [done|].
  rewrite (Hall u) by (by left). congruence.
Qed.

Lemma selectInputs_no_panic kc (assetID : ID) amount fee time utxos :
  ∀ spent0 ins0 keys0,
    selectInputs kc assetID amount fee time utxos spent0 ins0 keys0 ≠ Panic.
Proof.
  induction utxos as [|utxo rest IH]; intros spent0 ins0 keys0; cbn; [done|].
  case_decide; [|apply IH].
  destruct (kcSpend kc (Out utxo) time) as [[[inAmt sigs|sigs] signers]|];
    try apply IH.
  unfold Add64. case_decide; [|done]. case_decide; [done|apply IH].
Qed.

(** The selection keeps one signer set per input. *)
Lemma selectInputs_lengths kc (assetID : ID) amount fee time utxos :
  ∀ spent0 ins0 keys0 spent ins keys,
    selectInputs kc assetID amount fee time utxos spent0 ins0 keys0
      = Ok (spent, ins, keys) →
    length ins0 = length keys0 → length ins = length keys.
Proof.
  induction utxos as [|utxo rest IH]; intros spent0 ins0 keys0 spent ins keys Hsel Hlen;
    cbn in Hsel.
  - by simplify_eq.
  - case_decide; [|by eapply IH].
    destruct (kcSpend kc (Out utxo) time) as [[[inAmt sigs|sigs] signers]|];
      try (by eapply IH).
    unfold Add64 in Hsel. case_decide; [|done].
    assert (length (ins0 ++ [mkIn (utxoID utxo) assetID (TransferInput inAmt sigs)])
            = length (keys0 ++ [signers])) as Hlen'
      by (rewrite !length_app; cbn; lia).
    case_decide; [by simplify_eq|by eapply IH].
Qed.

Section SelfPayments.

(** What the chain of self-payments needs from the other packages: the
    sorts permute (the inputs when each has its signer set), and spending
    a transfer output yields a transfer input of the same amount. *)
Hypothesis sortIns_perm :
  ∀ ins keys, length ins = length keys →
    (SortTransferableInputsWithSigners ins keys).1 ≡ₚ ins.
Hypothesis sortOuts_perm :
  ∀ outs, SortTransferableOutputs outs ≡ₚ outs.
Hypothesis spend_amount :
  ∀ kc amt owners time inAmt sigs signers,
    kcSpend kc (TransferOutput amt owners) time
      = Some (TransferInput inAmt sigs, signers) →
    inAmt = amt.

Lemma selectInputs_selected kc (assetID : ID) amount fee time utxos :
  (∀ u, u ∈ utxos → isTransferableOut (Out u) = true) →
  ∀ spent0 ins0 keys0 spent ins keys,
    selectInputs kc assetID amount fee time utxos spent0 ins0 keys0
      = Ok (spent, ins, keys) →
    ∃ sel, sel `sublist_of` utxos
      ∧ (∀ u, u ∈ sel → Asset u = assetID)
      ∧ inUTXOID <$> ins = (inUTXOID <$> ins0) ++ (utxoID <$> sel)
      ∧ spent = spent0 + sumAsset assetID sel
      ∧ (sel ≠ [] → spent ≤ MaxUint64).
Proof.
  induction utxos as [|utxo rest IH]; intros Htr spent0 ins0 keys0 spent ins keys Hsel;
    cbn in Hsel.
  - simplify_eq. exists []. split; [done|]. split; [by intros u Hu%elem_of_nil|].
    rewrite app_nil_r. split; [done|]. change (sumAsset assetID []) with 0.
    split; [lia|done].
  - assert (∀ u, u ∈ rest → isTransferableOut (Out u) = true) as Htr'
      by (intros u Hu; apply Htr; by right).
    assert (∀ spent0 ins0 keys0,
              selectInputs kc assetID amount fee time rest spent0 ins0 keys0
                = Ok (spent, ins, keys) →
              ∃ sel, sel `sublist_of` utxo :: rest
                ∧ (∀ u, u ∈ sel → Asset u = assetID)
                ∧ inUTXOID <$> ins = (inUTXOID <$> ins0) ++ (utxoID <$> sel)
                ∧ spent = spent0 + sumAsset assetID sel
                ∧ (sel ≠ [] → spent ≤ MaxUint64)) as Hskip.
    { intros s0 i0 k0 Hrest.
      destruct (IH Htr' _ _ _ _ _ _ Hrest) as (sel & Hsub & Hall & Hins & Hsp & Hle).
      exists sel. split; [by apply sublist_cons|done]. }
    case_decide as Ha; [|by eapply Hskip].
    pose proof (Htr utxo ltac:(by left)) as Htu.
    destruct (Out utxo) as [|amt owners|owners] eqn:Hout; [done| |done].
    destruct (kcSpend kc (TransferOutput amt owners) time)
      as [[[inAmt sigs|sigs] signers]|] eqn:Hsp; try (by eapply Hskip).
    apply spend_amount in Hsp as ->.
    unfold Add64 in Hsel. case_decide as Hfit; [|done].
    assert (sumAsset assetID [utxo] = amt) as Hone.
    { rewrite sumAsset_cons. change (sumAsset assetID []) with 0.
      unfold assetAmount. rewrite decide_True by done. rewrite Hout. cbn. lia. }
    case_decide as Hreach.
    + simplify_eq. exists [utxo].
      split; [apply sublist_skip, sublist_nil_l|].
      split; [by intros u ->%list_elem_of_singleton|].
      split; [by rewrite fmap_app|]. split; [lia|done].
    + destruct (IH Htr' _ _ _ _ _ _ Hsel) as (sel & Hsub & Hall & Hins & Hspent & Hle).
      exists (utxo :: sel). split; [by apply sublist_skip|].
      split. { intros u [->|Hu]%elem_of_cons; [done|by apply Hall]. }
      split. { rewrite Hins, fmap_app, <- app_assoc. done. }
      rewrite sumAsset_cons. rewrite sumAsset_cons in Hone.
      change (sumAsset assetID []) with 0 in Hone.
      split; [lia|]. intros _.
      destruct sel as [|u' sel']; [|by apply Hle].
      change (sumAsset assetID []) with 0 in Hspent. lia.
Qed.

(** A successful build consumes a selection of the wallet's UTXOs of the
    asset and creates the payment, and the change when there is any. *)
Lemma createTx_shape (assetID : ID) amount destAddr changeAddr time
    (t t' : tester) tx :
  walletOk t →
  createTx assetID amount destAddr changeAddr time t = (Ok tx, t') →
  t' = t
  ∧ ∃ sel, sel `sublist_of` UTXOs (utxoSet t)
      ∧ (∀ u, u ∈ sel → Asset u = assetID)
      ∧ InputUTXOs tx ≡ₚ utxoID <$> sel
      ∧ add64 amount (TxFee (config t)) ≤ sumAsset assetID sel
      ∧ (sel ≠ [] → sumAsset assetID sel ≤ MaxUint64)
      ∧ Outs (UnsignedTx tx) ≡ₚ
          paymentOutput assetID amount destAddr ::
          (if decide (add64 amount (TxFee (config t)) < sumAsset assetID sel)
           then [paymentOutput assetID
                   (sub64 (sub64 (sumAsset assetID sel) amount) (TxFee (config t)))
                   changeAddr]
           else []).
Proof.
  intros [Hs Htr _]. unfold createTx. case_decide as Hz; [done|]. run_M.
  destruct (selectInputs _ _ _ _ _ _ _ _ _) as [[[spent ins] keys]|e|] eqn:Hsel;
    cbn; try done.
  pose proof (selectInputs_lengths _ _ _ _ _ _ _ _ _ _ _ _ Hsel eq_refl) as Hlen.
  apply (selectInputs_selected _ _ _ _ _ _ Htr) in Hsel
    as (sel & Hsub & Hall & Hins & Hspent & Hle).
  cbn in Hins. rewrite Z.add_0_l in Hspent. subst spent.
  case_decide as Hshort; [done|].
  pose proof (sortIns_perm ins keys Hlen) as Hperm.
  destruct (SortTransferableInputsWithSigners ins keys) as [ins' keys'].
  destruct (SignSECP256K1Fx _ _); [|done]. intros [= <- <-].
  split; [done|]. exists sel. split; [done|]. split; [done|].
  split. { unfold InputUTXOs. cbn in *. by rewrite Hperm, Hins. }
  split; [lia|]. split; [done|]. cbn. rewrite sortOuts_perm.
  by case_decide.
Qed.

(** One self-payment of one unit: consuming the inputs and adding the
    outputs lowers the balance of the asset by the fee and leaves every
    other balance alone. *)
Lemma selfPayment_keeps_balance (a : ID) addr now (t t0 : tester) tx :
  walletOk t → 0 ≤ TxFee (config t) → 1 + TxFee (config t) ≤ MaxUint64 →
  (∀ amt, is_Some (kcSpend (keychain t)
                     (TransferOutput amt (mkOwners 0 1 [addr])) MaxUint64)) →
  createTx a 1 addr addr now t = (Ok tx, t0) →
  ∃ t1 t2,
    forEach (λ utxoID, removeUTXO (InputID utxoID)) (InputUTXOs tx) t0 = (Ok tt, t1)
    ∧ forEach addUTXO (TxUTXOs tx) t1 = (Ok tt, t2)
    ∧ walletOk t2 ∧ sameRest t t2
    ∧ ∀ asset, balanceOf (balance t2) asset =
        wrap64 (balanceOf (balance t) asset
                - (if decide (asset = a) then TxFee (config t) else 0)).
Proof.
  intros Hok Hfee0 Hfee Hkc Hc.
  destruct (createTx_shape _ _ _ _ _ _ _ _ Hok Hc)
    as (-> & sel & Hsub & Hasset & Hins & Hreach & Hle & Houts).
  apply Permutation_fmap_inv in Hins as (sel' & Hins & Hperm).
  destruct (inSync_holds _ (ok_sync _ Hok)) as [m Hm].
  destruct (removeUTXO_all sel' t m Hok Hm) as (t1 & Hrm & Hok1 & Hrest1 & Hbal1).
  { rewrite <- Hperm.
    eapply sublist_NoDup; [apply inSync_NoDup, Hok|by apply fmap_sublist]. }
  { intros u Hu. apply (holds_elem_of _ _ _ (ok_sync _ Hok) Hm).
    rewrite <- Hperm in Hu. by eapply elem_of_sublist. }
  destruct (addUTXO_all (TxUTXOs tx) t1 Hok1) as (t2 & Hadd & Hok2 & Hrest2 & Hbal2).
  { intros u Hu. apply elem_of_imap_out in Hu as (o & Ho & Hout); [|done].
    rewrite Hout. destruct Hrest1 as (_ & -> & _).
    rewrite Houts in Ho. apply elem_of_cons in Ho as [->|Ho].
    { split; [done|apply Hkc]. }
    case_decide; [|by apply elem_of_nil in Ho].
    apply list_elem_of_singleton in Ho as ->. split; [done|apply Hkc]. }
  exists t1, t2. rewrite Hins. split; [done|]. split; [done|]. split; [done|].
  split; [by eapply sameRest_trans|].
  intros asset. rewrite Hbal2, Hbal1, wrap64_add_l.
  unfold TxUTXOs. rewrite sumAsset_imap by done.
  rewrite (sumOuts_Permutation _ _ _ Houts), <- (sumAsset_Permutation _ _ _ Hperm).
  assert (add64 1 (TxFee (config t)) = 1 + TxFee (config t)) as Htarget
    by (apply wrap64_small; unfold is_u64; lia).
  rewrite Htarget in *. f_equal.
  destruct (decide (asset = a)) as [->|Hne].
  - assert (sel ≠ []) as Hsel.
    { intros ->. change (sumAsset a []) with 0 in Hreach. lia. }
    specialize (Hle Hsel). unfold sumOuts. cbn. rewrite decide_True by done.
    case_decide as Hchange; cbn.
    + rewrite decide_True by done. unfold sub64.
      rewrite (wrap64_small (_ - 1)) by (unfold is_u64; lia).
      rewrite wrap64_small by (unfold is_u64; lia). lia.
    + lia.
  - rewrite (sumAsset_other asset a) by done.
    unfold sumOuts. cbn. rewrite decide_False by done.
    case_decide; cbn; [rewrite decide_False by done|]; lia.
Qed.

Lemma createTx_state (assetID : ID) amount destAddr changeAddr time
    (t t' : tester) r :
  createTx assetID amount destAddr changeAddr time t = (r, t') →
  t' = t ∧ r ≠ Panic.
Proof.
  unfold createTx. case_decide; [by intros [= <- <-]|]. run_M.
  pose proof (selectInputs_no_panic (keychain t) assetID amount
                (TxFee (config t)) time (UTXOs (utxoSet t)) 0 [] []) as Hnp.
  destruct (selectInputs _ _ _ _ _ _ _ _ _) as [[[spent ins] keys]|e|]; cbn;
    [|by intros [= <- <-]|done].
  case_decide; [by intros [= <- <-]|].
  destruct (SortTransferableInputsWithSigners ins keys) as [ins' keys'].
  destruct (SignSECP256K1Fx _ _); by intros [= <- <-].
Qed.

(** The chain of [n] self-payments never panics, keeps the wallet well
    formed, and when it completes the balance of the asset has gone down by
    [n] fees, every step counted in [uint64]. *)
Lemma generateLoop_keeps_balance (a : ID) addr now n :
  ∀ i (t : tester),
    walletOk t → 0 ≤ TxFee (config t) → 1 + TxFee (config t) ≤ MaxUint64 →
    (∀ amt, is_Some (kcSpend (keychain t)
                       (TransferOutput amt (mkOwners 0 1 [addr])) MaxUint64)) →
    ∃ r t', generateLoop a addr now n i t = (r, t')
      ∧ r ≠ Panic ∧ walletOk t'
      ∧ (r = Ok tt → ∀ asset, balanceOf (balance t') asset =
           wrap64 (balanceOf (balance t) asset
                   - (if decide (asset = a)
                      then Z.of_nat n * TxFee (config t) else 0))).
Proof.
  induction n as [|n IH]; intros i t Hok Hfee0 Hfee Hkc.
  - exists (Ok tt), t. split; [done|]. split; [done|]. split; [done|].
    intros _ asset. change (Z.of_nat 0) with 0.
    case_decide; rewrite ?Z.mul_0_l, Z.sub_0_r; symmetry; apply wrap64_small, Hok.
  - cbn [generateLoop]. unfold mbind at 1, M_bind at 1.
    destruct (createTx a 1 addr addr now t) as [[tx|e|] t0] eqn:Hc.
    + destruct (selfPayment_keeps_balance _ _ _ _ _ _ Hok Hfee0 Hfee Hkc Hc)
        as (t1 & t2 & Hrm & Hadd & Hok2 & (Hcfg & Hkey & _ & _) & Hbal2).
      unfold mbind at 1, M_bind at 1. rewrite Hrm.
      unfold mbind at 1, M_bind at 1. rewrite Hadd.
      unfold mbind at 1, M_bind at 1. unfold modify at 1.
      set (t3 := set_txs _ t2).
      destruct (IH (S i) t3) as (r & t' & Hloop & Hnp & Hok' & Hbal').
      { destruct Hok2. by split. }
      { cbn. by rewrite Hcfg. }
      { cbn. by rewrite Hcfg. }
      { cbn. by rewrite Hkey. }
      exists r, t'. split; [done|]. split; [done|]. split; [done|].
      intros Hr asset. rewrite (Hbal' Hr). cbn. rewrite Hbal2, wrap64_sub_l, Hcfg.
      f_equal. case_decide; lia.
    + apply createTx_state in Hc as [-> _].
      exists (Err e), t. split; [done|]. split; [done|]. split; [done|].
      intros [=].
    + by apply createTx_state in Hc as [_ ?].
Qed.

(** The setup of [Run] on a new tester whose imported key can spend what
    it is paid: the deposit stays in the wallet but for the fees, whatever
    the number of generated transactions. *)
Lemma RunSetup_keeps_the_deposit (cfg : TestConfig) (c : Config) :
  take 1 (kcAddresses (kcAdd NewKeychain (Key cfg))) = [keyAddress (Key cfg)] →
  (∀ amt, is_Some (kcSpend (kcAdd NewKeychain (Key cfg))
                     (TransferOutput amt (mkOwners 0 1 [keyAddress (Key cfg)]))
                     MaxUint64)) →
  0 ≤ TxFee c → 1 + TxFee c ≤ MaxUint64 →
  is_u64 (UTXOAmount cfg) → 0 ≤ NumTxs cfg →
  ∃ r t', RunSetup cfg (NewTester c) = (r, t')
    ∧ r ≠ Panic ∧ walletOk t'
    ∧ (r = Ok tt →
       balanceOf (balance t') (AvaxAssetID c)
       = wrap64 (UTXOAmount cfg - NumTxs cfg * TxFee c)).
Proof.
  intros Haddr Hkc Hfee0 Hfee Hamt Hn.
  set (t0 := set_keychain (kcAdd NewKeychain (Key cfg)) (NewTester c)).
  assert (walletOk t0) as Hok0.
  { split; cbn; [apply inSync_empty|by intros u Hu%elem_of_nil|].
    intros asset. unfold balanceOf. rewrite lookup_empty. cbn.
    unfold is_u64, MaxUint64. lia. }
  destruct (addUTXO_spendable t0
              (mkUTXO (cfgUTXOID cfg) (AvaxAssetID c)
                 (TransferOutput (UTXOAmount cfg)
                    (mkOwners 0 1 [keyAddress (Key cfg)]))) Hok0)
    as (t1 & Hadd & Hok1 & (Hcfg & Hkey & _ & _) & Hbal1); [done|apply Hkc|].
  destruct (generateLoop_keeps_balance (AvaxAssetID c) (keyAddress (Key cfg))
              (Clock c) (Z.to_nat (NumTxs cfg)) 0%nat
              (set_txs (replicate (Z.to_nat (NumTxs cfg)) None) t1))
    as (r & t' & Hloop & Hnp & Hok' & Hbal').
  { destruct Hok1. by split. }
  { cbn. by rewrite Hcfg. }
  { cbn. by rewrite Hcfg. }
  { cbn. rewrite Hkey. apply Hkc. }
  exists r, t'. split.
  { unfold RunSetup, importKey, generateTxs.
    unfold mbind, M_bind, modify, gets.
    change (keychain (NewTester c)) with NewKeychain. fold t0.
    change (config t0) with c. rewrite Hadd, Hcfg, Hkey.
    change (config t0) with c. change (keychain t0) with (kcAdd NewKeychain (Key cfg)).
    rewrite Haddr. by rewrite decide_False by lia. }
  split; [done|]. split; [done|].
  intros Hr. rewrite (Hbal' Hr). cbn. rewrite decide_True by done.
  rewrite Hbal1, wrap64_sub_l, Hcfg. cbn.
  unfold assetAmount. cbn. rewrite decide_True by done.
  unfold balanceOf. rewrite lookup_empty. cbn. f_equal. lia.
Qed.

End SelfPayments.

(** ** The issuance loop *)

Lemma exec_invariant (cfg : TestConfig) (P : state → Prop) :
  (∀ l s s', step cfg l s = Some s' → P s → P s') →
  ∀ ls s s', exec cfg ls s = Some s' → P s → P s'.
Proof.
  intros Hstep ls. induction ls as [|l ls IH]; intros s s' Hex HP; cbn in Hex.
  - by simplify_eq.
  - destruct (step cfg l s) as [s1|] eqn:Hs; [|done]. eauto.
Qed.


(** [nextTxs] touches the queue only. *)
Lemma nextTxs_spec n (t : tester) :
  nextTxs n t =
    if decide (length (txs t) = 0%nat) then (Err errNoRemaining, t)
    else if decide (Z.of_nat (length (txs t)) < n) then (Ok (txs t), t)
    else if decide (n < 0) then (Panic, t)
    else (Ok (take (Z.to_nat n) (txs t)), set_txs (drop (Z.to_nat n) (txs t)) t).
Proof. unfold nextTxs. run_M. by repeat case_decide. Qed.

Lemma nextTxs_frame n (t : tester) :
  config (nextTxs n t).2 = config t
  ∧ processingVtxs (nextTxs n t).2 = processingVtxs t.
Proof. rewrite nextTxs_spec. by repeat case_decide. Qed.

Lemma Issue_spec (t : tester) :
  Issue t = (Ok tt, set_processingVtxs (wrapInt (processingVtxs t + 1)) t).
Proof. done. Qed.

Lemma Accept_spec (t : tester) :
  Accept t =
    (Ok (bool_decide (wrapInt (processingVtxs t - 1) < MaxProcessingVtxs (config t))),
     set_processingVtxs (wrapInt (processingVtxs t - 1)) t).
Proof. done. Qed.

Lemma Reject_spec (t : tester) : Reject t = Accept t.
Proof. done. Qed.

Lemma runCallback_config cb (t : tester) : config (runCallback cb t).2 = config t.
Proof. by destruct cb. Qed.

Lemma runCallbacks_config cbs (t : tester) :
  config (foldl (λ t cb, (runCallback cb t).2) t cbs) = config t.
Proof.
  revert t. induction cbs as [|cb cbs IH]; intros t; cbn; [done|].
  by rewrite IH, runCallback_config.
Qed.

Ltac step_cases Hstep :=
  unfold step in Hstep;
  repeat match type of Hstep with
  | match ?l with LLock => _ | _ => _ end = _ => destruct l
  | match at_pc ?s with AtLoopTest => _ | _ => _ end = _ =>
      let Hpc := fresh "Hpc" in destruct (at_pc s) eqn:Hpc
  | (if decide ?P then _ else _) = _ => destruct (decide P)
  | (if lockHeld ?s then _ else _) = _ =>
      let Hl := fresh "Hlock" in destruct (lockHeld s) eqn:Hl
  | None = Some _ => discriminate Hstep
  end.

Lemma step_config (cfg : TestConfig) l (s s' : state) :
  step cfg l s = Some s' → config (me s') = config (me s).
Proof.
  intros Hstep. step_cases Hstep; simplify_eq; try done.
  - destruct (nextTxs_frame (BatchSize cfg) (me s)) as [Hc _].
    destruct (nextTxs (BatchSize cfg) (me s)) as [[batch|e|] t1]; cbn in Hc;
      simplify_eq; try done.
    destruct (parseAll parseFails 0 batch); simplify_eq; try done.
    destruct issueFails; simplify_eq; cbn; [by rewrite runCallbacks_config|].
    destruct (logTest cfg (loopVar s)); simplify_eq; cbn;
      by rewrite runCallbacks_config.
  - pose proof (runCallback_config cb (me s)) as Hc.
    destruct (runCallback cb (me s)) as [sig t1]. by simplify_eq.
Qed.

(** *** The capacity wait *)

Lemma wrapInt_range z : is_int (wrapInt z).
Proof.
  unfold is_int, wrapInt, MinInt, MaxInt.
  pose proof (Z.mod_pos_bound (z + 2 ^ 63) (2 ^ 64)). lia.
Qed.

Lemma wrapInt_small z : is_int z → wrapInt z = z.
Proof.
  unfold is_int, wrapInt, MinInt, MaxInt. intros ?.
  rewrite Z.mod_small; lia.
Qed.





Lemma exec_config (cfg : TestConfig) ls (s s' : state) :
  exec cfg ls s = Some s' → config (me s') = config (me s).
Proof.
  intros Hex.
  apply (exec_invariant cfg (λ s1, config (me s1) = config (me s))) with ls s;
    [|done|done].
  intros l s1 s2 Hstep <-. by eapply step_config.
Qed.


(** *** Counting the batches *)

Lemma parseAll_Ok parseFails k (batch : list (option Tx)) parsed :
  parseAll parseFails k batch = Ok parsed → Some <$> parsed = batch.
Proof.
  revert k parsed. induction batch as [|[tx|] batch IH]; intros k parsed Hp; cbn in Hp.
  - by simplify_eq.
  - case_decide; [done|].
    destruct (parseAll parseFails (S k) batch) as [l| |] eqn:Hrest; simplify_eq.
    cbn. by rewrite (IH _ _ Hrest).
  - done.
Qed.

Lemma nextTxs_Ok n (t : tester) batch t1 :
  nextTxs n t = (Ok batch, t1) →
  Z.of_nat (length batch) ≤ n
  ∧ (n = 1 → length batch = 1%nat ∧ batch ++ txs t1 = txs t).
Proof.
  rewrite nextTxs_spec. intros Hn. repeat case_decide; simplify_eq.
  - split; [lia|]. intros ->. destruct (txs t1); cbn in *; [done|lia].
  - split; [rewrite length_take; lia|]. intros ->. cbn.
    destruct (txs t) as [|tx l]; [done|]. change (Z.to_nat 1) with 1%nat. cbn. by rewrite drop_0, take_0.
Qed.

Lemma runCallback_txs cb (t : tester) : txs (runCallback cb t).2 = txs t.
Proof. by destruct cb. Qed.

Lemma runCallbacks_txs cbs (t : tester) :
  txs (foldl (λ t cb, (runCallback cb t).2) t cbs) = txs t.
Proof.
  revert t. induction cbs as [|cb cbs IH]; intros t; cbn; [done|].
  by rewrite IH, runCallback_txs.
Qed.

Lemma loopInv_init (cfg : TestConfig) (t : tester) : loopInv cfg t (initState t).
Proof.
  split; cbn; try done; lia.
Qed.

Lemma loopInv_step (cfg : TestConfig) (t : tester) l (s s' : state) :
  step cfg l s = Some s' → loopInv cfg t s → loopInv cfg t s'.
Proof.
  intros Hstep [Hr Hc Hi Hd Ho Hsz Hord].
  assert (∀ sig p, afterSignal sig p = p ∨
            (p = Waiting ∧ afterSignal sig p = Woken)) as Hsig.
  { intros sig p. destruct p, sig; cbn; auto. }
  step_cases Hstep; simplify_eq.
  (* the steps that only move the program counter *)
  1-5: by (split; cbn; try done; try lia;
           first [ intros _; first [by apply Hc | by apply Hi | lia]
                 | intros ? _; by apply Hord ]).
  - (* LBatch *)
    specialize (Hi eq_refl). specialize (Hc ltac:(done)).
    pose proof (nextTxs_spec (BatchSize cfg) (me s)) as Hspec.
    destruct (nextTxs (BatchSize cfg) (me s)) as [[batch|e|] t1] eqn:Hnext;
      simplify_eq.
    + pose proof (nextTxs_Ok _ _ _ _ Hnext) as [Hlen Hone].
      destruct (parseAll parseFails 0 batch) as [parsed|e|] eqn:Hparse;
        simplify_eq; try (split; cbn; done).
      pose proof (parseAll_Ok _ _ _ _ Hparse) as Hparsed.
      assert (length parsed = length batch) as Hpl
        by (rewrite <- Hparsed; by rewrite length_fmap).
      destruct issueFails; simplify_eq; [split; cbn; done|].
      assert (Forall (λ b : list Tx, Z.of_nat (length b) ≤ BatchSize cfg)
                (submitted s ++ [parsed])) as Hsz'.
      { apply Forall_app. split; [done|]. apply Forall_singleton. lia. }
      assert (BatchSize cfg = 1 →
              (Some <$> concat (submitted s ++ [parsed])) ++
                txs (foldl (λ t cb, (runCallback cb t).2) t1 during) = txs t
              ∧ Forall (λ b : list Tx, length b = 1%nat) (submitted s ++ [parsed]))
        as Hord'.
      { intros Hb. destruct (Hord Hb eq_refl) as [Happ Hall].
        destruct (Hone Hb) as [Hl1 Hbt]. split.
        - rewrite runCallbacks_txs, concat_app, fmap_app. cbn.
          rewrite app_nil_r, <- app_assoc, Hbt. done.
        - apply Forall_app. split; [done|]. apply Forall_singleton. lia. }
      destruct (logTest cfg (loopVar s)); simplify_eq; split; cbn; try done;
        try lia;
        first [ intros _; rewrite length_app; cbn; lia
              | intros ? _; by apply Hord' ].
    + (* ran out *)
      repeat case_decide; simplify_eq.
      split; cbn; try done.
      intros i [= <-]. split; [done|]. split; [|done].
      by apply length_zero_iff_nil.
    + split; cbn; done.
  - (* LCallback *)
    pose proof (runCallback_txs cb (me s)) as Htx.
    destruct (runCallback cb (me s)) as [sig t1]. cbn in Htx. simplify_eq.
    destruct (Hsig sig (at_pc s)) as [Heq|[Hw Heq]]; split; cbn;
      rewrite ?Heq, ?Htx; try done; rewrite Hw in *;
      first [ intros _; first [by apply Hc | by apply Hi]
            | intros ? _; by apply Hord ].
Qed.


(** * Further properties of the package *)

(** ** utxo_set.go *)

Lemma Get_None (us : UTXOSet) id : Get us id = Ok None ↔ utxoMap us !! id = None.
Proof.
  unfold Get. destruct (utxoMap us !! id) as [i|]; [|done].
  by destruct (UTXOs us !! i).
Qed.

(** X1. On a set in sync, Put never replaces: whatever Get returned for an
    id before a Put it returns after it, a Put of an id already present
    leaves the set as it is, and a Put of an absent id appends the UTXO at
    the end of the list, where Get finds it; Get does not panic on the
    result. *)
Theorem Put_never_replaces (us : UTXOSet) (utxo : UTXO) :
  inSync us →
  (∀ id, Get (Put us utxo) id ≠ Panic)
  ∧ (∀ id old, Get us id = Ok (Some old) → Get (Put us utxo) id = Ok (Some old))
  ∧ (∀ old, Get us (inputKey utxo) = Ok (Some old) → Put us utxo = us)
  ∧ (Get us (inputKey utxo) = Ok None →
       Get (Put us utxo) (inputKey utxo) = Ok (Some utxo)
       ∧ UTXOs (Put us utxo) = UTXOs us ++ [utxo]
       ∧ ∀ id, id ≠ inputKey utxo → Get (Put us utxo) id = Get us id).
Proof.
  intros Hs. destruct (inSync_holds us Hs) as [m Hm].
  pose proof (inSync_Put us utxo Hs) as Hs'.
  pose proof (holds_Put us m utxo Hs Hm) as Hm'.
  assert (∀ id, Get (Put us utxo) id = Ok (heldStep m (OpPut utxo) !! id)) as HG'
    by (intros id; by apply holds_Get).
  assert (∀ id, Get us id = Ok (m !! id)) as HG by (intros id; by apply holds_Get).
  split. { intros id. by rewrite HG'. }
  split.
  { intros id old. rewrite HG, HG'. intros [= Hold]. cbn.
    destruct (m !! inputKey utxo) eqn:Hk; [by rewrite Hold|].
    rewrite lookup_insert_ne; [by rewrite Hold|]. congruence. }
  split.
  { intros old Hold. unfold Get in Hold. unfold Put.
    destruct (utxoMap us !! inputKey utxo); [done|]. done. }
  intros Hnone. apply Get_None in Hnone as Hk.
  rewrite HG in Hnone. injection Hnone as Hmk.
  split. { rewrite HG'. cbn. rewrite Hmk. by rewrite lookup_insert_eq. }
  split. { unfold Put. by rewrite Hk. }
  intros id Hne. rewrite HG, HG'. cbn. rewrite Hmk.
  by rewrite lookup_insert_ne.
Qed.

Lemma Get_Put_new (us : UTXOSet) (utxo : UTXO) :
  utxoMap us !! inputKey utxo = None →
  Get (Put us utxo) (inputKey utxo) = Ok (Some utxo).
Proof.
  intros Hk. unfold Put. rewrite Hk. unfold Get. cbn.
  rewrite lookup_insert_eq. by rewrite lookup_app_r, Nat.sub_diag by lia.
Qed.

Lemma Remove_Put_new (us : UTXOSet) (utxo : UTXO) :
  utxoMap us !! inputKey utxo = None →
  Remove (Put us utxo) (inputKey utxo) = Ok (us, Some utxo).
Proof.
  intros Hk. unfold Put. rewrite Hk. unfold Remove. cbn.
  rewrite lookup_insert_eq.
  rewrite lookup_app_r, Nat.sub_diag by lia. cbn.
  rewrite length_app. cbn.
  replace (length (UTXOs us) + 1 - 1)%nat with (length (UTXOs us)) by lia.
  rewrite lookup_app_r, Nat.sub_diag by lia. cbn.
  rewrite insert_insert_eq, delete_insert_eq, delete_id by done.
  rewrite insert_app_r_alt, Nat.sub_diag by lia. cbn.
  rewrite take_app_length. by destruct us.
Qed.

(** X2. Remove of an id that Get does not find returns nil and the set
    unchanged; and removing a UTXO right after putting it under an id the
    set did not hold gives back the set as it was, index and list, and
    returns that UTXO. *)
Theorem Remove_undoes_Put (us : UTXOSet) (utxo : UTXO) :
  Get us (inputKey utxo) = Ok None →
  Remove us (inputKey utxo) = Ok (us, None)
  ∧ Remove (Put us utxo) (inputKey utxo) = Ok (us, Some utxo).
Proof.
  intros Hk%Get_None. split; [|by apply Remove_Put_new].
  unfold Remove. by rewrite Hk.
Qed.

(** ** tester.go: the wallet *)

(** X3. removeUTXO undoes addUTXO: for a transferable output the keychain
    can spend and an id the set does not hold, adding the UTXO and removing
    it again restores the UTXO set exactly and the balance of every asset,
    also when the addition wrapped around; nothing else changes. *)
Theorem removeUTXO_undoes_addUTXO (t : tester) (utxo : UTXO) :
  isTransferableOut (Out utxo) = true →
  is_Some (kcSpend (keychain t) (Out utxo) MaxUint64) →
  Get (utxoSet t) (inputKey utxo) = Ok None →
  is_u64 (balanceOf (balance t) (Asset utxo)) →
  ∃ t1 t2, addUTXO utxo t = (Ok tt, t1)
    ∧ removeUTXO (inputKey utxo) t1 = (Ok tt, t2)
    ∧ Get (utxoSet t1) (inputKey utxo) = Ok (Some utxo)
    ∧ utxoSet t2 = utxoSet t
    ∧ (∀ asset, balanceOf (balance t2) asset = balanceOf (balance t) asset)
    ∧ sameRest t t2.
Proof.
  intros Htr [sp Hsp] Hk%Get_None Hrange.
  destruct (Out utxo) as [|amt owners|owners] eqn:Hout; [done| |done].
  assert (sub64 (add64 (balanceOf (balance t) (Asset utxo)) amt) amt
          = balanceOf (balance t) (Asset utxo)) as Hround.
  { unfold sub64, add64. rewrite wrap64_sub_l.
    replace (_ + amt - amt) with (balanceOf (balance t) (Asset utxo)) by lia.
    by apply wrap64_small. }
  unfold addUTXO. rewrite Hout. run_M. rewrite Hsp. cbn.
  match goal with |- ∃ t1 t2, (Ok tt, ?X) = _ ∧ _ => exists X end.
  unfold removeUTXO. run_M.
  rewrite (Get_Put_new _ _ Hk), Hout.
  unfold set_balance, set_utxoSet. cbn.
  rewrite balanceOf_insert, (decide_True (P := Asset utxo = Asset utxo)) by done.
  rewrite Hround.
  case_decide as Hz; cbn; rewrite (Remove_Put_new _ _ Hk); cbn;
    eexists; (split; [done|]); (split; [done|]); (split; [done|]); cbn;
    (split; [done|]); (split; [|done]); intros asset.
  - rewrite balanceOf_delete, balanceOf_insert. case_decide; [by subst|done].
  - rewrite !balanceOf_insert. case_decide; [by subst|done].
Qed.

Lemma removeUTXO_sound (t : tester) id :
  inSync (utxoSet t) →
  (∀ u, u ∈ UTXOs (utxoSet t) → isTransferableOut (Out u) = true) →
  ∃ t', removeUTXO id t = (Ok tt, t')
    ∧ inSync (utxoSet t')
    ∧ (∀ u, u ∈ UTXOs (utxoSet t') → u ∈ UTXOs (utxoSet t))
    ∧ sameRest t t'.
Proof.
  intros Hs Htr. unfold removeUTXO. run_M. unfold Get.
  destruct (utxoMap (utxoSet t) !! id) as [i|] eqn:Hk.
  2:{ exists t. split; [done|]. split; [done|]. split; [done|]. apply sameRest_refl. }
  destruct (Remove_present _ _ _ Hs Hk) as (utxoI & utxoJ & HI & HkI & HJ & HR).
  rewrite HI.
  assert (utxoI ∈ UTXOs (utxoSet t)) as HIin by (apply list_elem_of_lookup; eauto).
  pose proof (Htr _ HIin) as HtrI.
  destruct (Out utxoI) as [|amt owners|owners] eqn:Hout; [done| |done].
  pose proof (inSync_Remove _ _ _ _ Hs HR) as Hs'.
  assert (∀ u, u ∈ take (length (UTXOs (utxoSet t)) - 1)
                       (<[i:=utxoJ]> (UTXOs (utxoSet t))) →
               u ∈ UTXOs (utxoSet t)) as Hsub.
  { intros u Hu. apply list_elem_of_lookup in Hu as [p Hp].
    rewrite lookup_swap_remove in Hp by (done || by eapply lookup_lt_Some).
    repeat case_decide; simplify_eq; apply list_elem_of_lookup; eauto. }
  case_decide; cbn; rewrite HR; cbn; eexists; (split; [done|]); cbn;
    (split; [done|]); (split; [done|]); by repeat split.
Qed.

Lemma addUTXO_sound (t : tester) (utxo : UTXO) :
  inSync (utxoSet t) →
  (∀ u, u ∈ UTXOs (utxoSet t) → isTransferableOut (Out u) = true) →
  ∃ t', addUTXO utxo t = (Ok tt, t')
    ∧ inSync (utxoSet t')
    ∧ (∀ u, u ∈ UTXOs (utxoSet t') → isTransferableOut (Out u) = true)
    ∧ sameRest t t'.
Proof.
  intros Hs Htr.
  assert (∃ t', (Ok tt, t) = (Ok tt, t')
            ∧ inSync (utxoSet t')
            ∧ (∀ u, u ∈ UTXOs (utxoSet t') → isTransferableOut (Out u) = true)
            ∧ sameRest t t') as Hsame.
  { exists t. split; [done|]. split; [done|]. split; [done|]. apply sameRest_refl. }
  unfold addUTXO.
  destruct (Out utxo) as [|amt owners|owners] eqn:Hout; [done| |done].
  run_M. destruct (kcSpend _ _ _); cbn; [|done].
  eexists. split; [done|]. cbn. split; [by apply inSync_Put|].
  split; [|by repeat split].
  intros u [Hu| ->]%elem_of_Put; [by apply Htr|by rewrite Hout].
Qed.

(** X4. No sequence of importKey, addUTXO and removeUTXO calls on a new
    tester panics, whatever the UTXOs and ids, repeated or not: the index
    lookups of the set stay in range and the type assertion of removeUTXO
    always succeeds, because the set stays in sync and only ever holds
    transferable outputs.  The calls leave the configuration, the queue and
    the counter alone. *)
Theorem wallet_calls_never_panic (c : Config) (ops : list walletOp) :
  ∃ t : tester, forEach runWalletOp ops (NewTester c) = (Ok tt, t)
    ∧ inSync (utxoSet t)
    ∧ (∀ u, u ∈ UTXOs (utxoSet t) → isTransferableOut (Out u) = true)
    ∧ (∀ id, (removeUTXO id t).1 = Ok tt)
    ∧ config t = c ∧ txs t = [] ∧ processingVtxs t = 0.
Proof.
  assert (∀ (ops : list walletOp) (t : tester),
            inSync (utxoSet t) →
            (∀ u, u ∈ UTXOs (utxoSet t) → isTransferableOut (Out u) = true) →
            ∃ t', forEach runWalletOp ops t = (Ok tt, t')
              ∧ inSync (utxoSet t')
              ∧ (∀ u, u ∈ UTXOs (utxoSet t') → isTransferableOut (Out u) = true)
              ∧ config t' = config t ∧ txs t' = txs t
              ∧ processingVtxs t' = processingVtxs t) as Hall.
  { clear ops. induction ops as [|o ops IH]; intros t Hs Htr.
    { exists t. by split_and!. }
    assert (∃ t1, runWalletOp o t = (Ok tt, t1)
              ∧ inSync (utxoSet t1)
              ∧ (∀ u, u ∈ UTXOs (utxoSet t1) → isTransferableOut (Out u) = true)
              ∧ config t1 = config t ∧ txs t1 = txs t
              ∧ processingVtxs t1 = processingVtxs t)
      as (t1 & Hop & Hs1 & Htr1 & Hc & Htx & Hpv).
    { destruct o as [sk|utxo|id]; cbn.
      - eexists. split; [done|]. by split_and!.
      - destruct (addUTXO_sound t utxo Hs Htr)
          as (t1 & Hadd & Hs1 & Htr1 & Hc & _ & Htx & Hpv).
        exists t1. by split_and!.
      - destruct (removeUTXO_sound t id Hs Htr)
          as (t1 & Hrm & Hs1 & Hsub & Hc & _ & Htx & Hpv).
        exists t1. split_and!; try done.
        intros u Hu. by apply Htr, Hsub. }
    destruct (IH t1 Hs1 Htr1) as (t' & Hrun & Hs' & Htr' & Hc' & Htx' & Hpv').
    exists t'. split.
    { cbn. unfold mbind, M_bind. by rewrite Hop. }
    split_and!; try done; congruence. }
  destruct (Hall ops (NewTester c)) as (t & Hrun & Hs & Htr & Hc & Htx & Hpv).
  { apply inSync_empty. }
  { intros u Hu. by apply elem_of_nil in Hu. }
  exists t. split; [done|]. split; [done|]. split; [done|].
  split; [|done].
  intros id. by destruct (removeUTXO_sound t id Hs Htr) as (t1 & -> & _).
Qed.

(** ** tester.go: createTx *)

(** The selection takes UTXOs of the wallet in list order, each at most
    once: the new inputs correspond, one to one and in order, to a sublist
    of the UTXOs, each of the asset and spendable at the time given. *)
Lemma selectInputs_picks kc (assetID : ID) amount fee time utxos :
  ∀ spent0 ins0 keys0 spent ins keys,
    selectInputs kc assetID amount fee time utxos spent0 ins0 keys0
      = Ok (spent, ins, keys) →
    ∃ sel new, ins = ins0 ++ new
      ∧ sel `sublist_of` utxos
      ∧ Forall2 (λ (u : UTXO) (i : TransferableInput),
                   inUTXOID i = utxoID u ∧ inAsset i = assetID
                   ∧ Asset u = assetID
                   ∧ ∃ signers, kcSpend kc (Out u) time = Some (In i, signers))
                sel new.
Proof.
  induction utxos as [|utxo rest IH]; intros spent0 ins0 keys0 spent ins keys Hsel;
    cbn in Hsel.
  - simplify_eq. exists [], []. by rewrite app_nil_r.
  - assert (∀ spent0 ins0 keys0,
              selectInputs kc assetID amount fee time rest spent0 ins0 keys0
                = Ok (spent, ins, keys) →
              ∃ sel new, ins = ins0 ++ new
                ∧ sel `sublist_of` utxo :: rest
                ∧ Forall2 (λ (u : UTXO) (i : TransferableInput),
                     inUTXOID i = utxoID u ∧ inAsset i = assetID
                     ∧ Asset u = assetID
                     ∧ ∃ signers, kcSpend kc (Out u) time = Some (In i, signers))
                    sel new) as Hskip.
    { intros s0 i0 k0 Hrest.
      destruct (IH _ _ _ _ _ _ Hrest) as (sel & new & Hins & Hsub & Hall).
      exists sel, new. split; [done|]. split; [by apply sublist_cons|done]. }
    case_decide as Ha; [|by eapply Hskip].
    destruct (kcSpend kc (Out utxo) time) as [[[inAmt sigs|sigs] signers]|] eqn:Hsp;
      try (by eapply Hskip).
    unfold Add64 in Hsel. case_decide as Hfit; [|done].
    assert (inUTXOID (mkIn (utxoID utxo) assetID (TransferInput inAmt sigs))
              = utxoID utxo
            ∧ inAsset (mkIn (utxoID utxo) assetID (TransferInput inAmt sigs))
              = assetID
            ∧ Asset utxo = assetID
            ∧ ∃ signers, kcSpend kc (Out utxo) time
                = Some (In (mkIn (utxoID utxo) assetID (TransferInput inAmt sigs)),
                        signers)) as Hone by (split_and!; eauto).
    case_decide as Hreach.
    + simplify_eq. eexists [utxo], [_]. split; [done|].
      split; [apply sublist_skip, sublist_nil_l|].
      apply Forall2_cons_2; [done|apply Forall2_nil_2].
    + destruct (IH _ _ _ _ _ _ Hsel) as (sel & new & Hins & Hsub & Hall).
      eexists (utxo :: sel), (_ :: new). split; [by rewrite Hins, <- app_assoc|].
      split; [by apply sublist_skip|]. by apply Forall2_cons_2.
Qed.

(** The selection stops at the first total that reaches the target: without
    the input selected last the total is below it. *)
Lemma selectInputs_first_fit kc (assetID : ID) amount fee time utxos :
  ∀ spent0 ins0 keys0 spent ins keys,
    selectInputs kc assetID amount fee time utxos spent0 ins0 keys0
      = Ok (spent, ins, keys) →
    spent0 < add64 amount fee → add64 amount fee ≤ spent →
    ∃ init last, ins = ins0 ++ init ++ [last]
      ∧ spent = spent0 + sumIns init + inAmount last
      ∧ spent0 + sumIns init < add64 amount fee.
Proof.
  induction utxos as [|utxo rest IH];
    intros spent0 ins0 keys0 spent ins keys Hsel Hlt Hge; cbn in Hsel.
  - simplify_eq. lia.
  - case_decide as Ha; [|by eapply IH].
    destruct (kcSpend kc (Out utxo) time) as [[[inAmt sigs|sigs] signers]|];
      try (by eapply IH).
    unfold Add64 in Hsel. case_decide as Hfit; [|done].
    case_decide as Hreach.
    + simplify_eq. eexists [], _. split; [done|]. unfold sumIns. cbn. lia.
    + destruct (IH _ _ _ _ _ _ Hsel) as (init & last & -> & -> & Hbelow); [lia|done|].
      eexists (_ :: init), last. rewrite <- app_assoc. split; [done|].
      unfold sumIns in *. cbn. lia.
Qed.

Lemma sumIns_app (l1 l2 : list TransferableInput) :
  sumIns (l1 ++ l2) = sumIns l1 + sumIns l2.
Proof. unfold sumIns. induction l1 as [|i l1 IH]; cbn; lia. Qed.

Section CreateTx.

(** The canonical sorts permute: the outputs, and the inputs when each
    comes with its signer set. *)
Hypothesis sortIns_perm :
  ∀ ins keys, length ins = length keys →
    (SortTransferableInputsWithSigners ins keys).1 ≡ₚ ins.
Hypothesis sortOuts_perm :
  ∀ outs, SortTransferableOutputs outs ≡ₚ outs.

(** What a successful build is made of. *)
Lemma createTx_built (assetID : ID) amount destAddr changeAddr time
    (t t' : tester) tx :
  createTx assetID amount destAddr changeAddr time t = (Ok tx, t') →
  amount ≠ 0
  ∧ ∃ spent ins keys,
      selectInputs (keychain t) assetID amount (TxFee (config t)) time
        (UTXOs (utxoSet t)) 0 [] [] = Ok (spent, ins, keys)
      ∧ add64 amount (TxFee (config t)) ≤ spent
      ∧ Ins (UnsignedTx tx) ≡ₚ ins
      ∧ Outs (UnsignedTx tx) ≡ₚ
          paymentOutput assetID amount destAddr ::
          (if decide (add64 amount (TxFee (config t)) < spent)
           then [paymentOutput assetID
                   (sub64 (sub64 spent amount) (TxFee (config t))) changeAddr]
           else [])
      ∧ txNetworkID (UnsignedTx tx) = NetworkID (config t)
      ∧ BlockchainID (UnsignedTx tx) = ChainID (config t).
Proof.
  unfold createTx. case_decide as Hz; [done|]. run_M.
  destruct (selectInputs _ _ _ _ _ _ _ _ _) as [[[spent ins] keys]|e|] eqn:Hsel;
    cbn; try done.
  pose proof (selectInputs_lengths _ _ _ _ _ _ _ _ _ _ _ _ Hsel eq_refl) as Hlen.
  case_decide as Hshort; [done|].
  pose proof (sortIns_perm ins keys Hlen) as Hperm.
  destruct (SortTransferableInputsWithSigners ins keys) as [ins' keys'].
  destruct (SignSECP256K1Fx _ _); [|done]. intros [= <- <-].
  split; [done|]. exists spent, ins, keys. split; [done|]. split; [lia|].
  split; [done|]. split; [|done]. cbn. rewrite sortOuts_perm. by case_decide.
Qed.

(** X5. Value is conserved by a successful build whose amount plus fee fits
    in 64 bits: the inputs are worth exactly the outputs plus the fee, the
    outputs being the payment of [amount] to the destination and, when
    more was consumed, the change; the inputs cover amount + fee without
    wrapping; and the selection stopped as soon as it could, so the change
    is smaller than one of the inputs. *)
Theorem createTx_conserves_value (assetID : ID) amount destAddr changeAddr time
    (t t' : tester) tx :
  0 ≤ amount → 0 ≤ TxFee (config t) →
  amount + TxFee (config t) ≤ MaxUint64 →
  createTx assetID amount destAddr changeAddr time t = (Ok tx, t') →
  sumInputs tx = sumOuts assetID (Outs (UnsignedTx tx)) + TxFee (config t)
  ∧ amount + TxFee (config t) ≤ sumInputs tx ≤ MaxUint64
  ∧ paymentOutput assetID amount destAddr ∈ Outs (UnsignedTx tx)
  ∧ (∀ o, o ∈ Outs (UnsignedTx tx) →
       o = paymentOutput assetID amount destAddr
       ∨ o = paymentOutput assetID
               (sumInputs tx - amount - TxFee (config t)) changeAddr
         ∧ amount + TxFee (config t) < sumInputs tx)
  ∧ (∃ i, i ∈ Ins (UnsignedTx tx)
       ∧ sumInputs tx - (amount + TxFee (config t)) < inAmount i).
Proof.
  intros Hamt Hfee Hfit Hc.
  destruct (createTx_built _ _ _ _ _ _ _ _ Hc)
    as (Hnz & spent & ins & keys & Hsel & Hreach & Hins & Houts & _).
  assert (add64 amount (TxFee (config t)) = amount + TxFee (config t)) as Htarget
    by (apply wrap64_small; unfold is_u64; lia).
  rewrite Htarget in *.
  destruct (selectInputs_exact _ _ _ _ _ _ _ _ _ _ _ _ Hsel)
    as (new & Hnew & Hspent & Hle).
  cbn in Hnew. subst new. rewrite Z.add_0_l in Hspent.
  assert (sumInputs tx = spent) as Hsum.
  { unfold sumInputs. by rewrite (sumIns_Permutation _ _ Hins). }
  assert (spent ≤ MaxUint64) as Hmax.
  { apply Hle. intros ->. unfold sumIns in Hspent. cbn in Hspent. lia. }
  assert (sub64 (sub64 spent amount) (TxFee (config t))
          = spent - amount - TxFee (config t)) as Hchange.
  { unfold sub64. rewrite wrap64_sub_l. apply wrap64_small. unfold is_u64. lia. }
  rewrite Hsum. split.
  { rewrite (sumOuts_Permutation _ _ _ Houts). unfold sumOuts. cbn.
    rewrite decide_True by done. case_decide as Hmore; cbn.
    - rewrite decide_True by done. rewrite Hchange. lia.
    - lia. }
  split; [lia|]. split; [rewrite Houts; by left|]. split.
  { intros o Ho. rewrite Houts in Ho. apply elem_of_cons in Ho as [->|Ho]; [by left|].
    case_decide as Hmore; [|by apply elem_of_nil in Ho].
    apply list_elem_of_singleton in Ho as ->. right. by rewrite Hchange. }
  destruct (selectInputs_first_fit _ _ _ _ _ _ _ _ _ _ _ _ Hsel)
    as (init & last & Hil & Hsp & Hbelow); [rewrite Htarget; lia|by rewrite Htarget|].
  rewrite Htarget in Hbelow. cbn in Hil.
  exists last. split; [|lia].
  rewrite Hins, Hil. apply elem_of_app. right. by left.
Qed.

(** X6. A successful build on a wallet whose set is in sync spends only
    what the wallet holds, and nothing twice: the inputs reference pairwise
    distinct UTXOs, each one held by the wallet under the referenced id, of
    the requested asset, and carrying the input that the keychain's Spend
    returned for its output at the given time. *)
Theorem createTx_spends_held_utxos_once (assetID : ID) amount destAddr changeAddr
    time (t t' : tester) tx :
  inSync (utxoSet t) →
  createTx assetID amount destAddr changeAddr time t = (Ok tx, t') →
  NoDup (InputID <$> InputUTXOs tx)
  ∧ ∀ i, i ∈ Ins (UnsignedTx tx) →
      inAsset i = assetID
      ∧ ∃ u signers,
          Get (utxoSet t) (InputID (inUTXOID i)) = Ok (Some u)
          ∧ u ∈ UTXOs (utxoSet t)
          ∧ utxoID u = inUTXOID i
          ∧ Asset u = assetID
          ∧ kcSpend (keychain t) (Out u) time = Some (In i, signers).
Proof.
  intros Hs Hc.
  destruct (createTx_built _ _ _ _ _ _ _ _ Hc)
    as (_ & spent & ins & keys & Hsel & _ & Hins & _).
  destruct (selectInputs_picks _ _ _ _ _ _ _ _ _ _ _ _ Hsel)
    as (sel & new & Hnew & Hsub & Hall).
  cbn in Hnew. subst new.
  assert (inUTXOID <$> ins = utxoID <$> sel) as Hids.
  { clear -Hall. induction Hall as [|u i sel ins (Hid & _) _ IH]; [done|].
    cbn. by rewrite Hid, IH. }
  split.
  - unfold InputUTXOs. rewrite Hins, Hids, <- list_fmap_compose.
    eapply sublist_NoDup; [apply inSync_NoDup, Hs|].
    by apply (fmap_sublist inputKey).
  - intros i Hi. rewrite Hins in Hi.
    apply list_elem_of_lookup in Hi as [k Hk].
    destruct (Forall2_lookup_r _ _ _ _ _ Hall Hk)
      as (u & Hu & Hid & Ha & Hau & signers & Hsp).
    split; [done|]. exists u, signers.
    assert (u ∈ UTXOs (utxoSet t)) as Hin.
    { eapply elem_of_sublist; [|done]. apply list_elem_of_lookup. eauto. }
    destruct (inSync_holds _ Hs) as [m Hm].
    rewrite (holds_Get _ _ _ Hs Hm), Hid.
    apply (holds_elem_of _ _ _ Hs Hm) in Hin as Hmu.
    unfold inputKey in Hmu. rewrite Hmu. by split_and!.
Qed.

End CreateTx.

Lemma selectInputs_none kc (assetID : ID) amount fee time utxos :
  (∀ u : UTXO, u ∈ utxos → Asset u ≠ assetID) →
  ∀ spent0 ins0 keys0,
    selectInputs kc assetID amount fee time utxos spent0 ins0 keys0
      = Ok (spent0, ins0, keys0).
Proof.
  induction utxos as [|utxo rest IH]; intros Hall spent0 ins0 keys0; cbn; [done|].
  rewrite decide_False by (apply Hall; by left).
  apply IH. intros u Hu. apply Hall. by right.
Qed.

(** X7. How createTx fails.  It never panics; a zero amount is refused with
    errAmtZero before anything is looked at; its only errors are that one,
    an overflow of the sum of the inputs, insufficient funds and a failed
    signature; and with a non-zero amount on a wallet that holds no UTXO of
    the asset it reports insufficient funds, unless amount + fee wraps
    around to zero. *)
Theorem createTx_errors (assetID : ID) amount destAddr changeAddr time (t : tester) :
  (createTx assetID amount destAddr changeAddr time t).1 ≠ Panic
  ∧ (amount = 0 →
       (createTx assetID amount destAddr changeAddr time t).1 = Err errAmtZero)
  ∧ (∀ e, (createTx assetID amount destAddr changeAddr time t).1 = Err e →
       (e = errAmtZero ∧ amount = 0)
       ∨ (amount ≠ 0 ∧ (e = errOverflow ∨ e = errInsufficient ∨ e = errSign)))
  ∧ (amount ≠ 0 →
     (∀ u, u ∈ UTXOs (utxoSet t) → Asset u ≠ assetID) →
     add64 amount (TxFee (config t)) ≠ 0 →
       (createTx assetID amount destAddr changeAddr time t).1 = Err errInsufficient).
Proof.
  split.
  { destruct (createTx _ _ _ _ _ t) as [r t'] eqn:Hc.
    by apply createTx_state in Hc as [_ ?]. }
  split.
  { intros ->. unfold createTx. by rewrite decide_True. }
  split.
  { intros e. unfold createTx. case_decide as Hz; [intros [= <-]; by left|].
    run_M. intros He. right. split; [done|].
    destruct (selectInputs _ _ _ _ _ _ _ _ _) as [[[spent ins] keys]|e'|] eqn:Hsel;
      cbn in He.
    - case_decide; [injection He as <-; auto|].
      destruct (SortTransferableInputsWithSigners ins keys) as [ins' keys'].
      destruct (SignSECP256K1Fx _ _); [done|]. injection He as <-. auto.
    - injection He as <-. left. by eapply selectInputs_error.
    - done. }
  intros Hnz Hnone Htarget. unfold createTx. rewrite decide_False by done. run_M.
  rewrite selectInputs_none by done. cbn.
  rewrite decide_True; [done|].
  pose proof (wrap64_range (amount + TxFee (config t))) as [? _].
  unfold add64 in *. lia.
Qed.


(** ** tester.go: generateTxs *)

Lemma removeUTXO_frame id (t t' : tester) r :
  removeUTXO id t = (r, t') → sameRest t t'.
Proof.
  unfold removeUTXO. run_M.
  destruct (Get (utxoSet t) id) as [[u|]| |]; try (intros [= <- <-]; by split_and!).
  destruct (Out u); try (intros [= <- <-]; by split_and!).
  case_decide; cbn; destruct (Remove _ _) as [[us' r']| |];
    intros [= <- <-]; by split_and!.
Qed.

Lemma addUTXO_frame (utxo : UTXO) (t t' : tester) r :
  addUTXO utxo t = (r, t') → sameRest t t'.
Proof.
  unfold addUTXO. destruct (Out utxo); try (intros [= <- <-]; by split_and!).
  run_M. destruct (kcSpend _ _ _); intros [= <- <-]; by split_and!.
Qed.

Lemma forEach_frame {A} (body : A → M unit) (l : list A) :
  (∀ x (t t' : tester) r, body x t = (r, t') → sameRest t t') →
  ∀ (t t' : tester) r, forEach body l t = (r, t') → sameRest t t'.
Proof.
  intros Hbody. induction l as [|x l IH]; intros t t' r; cbn.
  - intros [= <- <-]. apply sameRest_refl.
  - unfold mbind, M_bind. destruct (body x t) as [[[]|e|] t1] eqn:Hx;
      pose proof (Hbody _ _ _ _ Hx) as H1.
    + intros Hl. eapply sameRest_trans; [exact H1|by eapply IH].
    + by intros [= <- <-].
    + by intros [= <- <-].
Qed.

(** Where the loop of [generateTxs] has passed, the queue holds the
    transactions it built; elsewhere the queue is as before. *)
Lemma generateLoop_queue (assetID : ID) addr now n :
  ∀ i (t t' : tester),
    generateLoop assetID addr now n i t = (Ok tt, t') →
    (i + n ≤ length (txs t))%nat →
    length (txs t') = length (txs t)
    ∧ (∀ k, (i ≤ k < i + n)%nat → ∃ tx, txs t' !! k = Some (Some tx))
    ∧ (∀ k, (k < i ∨ i + n ≤ k)%nat → txs t' !! k = txs t !! k)
    ∧ config t' = config t ∧ keychain t' = keychain t
    ∧ processingVtxs t' = processingVtxs t.
Proof.
  induction n as [|n IH]; intros i t t' Hloop Hlen.
  - cbn in Hloop. injection Hloop as <-. split_and!; try done. intros k ?. lia.
  - cbn [generateLoop] in Hloop. unfold mbind at 1, M_bind at 1 in Hloop.
    destruct (createTx assetID 1 addr addr now t) as [[tx|e|] t0] eqn:Hc; [|done..].
    apply createTx_state in Hc as [-> _].
    unfold mbind at 1, M_bind at 1 in Hloop.
    destruct (forEach _ (InputUTXOs tx) t) as [[[]|e|] t1] eqn:Hrm; [|done..].
    apply forEach_frame in Hrm as (Hc1 & Hk1 & Htx1 & Hpv1);
      [|intros; by eapply removeUTXO_frame].
    unfold mbind at 1, M_bind at 1 in Hloop.
    destruct (forEach addUTXO (TxUTXOs tx) t1) as [[[]|e|] t2] eqn:Hadd; [|done..].
    apply forEach_frame in Hadd as (Hc2 & Hk2 & Htx2 & Hpv2);
      [|intros; by eapply addUTXO_frame].
    unfold mbind at 1, M_bind at 1, modify at 1 in Hloop.
    apply IH in Hloop as (Hl & Hin & Hout & Hc3 & Hk3 & Hpv3);
      [|cbn; rewrite length_insert, Htx2, Htx1; lia].
    cbn in Hl, Hout, Hc3, Hk3, Hpv3.
    rewrite Htx2, Htx1 in Hout, Hl. rewrite length_insert in Hl.
    split; [done|]. split.
    { intros k Hk. destruct (decide (k = i)) as [->|Hne].
      - exists tx. rewrite Hout by lia. apply list_lookup_insert_eq. lia.
      - apply Hin. lia. }
    split.
    { intros k Hk. rewrite Hout by lia.
      by rewrite list_lookup_insert_ne by lia. }
    split_and!; congruence.
Qed.

Lemma all_some_list {A} (q : list (option A)) :
  (∀ k, (k < length q)%nat → ∃ x, q !! k = Some (Some x)) →
  ∃ l, q = Some <$> l.
Proof.
  induction q as [|o q IHq]; intros Hq; [by exists []|].
  destruct (Hq 0%nat) as [x Hx]; [cbn; lia|]. cbn in Hx. simplify_eq.
  destruct IHq as [l ->].
  { intros k Hk. apply (Hq (S k)). cbn. lia. }
  by exists (x :: l).
Qed.

Lemma generateTxs_queue (numTxs : Z) (assetID : ID) (t t' : tester) :
  generateTxs numTxs assetID t = (Ok tt, t') →
  0 ≤ numTxs
  ∧ length (txs t') = Z.to_nat numTxs
  ∧ (∃ l : list Tx, txs t' = Some <$> l)
  ∧ config t' = config t ∧ keychain t' = keychain t
  ∧ processingVtxs t' = processingVtxs t.
Proof.
  unfold generateTxs. run_M.
  destruct (take 1 (kcAddresses (keychain t))) as [|addr addrs]; [done|].
  case_decide as Hneg; [done|]. cbn. intros Hloop.
  apply generateLoop_queue in Hloop as (Hlen & Hin & _ & Hc & Hk & Hpv);
    [|cbn; rewrite length_replicate; lia].
  cbn in Hlen, Hc, Hk, Hpv. rewrite length_replicate in Hlen.
  split; [lia|]. split; [done|]. split; [|done].
  apply all_some_list. intros k Hk'. apply Hin. lia.
Qed.

(** X8. When generateTxs succeeds, the queue holds exactly [numTxs]
    transactions and none of its entries is nil, so nothing the loop of Run
    takes from it can make [tx.Bytes()] fail; the configuration, the
    keychain and the counter are as before. *)
Theorem generateTxs_fills_the_queue (numTxs : Z) (assetID : ID) (t t' : tester) :
  generateTxs numTxs assetID t = (Ok tt, t') →
  0 ≤ numTxs
  ∧ (∃ l : list Tx, txs t' = Some <$> l ∧ Z.of_nat (length l) = numTxs)
  ∧ config t' = config t ∧ keychain t' = keychain t
  ∧ processingVtxs t' = processingVtxs t.
Proof.
  intros (Hn & Hlen & [l Hl] & Hrest)%generateTxs_queue.
  split; [done|]. split; [|done]. exists l. split; [done|].
  rewrite Hl, length_fmap in Hlen. lia.
Qed.

(** *** What generation does to the set, exactly *)







(** *** When generation succeeds *)


Section Generation.

Variable rank : ID → nat.

(** What generation needs from the other packages: the sorts permute;
    spending a transfer output yields an input of the same amount; signing
    succeeds; ids do not collide ([InputID] is injective and the id of a
    transaction determines its inputs) and do not refer to themselves (the
    id of a transaction ranks above the ids it spends from). *)
Hypothesis sortIns_perm :
  ∀ ins keys, length ins = length keys →
    (SortTransferableInputsWithSigners ins keys).1 ≡ₚ ins.
Hypothesis sortOuts_perm :
  ∀ outs, SortTransferableOutputs outs ≡ₚ outs.
Hypothesis spend_amount :
  ∀ kc amt owners time inAmt sigs signers,
    kcSpend kc (TransferOutput amt owners) time
      = Some (TransferInput inAmt sigs, signers) →
    inAmt = amt.
Hypothesis sign_ok :
  ∀ utx keys, is_Some (SignSECP256K1Fx utx keys).
Hypothesis inputID_inj :
  ∀ x y : UTXOID, InputID x = InputID y → x = y.
Hypothesis txID_inputs :
  ∀ tx tx' : Tx, txID tx = txID tx' → InputUTXOs tx = InputUTXOs tx'.
Hypothesis txID_rank :
  ∀ (tx : Tx) i, i ∈ InputUTXOs tx → (rank (TxID i) < rank (txID tx))%nat.
















End Generation.

(** ** tester.go: the loop of Run *)

(** Who holds the lock at each point of the loop. *)
Lemma lock_step (cfg : TestConfig) l (s s' : state) :
  step cfg l s = Some s' →
  (lockHeld s = match at_pc s with
                | AtWaitTest | PastWait | Returned (RanOut _) => true
                | Returned Panicked => lockHeld s
                | _ => false
                end) →
  lockHeld s' = match at_pc s' with
                | AtWaitTest | PastWait | Returned (RanOut _) => true
                | Returned Panicked => lockHeld s'
                | _ => false
                end.
Proof.
  intros Hstep Hinv. step_cases Hstep; simplify_eq; try done.
  - destruct (nextTxs (BatchSize cfg) (me s)) as [[batch|e|] t1]; simplify_eq; try done.
    destruct (parseAll parseFails 0 batch); simplify_eq; try done.
    destruct issueFails; simplify_eq; try done.
    by destruct (logTest cfg (loopVar s)); simplify_eq.
  - destruct (runCallback cb (me s)) as [sig t1]. simplify_eq. cbn.
    destruct (at_pc s) as [| | | | |[]]; try done; by destruct sig.
Qed.

(** X9. Run gives the engine's lock back on every return but one: after
    the loop, after a failed parse and after a failed Engine.Issue the lock
    is released, but when the queue runs out ([nextTxs] fails) Run returns
    with the lock still held.  From then on no step is possible: no
    Issue, Accept or Reject callback, which all need that lock, can run. *)
Theorem run_keeps_the_lock_when_out_of_txs
    (cfg : TestConfig) (t : tester) (ls : list label) (s : state) :
  exec cfg ls (initState t) = Some s →
  (at_pc s = Returned Completed ∨ at_pc s = Returned ParseFailed
   ∨ at_pc s = Returned IssueFailed → lockHeld s = false)
  ∧ (at_pc s = AtLoopTest ∨ at_pc s = Waiting → lockHeld s = false)
  ∧ (∀ i, at_pc s = Returned (RanOut i) →
       lockHeld s = true ∧ ∀ l, step cfg l s = None).
Proof.
  intros Hex.
  assert (lockHeld s = match at_pc s with
                       | AtWaitTest | PastWait | Returned (RanOut _) => true
                       | Returned Panicked => lockHeld s
                       | _ => false
                       end) as Hinv.
  { apply (exec_invariant cfg (λ s, lockHeld s = match at_pc s with
                       | AtWaitTest | PastWait | Returned (RanOut _) => true
                       | Returned Panicked => lockHeld s
                       | _ => false
                       end)) with ls (initState t); [|done|done].
    intros l s1 s2. apply lock_step. }
  split. { intros [Hpc|[Hpc|Hpc]]; by rewrite Hpc in Hinv. }
  split. { intros [Hpc|Hpc]; by rewrite Hpc in Hinv. }
  intros i Hpc. rewrite Hpc in Hinv. split; [done|].
  intros l. unfold step. rewrite Hpc, Hinv. by destruct l.
Qed.

Lemma parseAll_some parseFails k (l : list Tx) :
  parseAll parseFails k (Some <$> l) ≠ Panic
  ∧ parseAll None k (Some <$> l) = Ok l.
Proof.
  revert k. induction l as [|tx l IH]; intros k; cbn; [done|].
  destruct (IH (S k)) as [Hnp Hok]. split.
  - case_decide; [done|]. by destruct (parseAll parseFails (S k) (Some <$> l)).
  - rewrite decide_False by done. by rewrite Hok.
Qed.

(** What keeps the loop from panicking, step by step. *)
Lemma noPanic_step (cfg : TestConfig) (t : tester) l (s s' : state) :
  0 ≤ BatchSize cfg →
  LogFreq cfg ≠ 0 ∨ NumTxs cfg ≤ 1 →
  step cfg l s = Some s' →
  loopInv cfg t s ∧ at_pc s ≠ Returned Panicked
    ∧ (∃ l : list Tx, txs (me s) = Some <$> l) →
  loopInv cfg t s' ∧ at_pc s' ≠ Returned Panicked
    ∧ (∃ l : list Tx, txs (me s') = Some <$> l).
Proof.
  intros Hb Hlog Hstep (Hinv & Hnp & (q & Hq')).
  split; [by eapply loopInv_step|].
  pose proof (loop_range _ _ _ Hinv) as Hr.
  pose proof (loop_inside _ _ _ Hinv) as Hin.
  step_cases Hstep; simplify_eq; cbn; try (split; [done|by exists q]).
  - specialize (Hin eq_refl). rewrite nextTxs_spec in Hstep.
    assert (logTest cfg (loopVar s) ≠ Panic) as Hlt.
    { unfold logTest.
      destruct (decide (loopVar s = NumTxs cfg - 1)); [done|].
      destruct (decide (LogFreq cfg = 0)); [|done].
      destruct Hlog; [done|lia]. }
    assert (∀ (batch : list (option Tx)) (t1 : tester),
              (∃ l : list Tx, batch = Some <$> l) →
              (∃ l : list Tx, txs t1 = Some <$> l) →
              match parseAll parseFails 0 batch with
              | Panic => Some (mkState t1 (loopVar s) (Returned Panicked) true (submitted s))
              | Err _ => Some (mkState t1 (loopVar s) (Returned ParseFailed) false (submitted s))
              | Ok parsed =>
                  let t2 := foldl (λ t cb, (runCallback cb t).2) t1 during in
                  if issueFails
                  then Some (mkState t2 (loopVar s) (Returned IssueFailed) false (submitted s))
                  else
                    match logTest cfg (loopVar s) with
                    | Ok _ => Some (mkState t2 (loopVar s + 1) AtLoopTest false
                                      (submitted s ++ [parsed]))
                    | _ => Some (mkState t2 (loopVar s) (Returned Panicked) false
                                   (submitted s ++ [parsed]))
                    end
              end = Some s' →
              at_pc s' ≠ Returned Panicked ∧ ∃ l : list Tx, txs (me s') = Some <$> l)
      as Hbatch.
    { intros batch t1 [lb ->] [l1 Hl1] Hs'.
      destruct (parseAll_some parseFails 0 lb) as [Hpp _].
      destruct (parseAll parseFails 0 (Some <$> lb)); [| |done].
      - cbn zeta in Hs'. destruct issueFails; simplify_eq; cbn.
        + split; [done|]. exists l1. by rewrite runCallbacks_txs.
        + destruct (logTest cfg (loopVar s)) as [b'|e|] eqn:Hlog'; simplify_eq; cbn.
          * split; [done|]. exists l1. by rewrite runCallbacks_txs.
          * unfold logTest in Hlog'. by repeat case_decide.
      - simplify_eq. cbn. split; [done|]. by exists l1. }
    repeat case_decide; simplify_eq; cbn.
    + split; [done|]. by exists q.
    + apply (Hbatch (txs (me s)) (me s)); [by exists q|by exists q|done].
    + lia.
    + apply (Hbatch (take (Z.to_nat (BatchSize cfg)) (txs (me s)))
               (set_txs (drop (Z.to_nat (BatchSize cfg)) (txs (me s))) (me s)));
        [| |done].
      * exists (take (Z.to_nat (BatchSize cfg)) q). by rewrite Hq', fmap_take.
      * exists (drop (Z.to_nat (BatchSize cfg)) q). cbn. by rewrite Hq', fmap_drop.
  - destruct (runCallback cb (me s)) as [sig t1] eqn:Hcb. simplify_eq. cbn.
    split.
    + destruct (at_pc s) as [| | | | |o]; try done; cbn; by destruct sig.
    + exists q. pose proof (runCallback_txs cb (me s)) as Htx.
      rewrite Hcb in Htx. cbn in Htx. congruence.
Qed.

Lemma exec_noPanic (cfg : TestConfig) (t : tester) (ls : list label) (s : state) :
  (∃ l : list Tx, txs t = Some <$> l) →
  0 ≤ BatchSize cfg →
  LogFreq cfg ≠ 0 ∨ NumTxs cfg ≤ 1 →
  exec cfg ls (initState t) = Some s →
  loopInv cfg t s ∧ at_pc s ≠ Returned Panicked
    ∧ (∃ l : list Tx, txs (me s) = Some <$> l).
Proof.
  intros Hq Hb Hlog Hex.
  apply (exec_invariant cfg (λ s, loopInv cfg t s ∧ at_pc s ≠ Returned Panicked
            ∧ ∃ l : list Tx, txs (me s) = Some <$> l)) with ls (initState t);
    [|done|by split; [apply loopInv_init|]].
  intros l s1 s2 Hstep. by apply (noPanic_step cfg t l).
Qed.

(** X10. The loop of Run cannot panic when the queue holds no nil entry
    (as after generateTxs), the batch size is not negative and the log
    period is not zero (or at most one transaction is asked for): neither
    the slicing in nextTxs, nor [tx.Bytes()], nor [i%config.LogFreq] goes
    wrong, whatever the engine does meanwhile. *)
Theorem issuance_loop_never_panics
    (cfg : TestConfig) (t : tester) (ls : list label) (s : state) :
  (∃ l : list Tx, txs t = Some <$> l) →
  0 ≤ BatchSize cfg →
  LogFreq cfg ≠ 0 ∨ NumTxs cfg ≤ 1 →
  exec cfg ls (initState t) = Some s →
  at_pc s ≠ Returned Panicked ∧ ∃ l : list Tx, txs (me s) = Some <$> l.
Proof.
  intros Hq Hb Hlog Hex.
  by destruct (exec_noPanic cfg t ls s Hq Hb Hlog Hex) as (_ & ? & ?).
Qed.

(** *** Runs in which the engine takes every batch quietly *)

Lemma exec_app (cfg : TestConfig) ls1 ls2 (s : state) :
  exec cfg (ls1 ++ ls2) s =
    match exec cfg ls1 s with
    | Some s' => exec cfg ls2 s'
    | None => None
    end.
Proof.
  revert s. induction ls1 as [|l ls1 IH]; intros s; cbn; [done|].
  by destruct (step cfg l s).
Qed.

Lemma quietRun_S k : quietRun (S k) = quietBatch ++ quietRun k.
Proof. done. Qed.

Lemma quietRun_add j k : quietRun (j + k) = quietRun j ++ quietRun k.
Proof. unfold quietRun. by rewrite replicate_add, concat_app. Qed.

Lemma set_txs_same (t : tester) : set_txs (txs t) t = t.
Proof. by destruct t. Qed.

(** One quiet iteration, by the length of the queue. *)
Lemma quietBatch_exec (cfg : TestConfig) (t : tester) (q : list Tx) i sub :
  txs t = Some <$> q →
  i < NumTxs cfg →
  processingVtxs t ≤ MaxProcessingVtxs (config t) →
  0 ≤ BatchSize cfg → LogFreq cfg ≠ 0 →
  exec cfg quietBatch (mkState t i AtLoopTest false sub) =
    Some (if decide (q = []) then mkState t i (Returned (RanOut i)) true sub
          else if decide (Z.of_nat (length q) < BatchSize cfg)
          then mkState t (i + 1) AtLoopTest false (sub ++ [q])
          else mkState (set_txs (Some <$> drop (Z.to_nat (BatchSize cfg)) q) t)
                 (i + 1) AtLoopTest false
                 (sub ++ [take (Z.to_nat (BatchSize cfg)) q])).
Proof.
  intros Hq Hi Hpv Hb Hlog. cbn. rewrite decide_True by done. cbn.
  rewrite decide_False by lia. cbn. rewrite nextTxs_spec, Hq, length_fmap.
  assert (∀ (t1 : tester) sub',
            match logTest cfg i with
            | Ok _ => Some (mkState t1 (i + 1) AtLoopTest false sub')
            | _ => Some (mkState t1 i (Returned Panicked) false sub')
            end = Some (mkState t1 (i + 1) AtLoopTest false sub')) as Hlt.
  { intros t1 sub'. unfold logTest.
    destruct (decide (i = NumTxs cfg - 1)); [done|].
    by destruct (decide (LogFreq cfg = 0)). }
  destruct (decide (length q = 0%nat)) as [Hz|Hnz].
  { apply length_zero_iff_nil in Hz. by rewrite decide_True. }
  rewrite (decide_False (P := q = [])) by (by intros ->).
  destruct (decide (Z.of_nat (length q) < BatchSize cfg)).
  - rewrite (proj2 (parseAll_some None 0 q)). cbn. by rewrite Hlt.
  - rewrite decide_False by lia. rewrite <- fmap_take, <- fmap_drop.
    rewrite (proj2 (parseAll_some None 0 _)). cbn. by rewrite Hlt.
Qed.

(** While full batches remain, each quiet iteration takes the next one. *)
Lemma quietRun_full (cfg : TestConfig) (b : nat) (k : nat) :
  BatchSize cfg = Z.of_nat b → LogFreq cfg ≠ 0 →
  ∀ (t : tester) (q : list Tx) i sub,
    txs t = Some <$> q →
    (k * b ≤ length q)%nat → (1 ≤ b)%nat →
    i + Z.of_nat k ≤ NumTxs cfg →
    processingVtxs t ≤ MaxProcessingVtxs (config t) →
    exec cfg (quietRun k) (mkState t i AtLoopTest false sub) =
      Some (mkState (set_txs (Some <$> drop (k * b) q) t) (i + Z.of_nat k)
              AtLoopTest false (sub ++ chunks b k q)).
Proof.
  intros Hb Hlog. induction k as [|k IH]; intros t q i sub Hq Hlen Hb1 Hi Hpv.
  - cbn. rewrite drop_0, <- Hq, set_txs_same, app_nil_r, Z.add_0_r. done.
  - rewrite quietRun_S, exec_app.
    rewrite (quietBatch_exec cfg t q i sub) by (done || lia).
    rewrite decide_False by (intros ->; cbn in Hlen; lia).
    rewrite decide_False by (cbn in Hlen; lia).
    rewrite Hb, Nat2Z.id.
    rewrite (IH _ (drop b q)); [|done|rewrite length_drop; cbn in Hlen; lia|done|lia|done].
    cbn [chunks]. rewrite drop_drop, <- app_assoc. cbn.
    replace (i + 1 + Z.of_nat k) with (i + Z.of_nat (S k)) by lia.
    by destruct t.
Qed.

(** A queue shorter than the batch size is handed over whole and stays. *)
Lemma quietRun_short (cfg : TestConfig) (j : nat) :
  LogFreq cfg ≠ 0 →
  ∀ (t : tester) (q : list Tx) i sub,
    txs t = Some <$> q →
    q ≠ [] → Z.of_nat (length q) < BatchSize cfg →
    i + Z.of_nat j ≤ NumTxs cfg →
    processingVtxs t ≤ MaxProcessingVtxs (config t) →
    exec cfg (quietRun j) (mkState t i AtLoopTest false sub) =
      Some (mkState t (i + Z.of_nat j) AtLoopTest false (sub ++ replicate j q)).
Proof.
  intros Hlog. induction j as [|j IH]; intros t q i sub Hq Hne Hlen Hi Hpv.
  - cbn. by rewrite app_nil_r, Z.add_0_r.
  - rewrite quietRun_S, exec_app.
    rewrite (quietBatch_exec cfg t q i sub) by (done || lia).
    rewrite decide_False by done. rewrite decide_True by done.
    rewrite (IH t q) by (done || lia). cbn. rewrite <- app_assoc. cbn.
    do 2 f_equal. lia.
Qed.

Lemma concat_chunks {A} (b k : nat) (l : list A) :
  concat (chunks b k l) = take (k * b) l.
Proof.
  revert l. induction k as [|k IH]; intros l; cbn; [done|].
  by rewrite IH, take_take_drop.
Qed.

(** X11. A queue whose length is not a multiple of the batch size is never
    used up: after the full batches the remaining transactions, fewer than
    a batch, are handed to the engine again in every further iteration,
    because nextTxs returns them without removing them.  In a run of [n]
    iterations that the engine takes quietly, with [k] full batches of [b]
    in the queue and a shorter rest, Run completes having submitted the [k]
    batches once and the rest [n - k] times. *)
Theorem short_rest_is_submitted_again (cfg : TestConfig) (t : tester)
    (l : list Tx) (n b k : nat) :
  txs t = Some <$> l →
  NumTxs cfg = Z.of_nat n → BatchSize cfg = Z.of_nat b → LogFreq cfg ≠ 0 →
  processingVtxs t ≤ MaxProcessingVtxs (config t) →
  (k * b < length l < (k + 1) * b)%nat → (k ≤ n)%nat →
  ∃ s, exec cfg (quietRun n ++ [LFinish]) (initState t) = Some s
    ∧ at_pc s = Returned Completed
    ∧ submitted s = chunks b k l ++ replicate (n - k) (drop (k * b) l)
    ∧ txs (me s) = Some <$> drop (k * b) l
    ∧ length (concat (submitted s))
      = (k * b + (n - k) * (length l - k * b))%nat.
Proof.
  intros Hq Hn Hb Hlog Hpv Hlen Hk.
  assert (1 ≤ b)%nat as Hb1 by nia.
  assert (quietRun n = quietRun k ++ quietRun (n - k)) as ->
    by (rewrite <- quietRun_add; f_equal; lia).
  rewrite <- app_assoc, exec_app. unfold initState.
  rewrite (quietRun_full cfg b k Hb Hlog t l 0 []) by (done || lia).
  rewrite exec_app.
  rewrite (quietRun_short cfg (n - k) Hlog _ (drop (k * b) l)); cbn; try done.
  - rewrite decide_False by lia. cbn. eexists. split; [done|]. cbn.
    split; [done|]. split; [done|]. split; [done|].
    rewrite concat_app, length_app, concat_chunks, length_take.
    rewrite length_concat, fmap_replicate, sum_list_replicate, length_drop. lia.
  - intros Hnil. apply (f_equal length) in Hnil. rewrite length_drop in Hnil.
    cbn in Hnil. lia.
  - rewrite length_drop. lia.
  - lia.
Qed.

(** X12. A queue that holds exactly [k] full batches, fewer than the [n]
    iterations asked for, ends the run through the exhaustion path: after
    the [k] batches, each transaction submitted once and in order, the next
    iteration finds the queue empty and Run returns, reporting [k] as the
    number issued, with the engine's lock still held. *)
Theorem full_batches_end_by_exhaustion (cfg : TestConfig) (t : tester)
    (l : list Tx) (n b k : nat) :
  txs t = Some <$> l →
  NumTxs cfg = Z.of_nat n → BatchSize cfg = Z.of_nat b → LogFreq cfg ≠ 0 →
  processingVtxs t ≤ MaxProcessingVtxs (config t) →
  (1 ≤ b)%nat → length l = (k * b)%nat → (k < n)%nat →
  ∃ s, exec cfg (quietRun k ++ quietBatch) (initState t) = Some s
    ∧ at_pc s = Returned (RanOut (Z.of_nat k))
    ∧ lockHeld s = true
    ∧ submitted s = chunks b k l
    ∧ concat (submitted s) = l
    ∧ txs (me s) = [].
Proof.
  intros Hq Hn Hb Hlog Hpv Hb1 Hlen Hk.
  rewrite exec_app. unfold initState.
  rewrite (quietRun_full cfg b k Hb Hlog t l 0 []) by (done || lia).
  rewrite (quietBatch_exec cfg _ (drop (k * b) l)); cbn; try done; try lia.
  rewrite drop_ge by lia. cbn. rewrite decide_True by done.
  eexists. split; [done|]. cbn.
  split; [done|]. split; [done|]. split; [done|]. split; [|done].
  rewrite concat_chunks. apply take_ge. lia.
Qed.

(** X13. Run does not check [LogFreq]: with a zero period and at least two
    transactions asked for, the first batch that the engine accepts is
    followed by a division by zero in [i%config.LogFreq].  No execution
    gets past the first iteration or completes, and the quiet one panics
    with one batch submitted and the lock released. *)
Theorem zero_LogFreq_panics_after_the_first_batch (cfg : TestConfig) (t : tester)
    (l : list Tx) :
  LogFreq cfg = 0 → 2 ≤ NumTxs cfg → 1 ≤ BatchSize cfg →
  txs t = Some <$> l → l ≠ [] →
  processingVtxs t ≤ MaxProcessingVtxs (config t) →
  (∃ s, exec cfg quietBatch (initState t) = Some s
     ∧ at_pc s = Returned Panicked
     ∧ lockHeld s = false
     ∧ submitted s = [take (Z.to_nat (BatchSize cfg)) l])
  ∧ (∀ ls s, exec cfg ls (initState t) = Some s →
       loopVar s = 0 ∧ at_pc s ≠ Returned Completed).
Proof.
  intros Hlog Hn Hb Hq Hne Hpv. split.
  - cbn. rewrite decide_True by lia. cbn. rewrite decide_False by lia. cbn.
    rewrite nextTxs_spec, Hq, length_fmap.
    rewrite decide_False by (intros Hz%length_zero_iff_nil; done).
    assert (logTest cfg 0 = Panic) as Hlt.
    { unfold logTest. rewrite decide_False by lia. by rewrite decide_True. }
    destruct (decide (Z.of_nat (length l) < BatchSize cfg)) as [Hshort|Hfull].
    + rewrite (proj2 (parseAll_some None 0 l)). cbn. rewrite Hlt.
      eexists. split; [done|]. cbn. split; [done|]. split; [done|].
      by rewrite take_ge by lia.
    + rewrite decide_False by lia. rewrite <- fmap_take.
      rewrite (proj2 (parseAll_some None 0 _)). cbn. rewrite Hlt.
      eexists. by split.
  - intros ls s Hex.
    apply (exec_invariant cfg (λ s, loopVar s = 0 ∧ at_pc s ≠ Returned Completed))
      with ls (initState t); [|done|done].
    clear ls s Hex. intros lb s s' Hstep [Hi Hpc].
    step_cases Hstep; simplify_eq; cbn; try done; try lia.
    + destruct (nextTxs (BatchSize cfg) (me s)) as [[batch|e|] t1]; simplify_eq;
        try done.
      destruct (parseAll parseFails 0 batch); simplify_eq; try done.
      destruct issueFails; simplify_eq; try done.
      unfold logTest in Hstep. rewrite Hi in Hstep.
      rewrite decide_False in Hstep by lia.
      rewrite decide_True in Hstep by done. by simplify_eq.
    + destruct (runCallback cb (me s)) as [sig t1]. simplify_eq. cbn.
      split; [done|]. destruct (at_pc s) as [| | | | |o]; try done; by destruct sig.
Qed.

(** ** tester.go: the callbacks *)

Lemma wrapInt_add_l a b : wrapInt (wrapInt a + b) = wrapInt (a + b).
Proof.
  unfold wrapInt. f_equal.
  replace ((a + 2 ^ 63) `mod` 2 ^ 64 - 2 ^ 63 + b + 2 ^ 63)
    with ((a + 2 ^ 63) `mod` 2 ^ 64 + b) by lia.
  rewrite Zplus_mod_idemp_l. f_equal. lia.
Qed.

(** X14. The callbacks only count: after any sequence of Issue, Accept and
    Reject calls the counter is its initial value plus the number of Issue
    calls minus the number of Accept and Reject calls, in [int]
    arithmetic, and nothing else in the tester has changed.  The counter is
    not kept from going below zero. *)
Theorem callbacks_only_count (cbs : list callback) (t : tester) :
  is_int (processingVtxs t) →
  processingVtxs (foldl (λ t cb, (runCallback cb t).2) t cbs)
    = wrapInt (processingVtxs t + netCount cbs)
  ∧ set_processingVtxs (processingVtxs t)
      (foldl (λ t cb, (runCallback cb t).2) t cbs) = t.
Proof.
  revert t. induction cbs as [|cb cbs IH]; intros t Hint; cbn.
  - rewrite Z.add_0_r, wrapInt_small by done. split; [done|by destruct t].
  - destruct (IH (runCallback cb t).2) as [Hpv Hrest].
    { destruct cb; cbn; apply wrapInt_range. }
    rewrite Hpv. split.
    + fold (netCount cbs).
      destruct cb; cbn [runCallback];
        rewrite ?Reject_spec, ?Accept_spec, ?Issue_spec; cbn;
        rewrite wrapInt_add_l; f_equal; lia.
    + revert Hrest. generalize (foldl (λ t cb, (runCallback cb t).2)
                                  (runCallback cb t).2 cbs).
      intros t' Hrest.
      assert (set_processingVtxs (processingVtxs t) (runCallback cb t).2 = t) as <-
        by (by destruct cb, t).
      rewrite <- Hrest at 2. by destruct t'.
Qed.

(** ** api/xput/service.go *)

Lemma wrapInt_u64 z :
  is_u64 z →
  (z ≤ MaxInt → wrapInt z = z) ∧ (MaxInt < z → wrapInt z = z - 2 ^ 64).
Proof.
  unfold is_u64, MaxUint64, MaxInt, wrapInt. intros Hz. split; intros Hle.
  - rewrite Z.mod_small; lia.
  - replace (z + 2 ^ 63) with ((z - 2 ^ 63) + 1 * 2 ^ 64) by lia.
    rewrite Z_mod_plus_full, Z.mod_small; lia.
Qed.

Lemma frequency_range n :
  frequency n ≠ 0 ∧ (0 ≤ n → 1 ≤ frequency n ≤ 1000).
Proof.
  unfold frequency. split.
  - repeat case_decide; lia.
  - intros Hn. pose proof (Z.quot_pos n 50 Hn ltac:(lia)).
    repeat case_decide; lia.
Qed.

Lemma progress_log_lemma (args : RunArgs) (key : PrivateKey) :
  LogFreq (runConfig args key) ≠ 0
  ∧ LogFreq (runConfig args key) = frequency (wrapInt (argNumTxs args)).
Proof. split; [|done]. apply frequency_range. Qed.

(** X15. The periods of the two progress logs are never zero, so neither
    [numGenerated%frequency] in generateTxs nor, for a run started through
    the API, [i%config.LogFreq] in Run can divide by zero; for a
    non-negative number of transactions they lie between 1 and 1000, and
    the API computes the same period as generateTxs. *)
Theorem progress_log_periods (numTxs : Z) (args : RunArgs) (key : PrivateKey) :
  frequency numTxs ≠ 0
  ∧ (0 ≤ numTxs → 1 ≤ frequency numTxs ≤ 1000)
  ∧ LogFreq (runConfig args key) = frequency (NumTxs (runConfig args key))
  ∧ (∀ i, logTest (runConfig args key) i ≠ Panic)
  ∧ (0 ≤ argNumTxs args ≤ MaxInt →
       NumTxs (runConfig args key) = argNumTxs args
       ∧ 1 ≤ LogFreq (runConfig args key) ≤ 1000).
Proof.
  destruct (frequency_range numTxs) as [Hnz Hr].
  destruct (progress_log_lemma args key) as [Hl1 Hl2].
  split; [done|]. split; [done|]. split; [done|]. split.
  - intros i. unfold logTest. case_decide; [done|]. by rewrite decide_False.
  - intros Hn. rewrite Hl2.
    assert (wrapInt (argNumTxs args) = argNumTxs args) as Hw
      by (apply wrapInt_small; unfold is_int, MinInt, MaxInt in *; lia).
    split; [exact Hw|]. rewrite Hw. apply (proj2 (frequency_range _)). lia.
Qed.

(** X16. A run started through the API with a batch size below 2^63 cannot
    panic in the loop of Run: the zero defaults are replaced (batch size 10,
    maximum 50), so the batch size is at least 1 and the log period is not
    zero, and the queue that a successful setup leaves holds no nil entry.
    The maximum handed to the tester is never 0, and at least 1 when the
    argument is below 2^63. *)
Theorem api_run_never_panics_in_the_loop (svc : service) (args : RunArgs)
    (key : PrivateKey) (t : tester) :
  is_u64 (argBatchSize args) → argBatchSize args ≤ MaxInt →
  is_u64 (argMaxProcessingVtxs args) →
  RunSetup (runConfig args key) (NewTester (testerConfig svc args)) = (Ok tt, t) →
  1 ≤ BatchSize (runConfig args key)
  ∧ (argBatchSize args = 0 → BatchSize (runConfig args key) = 10)
  ∧ MaxProcessingVtxs (config t) ≠ 0
  ∧ (argMaxProcessingVtxs args = 0 → MaxProcessingVtxs (config t) = 50)
  ∧ (argMaxProcessingVtxs args ≤ MaxInt → 1 ≤ MaxProcessingVtxs (config t))
  ∧ Z.of_nat (length (txs t)) = NumTxs (runConfig args key)
  ∧ ∀ ls s, exec (runConfig args key) ls (initState t) = Some s →
            at_pc s ≠ Returned Panicked.
Proof.
  intros Hb Hbmax Hm Hsetup.
  assert (BatchSize (runConfig args key)
          = if decide (argBatchSize args = 0) then 10 else argBatchSize args) as HB.
  { cbn. unfold defaultBatchSize. case_decide; [done|].
    by apply wrapInt_u64. }
  assert (config t = testerConfig svc args
          ∧ (∃ l : list Tx, txs t = Some <$> l)
          ∧ length (txs t) = Z.to_nat (NumTxs (runConfig args key))
          ∧ 0 ≤ NumTxs (runConfig args key)) as (Hc & Hq & Hlen & Hn).
  { unfold RunSetup, importKey in Hsetup.
    unfold mbind, M_bind, modify, gets in Hsetup.
    match type of Hsetup with context [addUTXO ?u ?t0] =>
      destruct (addUTXO u t0) as [[[]|e|] t1] eqn:Hadd end; [|done..].
    apply addUTXO_frame in Hadd as (Hc1 & _). cbn in Hc1.
    apply generateTxs_queue in Hsetup as (Hn & Hlen & Hq & Hc2 & _).
    split; [by rewrite Hc2, Hc1|]. by split_and!. }
  rewrite Hc. unfold is_u64, MaxUint64, MaxInt in *.
  assert (1 ≤ BatchSize (runConfig args key)) as HB1.
  { rewrite HB. destruct (decide (argBatchSize args = 0)); lia. }
  split; [done|].
  split; [intros Hz; rewrite HB; by rewrite decide_True|].
  assert (MaxProcessingVtxs (testerConfig svc args)
          = wrapInt (if decide (argMaxProcessingVtxs args = 0) then 50
                     else argMaxProcessingVtxs args)) as HM by done.
  split.
  { rewrite HM. case_decide; [by vm_compute|].
    destruct (decide (argMaxProcessingVtxs args ≤ MaxInt)) as [Hle|Hgt].
    - rewrite (proj1 (wrapInt_u64 _ Hm)); done.
    - rewrite (proj2 (wrapInt_u64 _ Hm)); unfold MaxInt in *; lia. }
  split; [intros Hz; rewrite HM; by rewrite decide_True|].
  split.
  { intros Hle. rewrite HM. case_decide; [by vm_compute|].
    rewrite (proj1 (wrapInt_u64 _ Hm)); unfold MaxInt; lia. }
  split; [lia|].
  intros ls s Hex.
  destruct (exec_noPanic (runConfig args key) t ls s) as (_ & ? & _); try done.
  - lia.
  - left. by destruct (progress_log_lemma args key) as [? _].
Qed.

Lemma addUTXO_returns (utxo : UTXO) (t : tester) :
  ∃ t', addUTXO utxo t = (Ok tt, t').
Proof.
  unfold addUTXO. destruct (Out utxo); try (by eexists).
  run_M. destruct (kcSpend _ _ _); by eexists.
Qed.

(** X17. The API converts the requested number of transactions to [int]
    unchecked: a request for 2^63 or more becomes negative, and once the key
    is imported and has an address, generateTxs panics in
    [make([]*avm.Tx, numTxs)]. *)
Theorem api_numTxs_beyond_int_panics (svc : service) (args : RunArgs)
    (key : PrivateKey) :
  is_u64 (argNumTxs args) → MaxInt < argNumTxs args →
  take 1 (kcAddresses (kcAdd NewKeychain key)) ≠ [] →
  NumTxs (runConfig args key) < 0
  ∧ (RunSetup (runConfig args key) (NewTester (testerConfig svc args))).1 = Panic.
Proof.
  intros Hn Hbig Haddr.
  assert (NumTxs (runConfig args key) < 0) as Hneg.
  { cbn. rewrite (proj2 (wrapInt_u64 _ Hn)) by done.
    unfold is_u64, MaxUint64 in Hn. lia. }
  split; [done|].
  unfold RunSetup, importKey. unfold mbind, M_bind, modify, gets.
  match goal with |- context [addUTXO ?u ?t0] =>
    destruct (addUTXO_returns u t0) as [t1 Hadd]; rewrite Hadd end.
  pose proof (addUTXO_frame _ _ _ _ Hadd) as (_ & Hk & _). cbn in Hk.
  unfold generateTxs. unfold mbind, M_bind, gets.
  rewrite Hk. destruct (take 1 _) as [|addr addrs]; [done|].
  by rewrite decide_True.
Qed.

End AvmtesterProofs.

(** * The concrete wallet at work *)

#[local] Existing Instance Scenario.world.

(** ** The generated chain of self-payments *)

(** C8 (amended). With a deposit of 1000 units, fee 0 and outputs in
    canonical order, generating 5 single-unit self-payments succeeds and
    leaves the wallet holding exactly 1000 units of the asset: every payment
    returns to the wallet.  They sit in four UTXOs, three payment outputs
    of 1 unit and the last transaction's change output of 997 units. *)
Theorem five_self_payments_keep_the_deposit :
  let cfg := Scenario.testConfig 5 1000 1 in
  let t := Scenario.funded 0 50 cfg in
  (RunSetup cfg (Scenario.fresh 0 50)).1 = Ok tt
  ∧ balanceOf (balance t) Scenario.avax = 1000
  ∧ sumAsset Scenario.avax (UTXOs (utxoSet t)) = 1000
  ∧ Scenario.heldAmounts t = [1; 1; 1; 997]
  ∧ length (txs t) = 5%nat
  ∧ Scenario.lastTxOutputs t = Some [1; 997].
Proof. vm_compute. repeat split. Qed.

(** The wallet does not end with 995 units in one UTXO. *)
Lemma five_self_payments_not_995_in_one_utxo :
  let t := Scenario.funded 0 50 (Scenario.testConfig 5 1000 1) in
  ¬ (balanceOf (balance t) Scenario.avax = 995
     ∧ length (UTXOs (utxoSet t)) = 1%nat).
Proof. vm_compute. intros [? ?]. discriminate. Qed.

(** *** Any deposit, any number of payments

    The canonical sorts of the concrete wallet are insertion sorts and its
    keychain returns the amount it is given, so the conservation of the
    balance holds in it for every deposit and every length of the chain. *)

Lemma insertBy_perm {A} (le : A → A → bool) (x : A) (l : list A) :
  Scenario.insertBy le x l ≡ₚ x :: l.
Proof.
  induction l as [|y l IH]; cbn; [done|].
  destruct (le x y); [done|]. rewrite IH. apply Permutation_swap.
Qed.

Lemma sortBy_perm {A} (le : A → A → bool) (l : list A) :
  Scenario.sortBy le l ≡ₚ l.
Proof.
  unfold Scenario.sortBy. induction l as [|x l IH]; cbn; [done|].
  by rewrite insertBy_perm, IH.
Qed.

Lemma sortInputs_perm ins (keys : list (list Scenario.PrivateKey)) :
  length ins = length keys → (Scenario.sortInputs ins keys).1 ≡ₚ ins.
Proof.
  intros Hlen. unfold Scenario.sortInputs. cbn.
  rewrite sortBy_perm. rewrite fst_zip; [done|].
  unfold Scenario.ID in Hlen. by rewrite Hlen.
Qed.

Lemma spend_same_amount (kc : Scenario.Keychain) amt owners time inAmt sigs signers :
  Scenario.spend kc (TransferOutput amt owners) time
    = Some (TransferInput inAmt sigs, signers) →
  inAmt = amt.
Proof.
  cbn. destruct (Scenario.kcMatch kc owners time) as [[sigs' keys']|]; [|done].
  by intros [= -> _ _].
Qed.

Lemma self_payments_keep_any_deposit (n amount maxVtxs : Z) :
  is_u64 amount → 0 ≤ n →
  ∃ r t', RunSetup (Scenario.testConfig n amount 1) (Scenario.fresh 0 maxVtxs) = (r, t')
    ∧ r ≠ Panic
    ∧ (r = Ok tt → balanceOf (balance t') Scenario.avax = amount).
Proof.
  intros Hamt Hn.
  destruct (RunSetup_keeps_the_deposit (external := Scenario.world)
              sortInputs_perm (λ outs, sortBy_perm _ outs) spend_same_amount
              (Scenario.testConfig n amount 1)
              (mkConfig 12345 [1] 0 0 Scenario.avax maxVtxs))
    as (r & t' & Hrun & Hnp & _ & Hbal); try done.
  exists r, t'. split; [done|]. split; [done|].
  intros Hr. specialize (Hbal Hr). cbn in Hbal.
  rewrite Z.mul_0_r, Z.sub_0_r, wrap64_small in Hbal; done.
Qed.

(** *** Ids of the concrete wallet

    Its ids are serialisations: they do not collide, the id of a
    transaction contains the ids of what it spends, and so is longer than
    each of them. *)







(** ** Where the code departs from its description *)

(** C4. The target [amount+t.TxFee] is added in [uint64] without a check:
    with a fee of 1 and an amount of 2^64-1 it wraps to 0, and createTx
    succeeds on a wallet holding 5 units, consuming inputs worth 5 against
    an exact amount + fee of 2^64 and paying out 2^64-1 plus 5 of change. *)
Theorem createTx_wrapped_target_is_underfunded :
  let t := Scenario.funded 1 50 (Scenario.testConfig 0 5 1) in
  match (createTx Scenario.avax MaxUint64 7%nat 7%nat 0 t).1 with
  | Ok tx =>
      sumInputs tx = 5
      ∧ map Scenario.outAmount (Outs (UnsignedTx tx)) = [5; MaxUint64]
      ∧ sumInputs tx < MaxUint64 + TxFee (config t)
  | _ => False
  end.
Proof. vm_compute. repeat split. Qed.

(** C2. With maximum 0 and one vertex outstanding the loop is parked;
    Accept (and Reject) bring the counter to 0, which is at the maximum, but
    do not call Signal, and the loop stays parked. *)
Theorem accept_at_the_maximum_wakes_nobody :
  let cfg := Scenario.testConfig 5 1000 1 in
  match exec cfg (Scenario.iteration ++ [LLock; LBlock])
          (initState (Scenario.funded 0 0 cfg)) with
  | Some s =>
      at_pc s = Waiting
      ∧ processingVtxs (me s) = 1
      ∧ MaxProcessingVtxs (config (me s)) = 0
      ∧ (Accept (me s)).1 = Ok false
      ∧ (Reject (me s)).1 = Ok false
      ∧ match step cfg (LCallback CbAccept) s with
        | Some s' =>
            at_pc s' = Waiting
            ∧ processingVtxs (me s') = 0
            ∧ processingVtxs (me s') ≤ MaxProcessingVtxs (config (me s'))
        | None => False
        end
  | None => False
  end.
Proof. vm_compute. repeat split; discriminate. Qed.

(** C3. nextTxs on a sequence shorter than the request returns all of it
    and leaves it in place: the next call returns the same transactions
    again, and the sequence never becomes empty. *)
Theorem nextTxs_keeps_a_short_sequence :
  let t := Scenario.funded 0 50 (Scenario.testConfig 1 1000 2) in
  length (txs t) = 1%nat
  ∧ (nextTxs 2 t).1 = Ok (txs t)
  ∧ txs (nextTxs 2 t).2 = txs t
  ∧ (nextTxs 2 (nextTxs 2 t).2).1 = Ok (txs t).
Proof. vm_compute. repeat split. Qed.

(** ** Counterexamples to the claims as first stated *)


(** Adding the same UTXO twice counts it twice in the table, and two UTXOs
    worth 2^64 together leave a balance of 0. *)
Lemma balance_differs_on_repeated_or_overflowing_add :
  let t := (importKey 7%nat (Scenario.fresh 0 50)).2 in
  let twice :=
    (addUTXO (Scenario.ownedBy7 1000 0) (addUTXO (Scenario.ownedBy7 1000 0) t).2).2 in
  let big :=
    (addUTXO (Scenario.ownedBy7 1 1) (addUTXO (Scenario.ownedBy7 MaxUint64 0) t).2).2 in
  (balanceOf (balance twice) Scenario.avax = 2000
   ∧ sumAsset Scenario.avax (UTXOs (utxoSet twice)) = 1000)
  ∧ (balanceOf (balance big) Scenario.avax = 0
     ∧ sumAsset Scenario.avax (UTXOs (utxoSet big)) = 2 ^ 64).
Proof. vm_compute. repeat split. Qed.


(** ** The theorems at concrete inputs *)


(** The balance table of C6 after two adds of new UTXOs and a remove. *)
Lemma balance_table_after_two_adds_and_a_remove :
  let t0 := (importKey 7%nat (Scenario.fresh 0 50)).2 in
  let t1 := (addUTXO (Scenario.ownedBy7 1000 0) t0).2 in
  let t2 := (addUTXO (Scenario.ownedBy7 5 1) t1).2 in
  let t3 := (removeUTXO (InputID (utxoID (Scenario.ownedBy7 1000 0))) t2).2 in
  bookkept t3
  ∧ balanceOf (balance t3) Scenario.avax
      = wrap64 (sumAsset Scenario.avax (UTXOs (utxoSet t3))).
Proof.
  intros t0 t1 t2 t3.
  assert (bookkept t3) as Hb.
  { apply bookkept_remove. apply bookkept_add; [|by vm_compute].
    apply bookkept_add; [|by vm_compute].
    apply bookkept_import. apply bookkept_new. }
  split; [exact Hb|].
  exact (proj1 (balance_table_matches_utxo_set t3 Hb) Scenario.avax).
Defined.


(** C10 for the UTXO of [TestTesterAddInvalidUTXO], which has no output. *)
Lemma addUTXO_without_output_is_noop :
  let utxo := mkUTXO Scenario.genesis Scenario.avax NilOutput in
  isTransferableOut (Out utxo) = false
  ∧ addUTXO utxo (Scenario.fresh 0 50) = (Ok tt, Scenario.fresh 0 50).
Proof.
  intros utxo. split; [reflexivity|].
  exact (proj1 (addUTXO_invalid_is_noop utxo (Scenario.fresh 0 50)
                  (or_introl eq_refl))).
Defined.

(** ** The further properties at concrete inputs *)

(** X1 for the first Put on an empty set. *)
Lemma first_Put_is_found :
  inSync Scenario.noUTXOs
  ∧ Get (Put Scenario.noUTXOs (Scenario.ownedBy7 1000 0))
        (inputKey (Scenario.ownedBy7 1000 0))
    = Ok (Some (Scenario.ownedBy7 1000 0)).
Proof.
  assert (inSync Scenario.noUTXOs) as Hs by apply inSync_empty.
  split; [exact Hs|].
  pose proof (Put_never_replaces Scenario.noUTXOs (Scenario.ownedBy7 1000 0) Hs)
    as (_ & _ & _ & Hnew).
  exact (proj1 (Hnew eq_refl)).
Defined.

(** X2 for the same UTXO. *)
Lemma first_Put_is_undone :
  Get Scenario.noUTXOs (inputKey (Scenario.ownedBy7 1000 0)) = Ok None
  ∧ Remove (Put Scenario.noUTXOs (Scenario.ownedBy7 1000 0))
           (inputKey (Scenario.ownedBy7 1000 0))
    = Ok (Scenario.noUTXOs, Some (Scenario.ownedBy7 1000 0)).
Proof.
  split; [reflexivity|].
  exact (proj2 (Remove_undoes_Put Scenario.noUTXOs (Scenario.ownedBy7 1000 0)
                  eq_refl)).
Defined.

(** X3 for the deposit on the wallet that holds key 7. *)
Lemma deposit_added_and_removed :
  isTransferableOut (Out (Scenario.ownedBy7 1000 0)) = true
  ∧ is_Some (kcSpend (keychain Scenario.keyed) (Out (Scenario.ownedBy7 1000 0))
               MaxUint64)
  ∧ Get (utxoSet Scenario.keyed) (inputKey (Scenario.ownedBy7 1000 0)) = Ok None
  ∧ is_u64 (balanceOf (balance Scenario.keyed) (Asset (Scenario.ownedBy7 1000 0)))
  ∧ ∃ t1 t2,
      addUTXO (Scenario.ownedBy7 1000 0) Scenario.keyed = (Ok tt, t1)
      ∧ removeUTXO (inputKey (Scenario.ownedBy7 1000 0)) t1 = (Ok tt, t2)
      ∧ utxoSet t2 = utxoSet Scenario.keyed.
Proof.
  assert (is_Some (kcSpend (keychain Scenario.keyed)
                     (Out (Scenario.ownedBy7 1000 0)) MaxUint64)) as Hsp
    by (vm_compute; eauto).
  assert (is_u64 (balanceOf (balance Scenario.keyed)
                    (Asset (Scenario.ownedBy7 1000 0)))) as Hr
    by (vm_compute; split; discriminate).
  split; [reflexivity|]. split; [exact Hsp|]. split; [reflexivity|].
  split; [exact Hr|].
  destruct (removeUTXO_undoes_addUTXO Scenario.keyed (Scenario.ownedBy7 1000 0)
              eq_refl Hsp eq_refl Hr) as (t1 & t2 & Hadd & Hrm & _ & Hus & _).
  exists t1, t2. split; [exact Hadd|]. split; [exact Hrm|exact Hus].
Defined.

(** X5 for a payment of 10 units out of the deposit. *)
Lemma payment_of_ten_conserves_value :
  0 ≤ 10
  ∧ createTx Scenario.avax 10 7%nat 7%nat 0 Scenario.deposited
    = (Ok Scenario.paid, Scenario.deposited)
  ∧ sumInputs Scenario.paid
    = sumOuts Scenario.avax (Outs (UnsignedTx Scenario.paid))
      + TxFee (config Scenario.deposited).
Proof.
  assert (createTx Scenario.avax 10 7%nat 7%nat 0 Scenario.deposited
          = (Ok Scenario.paid, Scenario.deposited)) as Hc
    by (vm_compute; reflexivity).
  split; [lia|]. split; [exact Hc|].
  refine (proj1 (createTx_conserves_value sortInputs_perm
                   (λ outs, sortBy_perm _ outs) _ _ _ _ _ _ _ _ _ _ _ Hc)).
  - lia.
  - vm_compute. discriminate.
  - vm_compute. discriminate.
Defined.

(** X6 for the same payment. *)
Lemma payment_of_ten_spends_the_deposit_once :
  inSync (utxoSet Scenario.deposited)
  ∧ createTx Scenario.avax 10 7%nat 7%nat 0 Scenario.deposited
    = (Ok Scenario.paid, Scenario.deposited)
  ∧ NoDup (InputID <$> InputUTXOs Scenario.paid).
Proof.
  assert (inSync (utxoSet Scenario.deposited)) as Hs.
  { change (utxoSet Scenario.deposited)
      with (Put Scenario.noUTXOs (Scenario.ownedBy7 1000 0)).
    apply inSync_Put, inSync_empty. }
  assert (createTx Scenario.avax 10 7%nat 7%nat 0 Scenario.deposited
          = (Ok Scenario.paid, Scenario.deposited)) as Hc
    by (vm_compute; reflexivity).
  split; [exact Hs|]. split; [exact Hc|].
  exact (proj1 (createTx_spends_held_utxos_once sortInputs_perm
                  (λ outs, sortBy_perm _ outs) _ _ _ _ _ _ _ _ Hs Hc)).
Defined.

(** X8 for two transactions generated on the deposit. *)
Lemma two_generated_transactions_fill_the_queue :
  generateTxs 2 Scenario.avax Scenario.deposited = (Ok tt, Scenario.generated)
  ∧ ∃ l, txs Scenario.generated = Some <$> l ∧ Z.of_nat (length l) = 2.
Proof.
  assert (generateTxs 2 Scenario.avax Scenario.deposited
          = (Ok tt, Scenario.generated)) as Hg by (vm_compute; reflexivity).
  split; [exact Hg|].
  exact (proj1 (proj2 (generateTxs_fills_the_queue _ _ _ _ Hg))).
Defined.

(** X9 for two transactions in batches of two: the second iteration finds
    the queue empty. *)
Lemma run_of_one_full_batch_keeps_the_lock :
  let cfg := Scenario.testConfig 2 1000 2 in
  let t := Scenario.funded 0 50 cfg in
  let s := Scenario.endOf cfg (quietRun 1 ++ quietBatch) t in
  exec cfg (quietRun 1 ++ quietBatch) (initState t) = Some s
  ∧ at_pc s = Returned (RanOut 1)
  ∧ lockHeld s = true
  ∧ ∀ l, step cfg l s = None.
Proof.
  intros cfg t s.
  assert (exec cfg (quietRun 1 ++ quietBatch) (initState t) = Some s) as Hex
    by (vm_compute; reflexivity).
  assert (at_pc s = Returned (RanOut 1)) as Hpc by (vm_compute; reflexivity).
  split; [exact Hex|]. split; [exact Hpc|].
  exact (proj2 (proj2 (run_keeps_the_lock_when_out_of_txs cfg t _ s Hex)) 1 Hpc).
Defined.

(** X10 for the run of five batches of one transaction. *)
Lemma five_batches_of_one_do_not_panic :
  let cfg := Scenario.testConfig 5 1000 1 in
  let t := Scenario.funded 0 50 cfg in
  txs t = Some <$> Scenario.queued t
  ∧ exec cfg Scenario.fiveIterations (initState t)
    = Some (Scenario.endOf cfg Scenario.fiveIterations t)
  ∧ at_pc (Scenario.endOf cfg Scenario.fiveIterations t) ≠ Returned Panicked.
Proof.
  intros cfg t.
  assert (txs t = Some <$> Scenario.queued t) as Hq by (vm_compute; reflexivity).
  assert (exec cfg Scenario.fiveIterations (initState t)
          = Some (Scenario.endOf cfg Scenario.fiveIterations t)) as Hex
    by (vm_compute; reflexivity).
  split; [exact Hq|]. split; [exact Hex|].
  refine (proj1 (issuance_loop_never_panics cfg t _ _
                   (ex_intro _ (Scenario.queued t) Hq) _ _ Hex)).
  - vm_compute. discriminate.
  - left. vm_compute. discriminate.
Defined.

(** X11 for three transactions and the default batch size of 10: each of
    the three is handed to the engine three times. *)
Lemma three_transactions_in_batches_of_ten :
  let cfg := Scenario.testConfig 3 1000 10 in
  let t := Scenario.funded 0 50 cfg in
  txs t = Some <$> Scenario.queued t
  ∧ (0 * 10 < length (Scenario.queued t) < (0 + 1) * 10)%nat
  ∧ ∃ s, exec cfg (quietRun 3 ++ [LFinish]) (initState t) = Some s
      ∧ at_pc s = Returned Completed
      ∧ submitted s = replicate 3 (Scenario.queued t)
      ∧ length (concat (submitted s)) = 9%nat.
Proof.
  intros cfg t.
  assert (txs t = Some <$> Scenario.queued t) as Hq by (vm_compute; reflexivity).
  assert (0 * 10 < length (Scenario.queued t) < (0 + 1) * 10)%nat as Hlen
    by (vm_compute; lia).
  split; [exact Hq|]. split; [exact Hlen|].
  destruct (short_rest_is_submitted_again cfg t (Scenario.queued t) 3 10 0 Hq
              eq_refl eq_refl) as (s & Hex & Hpc & Hsub & _ & Hcount).
  - vm_compute. discriminate.
  - vm_compute. discriminate.
  - exact Hlen.
  - lia.
  - exists s. split; [exact Hex|]. split; [exact Hpc|]. split; [exact Hsub|].
    rewrite Hcount. vm_compute. reflexivity.
Defined.

(** X12 for two transactions in batches of two. *)
Lemma two_transactions_in_one_batch_run_out :
  let cfg := Scenario.testConfig 2 1000 2 in
  let t := Scenario.funded 0 50 cfg in
  txs t = Some <$> Scenario.queued t
  ∧ length (Scenario.queued t) = (1 * 2)%nat
  ∧ ∃ s, exec cfg (quietRun 1 ++ quietBatch) (initState t) = Some s
      ∧ at_pc s = Returned (RanOut 1)
      ∧ lockHeld s = true
      ∧ concat (submitted s) = Scenario.queued t.
Proof.
  intros cfg t.
  assert (txs t = Some <$> Scenario.queued t) as Hq by (vm_compute; reflexivity).
  assert (length (Scenario.queued t) = (1 * 2)%nat) as Hlen
    by (vm_compute; reflexivity).
  split; [exact Hq|]. split; [exact Hlen|].
  destruct (full_batches_end_by_exhaustion cfg t (Scenario.queued t) 2 2 1 Hq
              eq_refl eq_refl) as (s & Hex & Hpc & Hlock & _ & Hall & _).
  - vm_compute. discriminate.
  - vm_compute. discriminate.
  - lia.
  - exact Hlen.
  - lia.
  - exists s. split; [exact Hex|]. split; [exact Hpc|]. split; [exact Hlock|exact Hall].
Defined.

(** X13 for two transactions and a log period left at zero. *)
Lemma run_with_zero_log_period_panics :
  let t := Scenario.funded 0 50 (Scenario.testConfig 2 1000 1) in
  LogFreq Scenario.unchecked = 0
  ∧ txs t = Some <$> Scenario.queued t
  ∧ ∃ s, exec Scenario.unchecked quietBatch (initState t) = Some s
      ∧ at_pc s = Returned Panicked.
Proof.
  intros t.
  assert (txs t = Some <$> Scenario.queued t) as Hq by (vm_compute; reflexivity).
  split; [reflexivity|]. split; [exact Hq|].
  destruct (zero_LogFreq_panics_after_the_first_batch Scenario.unchecked t
              (Scenario.queued t) eq_refl) as [(s & Hex & Hpc & _) _].
  - vm_compute. discriminate.
  - vm_compute. discriminate.
  - exact Hq.
  - vm_compute. discriminate.
  - vm_compute. discriminate.
  - exists s. split; [exact Hex|exact Hpc].
Defined.

(** X14 for two Issue calls and an Accept on a new tester. *)
Lemma two_issued_one_accepted :
  is_int (processingVtxs (Scenario.fresh 0 50))
  ∧ processingVtxs
      (foldl (λ t cb, (runCallback cb t).2) (Scenario.fresh 0 50)
             [CbIssue; CbIssue; CbAccept])
    = wrapInt (0 + netCount [CbIssue; CbIssue; CbAccept]).
Proof.
  assert (is_int (processingVtxs (Scenario.fresh 0 50))) as Hint
    by (vm_compute; split; discriminate).
  split; [exact Hint|].
  exact (proj1 (callbacks_only_count [CbIssue; CbIssue; CbAccept]
                  (Scenario.fresh 0 50) Hint)).
Defined.

(** X16 for a request of three transactions with the defaults. *)
Lemma request_of_three_runs_without_panic :
  is_u64 (argBatchSize (Scenario.request 3))
  ∧ RunSetup (runConfig (Scenario.request 3) 7%nat)
      (NewTester (testerConfig Scenario.node (Scenario.request 3)))
    = (Ok tt, Scenario.served 3)
  ∧ BatchSize (runConfig (Scenario.request 3) 7%nat) = 10
  ∧ MaxProcessingVtxs (config (Scenario.served 3)) = 50
  ∧ ∀ ls s, exec (runConfig (Scenario.request 3) 7%nat) ls
              (initState (Scenario.served 3)) = Some s →
            at_pc s ≠ Returned Panicked.
Proof.
  assert (is_u64 (argBatchSize (Scenario.request 3))) as Hb
    by (vm_compute; split; discriminate).
  assert (is_u64 (argMaxProcessingVtxs (Scenario.request 3))) as Hm
    by (vm_compute; split; discriminate).
  assert (argBatchSize (Scenario.request 3) ≤ MaxInt) as Hbi
    by (vm_compute; discriminate).
  assert (RunSetup (runConfig (Scenario.request 3) 7%nat)
            (NewTester (testerConfig Scenario.node (Scenario.request 3)))
          = (Ok tt, Scenario.served 3)) as Hrun by (vm_compute; reflexivity).
  split; [exact Hb|]. split; [exact Hrun|].
  destruct (api_run_never_panics_in_the_loop Scenario.node (Scenario.request 3)
              7%nat (Scenario.served 3) Hb Hbi Hm Hrun)
    as (_ & Hdb & _ & Hdm & _ & _ & Hnp).
  split; [exact (Hdb eq_refl)|]. split; [exact (Hdm eq_refl)|exact Hnp].
Defined.

(** X17 for a request of 2^63 transactions. *)
Lemma request_of_two_to_the_63_panics :
  is_u64 (argNumTxs (Scenario.request (2 ^ 63)))
  ∧ MaxInt < argNumTxs (Scenario.request (2 ^ 63))
  ∧ (RunSetup (runConfig (Scenario.request (2 ^ 63)) 7%nat)
       (NewTester (testerConfig Scenario.node (Scenario.request (2 ^ 63))))).1
    = Panic.
Proof.
  assert (is_u64 (argNumTxs (Scenario.request (2 ^ 63)))) as Hn
    by (vm_compute; split; discriminate).
  assert (MaxInt < argNumTxs (Scenario.request (2 ^ 63))) as Hbig
    by (vm_compute; reflexivity).
  split; [exact Hn|]. split; [exact Hbig|].
  refine (proj2 (api_numTxs_beyond_int_panics Scenario.node
                   (Scenario.request (2 ^ 63)) 7%nat Hn Hbig _)).
  vm_compute. discriminate.
Defined.


